(** * Object lifecycle and operation scheduler of the V8 bindings

    A shallow embedding of [bindings/gumjs/gumv8object.cpp]: the registry
    that binds native handles to script wrappers, the per-object counter
    and queue of asynchronous operations, the "schedule when idle"
    dependency barrier, and the pin held on the runtime by every live
    operation.

    The C++ code mutates heap records through raw pointers.  The embedding
    keeps that shape: records live in finite maps from addresses to
    structs, a pointer is an address, and every function is a computation
    in a state-and-failure monad over the whole store.  A failed
    [g_assert] and the use of an address that holds no record are the two
    ways a computation can stop. *)

From Stdlib Require Import ZArith List Lia.
From stdpp Require Import gmap list fin_maps.

Local Open Scope Z_scope.

(** ** Data model *)

(** Addresses handed out by the slice allocator, and the opaque native
    handles that key the registry. *)
Abbreviation ptr := positive (only parsing).
Abbreviation Handle := positive (only parsing).

(** [guint] is 32 bits wide; [++] and [--] wrap around. *)
Definition guint_modulus : Z := 2 ^ 32.
Definition guint_wrap (z : Z) : Z := z mod guint_modulus.

(** [GumV8Object<T, M>].  The token is owned by the object and is kept
    inline: [true] once [g_cancellable_cancel] ran on it.  The fields
    [wrapper], [core], [module] and [manager] are not represented: the
    store below describes one manager and one core. *)
Record GumV8Object := {
  handle : Handle;
  cancellable : bool;
  num_active_operations : Z;
  pending_operations : list ptr
}.

(** What the job facility knows about a [GumScriptJob]. *)
Inductive GumScriptJob := JobCreated | JobStarted.

(** [GumV8ObjectOperation<T, M>], together with the one extra field of
    its subclass [GumV8TryScheduleIfIdleOperation]: [blocked_operation]
    is [Some op] for the probes made by the barrier and [None] for an
    operation of the client, whose struct has no such field.  [cleanup]
    tells whether the function pointer is non-NULL. *)
Record GumV8ObjectOperation := {
  object : ptr;
  job : GumScriptJob;
  pending_dependencies : list ptr;
  cleanup : bool;
  blocked_operation : option ptr
}.

(** [GumV8ModuleOperation<M>].  Its [cancellable] field aliases the
    manager's token and is therefore not stored a second time. *)
Record GumV8ModuleOperation := {
  mjob : GumScriptJob;
  mcleanup : bool
}.

(** Calls that leave the scheduler, and the queue and counter updates, in
    the order in which the code performs them. *)
Inductive Effect :=
| ECleanup (op : ptr)
| EDeleteWrapper (op : ptr)
| EDeleteCallback (op : ptr)
| EIncrement (obj : ptr)
| EDecrement (obj : ptr)
| EPushTail (obj op : ptr)
| EPopHead (obj op : ptr)
| EJobStart (op : ptr)
| EPin
| EUnpin
| ESliceFree (op : ptr)
| EObjectFree (obj : ptr)
| EHandleUnref (h : Handle).

Global Instance Effect_eq_dec : EqDecision Effect.
Proof. solve_decision. Defined.

(** The store.  [object_by_handle] is [None] when the manager has no
    hash table (before [init], after [free]). *)
Record State := {
  object_by_handle : option (gmap positive positive);
  manager_cancellable : bool;
  objects : gmap positive GumV8Object;
  operations : gmap positive GumV8ObjectOperation;
  module_operations : gmap positive GumV8ModuleOperation;
  usage_count : Z;
  next_ptr : positive;
  trace : list Effect
}.

Definition set_object_by_handle (t : option (gmap positive positive)) (s : State) : State :=
  {| object_by_handle := t;
     manager_cancellable := manager_cancellable s;
     objects := objects s;
     operations := operations s;
     module_operations := module_operations s;
     usage_count := usage_count s;
     next_ptr := next_ptr s;
     trace := trace s |}.

Definition set_manager_cancellable (b : bool) (s : State) : State :=
  {| object_by_handle := object_by_handle s;
     manager_cancellable := b;
     objects := objects s;
     operations := operations s;
     module_operations := module_operations s;
     usage_count := usage_count s;
     next_ptr := next_ptr s;
     trace := trace s |}.

Definition set_objects (m : gmap positive GumV8Object) (s : State) : State :=
  {| object_by_handle := object_by_handle s;
     manager_cancellable := manager_cancellable s;
     objects := m;
     operations := operations s;
     module_operations := module_operations s;
     usage_count := usage_count s;
     next_ptr := next_ptr s;
     trace := trace s |}.

Definition set_operations (m : gmap positive GumV8ObjectOperation) (s : State) : State :=
  {| object_by_handle := object_by_handle s;
     manager_cancellable := manager_cancellable s;
     objects := objects s;
     operations := m;
     module_operations := module_operations s;
     usage_count := usage_count s;
     next_ptr := next_ptr s;
     trace := trace s |}.

Definition set_module_operations (m : gmap positive GumV8ModuleOperation) (s : State) : State :=
  {| object_by_handle := object_by_handle s;
     manager_cancellable := manager_cancellable s;
     objects := objects s;
     operations := operations s;
     module_operations := m;
     usage_count := usage_count s;
     next_ptr := next_ptr s;
     trace := trace s |}.

Definition set_usage_count (n : Z) (s : State) : State :=
  {| object_by_handle := object_by_handle s;
     manager_cancellable := manager_cancellable s;
     objects := objects s;
     operations := operations s;
     module_operations := module_operations s;
     usage_count := n;
     next_ptr := next_ptr s;
     trace := trace s |}.

Definition set_next_ptr (p : positive) (s : State) : State :=
  {| object_by_handle := object_by_handle s;
     manager_cancellable := manager_cancellable s;
     objects := objects s;
     operations := operations s;
     module_operations := module_operations s;
     usage_count := usage_count s;
     next_ptr := p;
     trace := trace s |}.

Definition set_trace (t : list Effect) (s : State) : State :=
  {| object_by_handle := object_by_handle s;
     manager_cancellable := manager_cancellable s;
     objects := objects s;
     operations := operations s;
     module_operations := module_operations s;
     usage_count := usage_count s;
     next_ptr := next_ptr s;
     trace := t |}.

(** Field updates of the structs. *)
Definition with_cancellable (b : bool) (o : GumV8Object) : GumV8Object :=
  {| handle := handle o; cancellable := b;
     num_active_operations := num_active_operations o;
     pending_operations := pending_operations o |}.

Definition with_num_active_operations (n : Z) (o : GumV8Object) : GumV8Object :=
  {| handle := handle o; cancellable := cancellable o;
     num_active_operations := n;
     pending_operations := pending_operations o |}.

Definition with_pending_operations (q : list ptr) (o : GumV8Object) : GumV8Object :=
  {| handle := handle o; cancellable := cancellable o;
     num_active_operations := num_active_operations o;
     pending_operations := q |}.

Definition with_job (j : GumScriptJob) (o : GumV8ObjectOperation) : GumV8ObjectOperation :=
  {| object := object o; job := j;
     pending_dependencies := pending_dependencies o;
     cleanup := cleanup o; blocked_operation := blocked_operation o |}.

Definition with_pending_dependencies (l : list ptr) (o : GumV8ObjectOperation) : GumV8ObjectOperation :=
  {| object := object o; job := job o;
     pending_dependencies := l;
     cleanup := cleanup o; blocked_operation := blocked_operation o |}.

Definition with_blocked_operation (b : option ptr) (o : GumV8ObjectOperation) : GumV8ObjectOperation :=
  {| object := object o; job := job o;
     pending_dependencies := pending_dependencies o;
     cleanup := cleanup o; blocked_operation := b |}.

(** ** The monad of the script thread *)

Inductive Failure :=
| AssertionFailed   (* a [g_assert] did not hold: the process aborts *)
| InvalidPointer    (* an address that holds no record was dereferenced *)
| StackExhausted.   (* the bound on nested calls was reached *)

Inductive Res (A : Type) :=
| Ok (a : A)
| Abort (f : Failure).
Arguments Ok {A} a.
Arguments Abort {A} f.

Definition M (A : Type) : Type := State → Res (A * State).

Definition ret {A} (a : A) : M A := λ s, Ok (a, s).

Definition bind {A B} (m : M A) (k : A → M B) : M B :=
  λ s, match m s with
       | Ok (a, s') => k a s'
       | Abort f => Abort f
       end.

Definition fail {A} (f : Failure) : M A := λ _, Abort f.

Definition get : M State := λ s, Ok (s, s).

Definition modify (f : State → State) : M unit := λ s, Ok (tt, f s).

Notation "'let!' x ':=' m 'in' k" := (bind m (λ x, k))
  (at level 10, x pattern, m at level 100, k at level 200,
   format "'[v' 'let!'  x  ':='  m  'in' '/' k ']'").
Notation "m ';;;' k" := (bind m (λ _, k))
  (at level 100, k at level 200, right associativity).

Fixpoint for_each {A} (l : list A) (body : A → M unit) : M unit :=
  match l with
  | [] => ret tt
  | x :: l' => body x ;;; for_each l' body
  end.

Definition emit (e : Effect) : M unit :=
  modify (λ s, set_trace (trace s ++ [e]) s).

Definition g_assert (b : bool) : M unit :=
  if b then ret tt else fail AssertionFailed.

(** Reads and writes through a pointer. *)
Definition deref_object (p : ptr) : M GumV8Object :=
  λ s, match objects s !! p with
       | Some o => Ok (o, s)
       | None => Abort InvalidPointer
       end.

Definition deref_operation (p : ptr) : M GumV8ObjectOperation :=
  λ s, match operations s !! p with
       | Some o => Ok (o, s)
       | None => Abort InvalidPointer
       end.

Definition deref_module_operation (p : ptr) : M GumV8ModuleOperation :=
  λ s, match module_operations s !! p with
       | Some o => Ok (o, s)
       | None => Abort InvalidPointer
       end.

Definition store_object (p : ptr) (o : GumV8Object) : M unit :=
  modify (λ s, set_objects (<[p := o]> (objects s)) s).

Definition store_operation (p : ptr) (o : GumV8ObjectOperation) : M unit :=
  modify (λ s, set_operations (<[p := o]> (operations s)) s).

Definition store_module_operation (p : ptr) (o : GumV8ModuleOperation) : M unit :=
  modify (λ s, set_module_operations (<[p := o]> (module_operations s)) s).

Definition update_object (p : ptr) (f : GumV8Object → GumV8Object) : M unit :=
  let! o := deref_object p in store_object p (f o).

Definition update_operation (p : ptr) (f : GumV8ObjectOperation → GumV8ObjectOperation) : M unit :=
  let! o := deref_operation p in store_operation p (f o).

(** [g_slice_alloc]: a fresh address.  Addresses are never handed out
    twice, so a stale pointer never aliases a younger record. *)
Definition g_slice_alloc : M ptr :=
  λ s, Ok (next_ptr s, set_next_ptr (Pos.succ (next_ptr s)) s).

(** The manager's hash table; using it when there is none is a fault. *)
Definition hash_table : M (gmap positive positive) :=
  λ s, match object_by_handle s with
       | Some t => Ok (t, s)
       | None => Abort InvalidPointer
       end.

Definition set_hash_table (t : gmap positive positive) : M unit :=
  modify (set_object_by_handle (Some t)).

(** ** Collaborators outside the file

    The GLib containers behave as documented by GLib.  The three calls
    into the core and the job facility are not part of this source file. *)

(** [g_queue_push_tail] and [g_queue_pop_head] on [object->pending_operations]. *)
Definition g_queue_push_tail (obj op : ptr) : M unit :=
  update_object obj (λ o, with_pending_operations (pending_operations o ++ [op]) o) ;;;
  emit (EPushTail obj op).

Definition g_queue_pop_head (obj : ptr) : M (option ptr) :=
  let! o := deref_object obj in
  match pending_operations o with
  | [] => ret None
  | next :: rest =>
      store_object obj (with_pending_operations rest o) ;;;
      emit (EPopHead obj next) ;;;
      ret (Some next)
  end.

Definition g_queue_is_empty (q : list ptr) : bool :=
  match q with [] => true | _ :: _ => false end.

(** [g_slist_prepend] and [g_slist_remove] (the first matching link only). *)
Definition g_slist_prepend (l : list ptr) (x : ptr) : list ptr := x :: l.

Fixpoint g_slist_remove (l : list ptr) (x : ptr) : list ptr :=
  match l with
  | [] => []
  | y :: l' => if decide (y = x) then l' else y :: g_slist_remove l' x
  end.

(** [g_cancellable_cancel (object->cancellable)]. *)
Definition g_cancellable_cancel_object (obj : ptr) : M unit :=
  update_object obj (with_cancellable true).

(** [g_cancellable_cancel (manager->cancellable)]. *)
Definition g_cancellable_cancel_manager : M unit :=
  modify (set_manager_cancellable true).

(** Modelled from the spec: [_gum_v8_core_pin] and [_gum_v8_core_unpin]
    live in the core, outside this file.  The runtime pin is a reference
    count: [pin] adds one to it and [unpin] takes one away. *)
Definition _gum_v8_core_pin : M unit :=
  modify (λ s, set_usage_count (usage_count s + 1) s) ;;; emit EPin.

Definition _gum_v8_core_unpin : M unit :=
  modify (λ s, set_usage_count (usage_count s - 1) s) ;;; emit EUnpin.

(** Modelled from the spec: [gum_script_job_start_on_js_thread] belongs to
    the job facility.  It submits the job; the facility will later run
    the job's body once, on the script thread. *)
Definition gum_script_job_start_on_js_thread (op : ptr) : M unit :=
  update_operation op (with_job JobStarted) ;;; emit (EJobStart op).

(** ** gumv8object.cpp *)

(** [manager->cancellable = g_cancellable_new ()] and a new, empty table
    whose value-destroy function is [gum_v8_object_free]. *)
Definition gum_v8_object_manager_init : M unit :=
  modify (set_manager_cancellable false) ;;;
  set_hash_table ∅.

Definition gum_v8_object_manager_flush : M unit :=
  let! t := hash_table in
  for_each (map_to_list t) (λ '(_, object), g_cancellable_cancel_object object) ;;;
  g_cancellable_cancel_manager.

Definition gum_v8_object_free (obj : ptr) : M unit :=
  let! o := deref_object obj in
  g_assert (bool_decide (num_active_operations o = 0)) ;;;
  g_assert (g_queue_is_empty (pending_operations o)) ;;;
  emit (EHandleUnref (handle o)) ;;;
  modify (λ s, set_objects (delete obj (objects s)) s) ;;;
  emit (EObjectFree obj).

(** [g_hash_table_remove_all] empties the table and hands every value to
    the destroy function; [g_hash_table_unref] then drops the table.  The
    manager's token, kept inline, goes with the manager. *)
Definition gum_v8_object_manager_free : M unit :=
  let! t := hash_table in
  set_hash_table ∅ ;;;
  for_each (map_to_list t) (λ '(_, object), gum_v8_object_free object) ;;;
  modify (set_object_by_handle None).

(** [g_hash_table_insert]: a value already stored under the key is
    replaced and handed to the destroy function. *)
Definition g_hash_table_insert (h : Handle) (obj : ptr) : M unit :=
  let! t := hash_table in
  set_hash_table (<[h := obj]> t) ;;;
  match t !! h with
  | Some old => gum_v8_object_free old
  | None => ret tt
  end.

(** [g_hash_table_remove]: nothing happens for a key that is absent. *)
Definition g_hash_table_remove (h : Handle) : M unit :=
  let! t := hash_table in
  match t !! h with
  | Some old => set_hash_table (delete h t) ;;; gum_v8_object_free old
  | None => ret tt
  end.

Definition _gum_v8_object_manager_add (h : Handle) : M ptr :=
  let! obj := g_slice_alloc in
  store_object obj {| handle := h; cancellable := false;
                      num_active_operations := 0;
                      pending_operations := [] |} ;;;
  g_hash_table_insert h obj ;;;
  ret obj.

Definition _gum_v8_object_manager_lookup (h : Handle) : M (option ptr) :=
  let! t := hash_table in
  ret (t !! h).

Definition gum_v8_object_manager_cancel (h : Handle) : M bool :=
  let! t := hash_table in
  match t !! h with
  | None => ret false
  | Some obj => g_cancellable_cancel_object obj ;;; ret true
  end.

Definition gum_v8_object_on_weak_notify (obj : ptr) : M unit :=
  let! o := deref_object obj in
  g_hash_table_remove (handle o).

Definition _gum_v8_object_operation_new (obj : ptr) (cleanup : bool) : M ptr :=
  let! op := g_slice_alloc in
  let! _ := deref_object obj in
  store_operation op {| object := obj; job := JobCreated;
                        pending_dependencies := [];
                        cleanup := cleanup;
                        blocked_operation := None |} ;;;
  _gum_v8_core_pin ;;;
  ret op.

Definition _gum_v8_object_operation_schedule (self : ptr) : M unit :=
  let! o := deref_operation self in
  update_object (object o)
    (λ obj, with_num_active_operations
              (guint_wrap (num_active_operations obj + 1)) obj) ;;;
  emit (EIncrement (object o)) ;;;
  gum_script_job_start_on_js_thread self.

(** [--object->num_active_operations], returning the new value. *)
Definition decrement_num_active_operations (obj : ptr) : M Z :=
  let! o := deref_object obj in
  let n := guint_wrap (num_active_operations o - 1) in
  store_object obj (with_num_active_operations n o) ;;;
  emit (EDecrement obj) ;;;
  ret n.

Definition gum_v8_object_operation_free (op : ptr) : M unit :=
  let! o := deref_operation op in
  let! _ := deref_object (object o) in
  g_assert (bool_decide (pending_dependencies o = [])) ;;;
  (if cleanup o then emit (ECleanup op) else ret tt) ;;;
  emit (EDeleteWrapper op) ;;;
  emit (EDeleteCallback op) ;;;
  let! n := decrement_num_active_operations (object o) in
  (if bool_decide (n = 0) then
     let! next := g_queue_pop_head (object o) in
     match next with
     | Some next => _gum_v8_object_operation_schedule next
     | None => ret tt
     end
   else ret tt) ;;;
  _gum_v8_core_unpin ;;;
  modify (λ s, set_operations (delete op (operations s)) s) ;;;
  emit (ESliceFree op).

(** Modelled from the spec: [gum_v8_object_operation_finish] is declared
    in the header.  It ends the job, and the job then runs the destroy
    function it was created with, [gum_v8_object_operation_free]. *)
Definition gum_v8_object_operation_finish (op : ptr) : M unit :=
  gum_v8_object_operation_free op.

Definition gum_v8_object_operation_try_schedule_when_idle (self : ptr) : M unit :=
  let! o := deref_operation self in
  match pending_dependencies o with
  | _ :: _ => ret tt
  | [] =>
      let! obj := deref_object (object o) in
      if bool_decide (num_active_operations obj = 0)
      then _gum_v8_object_operation_schedule self
      else g_queue_push_tail (object o) self
  end.

(** The function calls itself, through the header's wrapper, for each
    probe it creates, with no [dependencies] argument.  [depth] bounds
    the nesting of those calls; [schedule_when_idle_depth] shows that two
    levels are all the code ever uses. *)
Fixpoint schedule_when_idle (depth : nat) (self : ptr)
    (dependencies : option (list ptr)) : M unit :=
  match depth with
  | O => fail StackExhausted
  | S depth' =>
      match dependencies with
      | Some deps =>
          for_each deps (λ dependency,
            let! d := deref_object dependency in
            if bool_decide (num_active_operations d > 0) then
              let! op := _gum_v8_object_operation_new dependency false in
              update_operation op (with_blocked_operation (Some self)) ;;;
              update_operation self (λ o,
                with_pending_dependencies
                  (g_slist_prepend (pending_dependencies o) op) o) ;;;
              schedule_when_idle depth' op None
            else ret tt)
      | None => ret tt
      end ;;;
      gum_v8_object_operation_try_schedule_when_idle self
  end.

Definition _gum_v8_object_operation_schedule_when_idle (self : ptr)
    (dependencies : option (list ptr)) : M unit :=
  schedule_when_idle 2 self dependencies.

Definition gum_v8_try_schedule_if_idle_operation_perform (self : ptr) : M unit :=
  let! p := deref_operation self in
  match blocked_operation p with
  | None => fail InvalidPointer
  | Some op =>
      update_operation op (λ o,
        with_pending_dependencies
          (g_slist_remove (pending_dependencies o) self) o) ;;;
      gum_v8_object_operation_try_schedule_when_idle op ;;;
      gum_v8_object_operation_finish self
  end.

Definition _gum_v8_module_operation_new (cleanup : bool) : M ptr :=
  let! op := g_slice_alloc in
  store_module_operation op {| mjob := JobCreated; mcleanup := cleanup |} ;;;
  _gum_v8_core_pin ;;;
  ret op.

Definition gum_v8_module_operation_free (op : ptr) : M unit :=
  let! o := deref_module_operation op in
  (if mcleanup o then emit (ECleanup op) else ret tt) ;;;
  emit (EDeleteCallback op) ;;;
  _gum_v8_core_unpin ;;;
  modify (λ s, set_module_operations (delete op (module_operations s)) s) ;;;
  emit (ESliceFree op).

(** Modelled from the spec: [gum_v8_module_operation_schedule] and
    [gum_v8_module_operation_finish] are declared in the header.  The
    first submits the job directly; the second ends the job, which then
    runs its destroy function [gum_v8_module_operation_free]. *)
Definition gum_v8_module_operation_schedule (op : ptr) : M unit :=
  let! o := deref_module_operation op in
  store_module_operation op {| mjob := JobStarted; mcleanup := mcleanup o |} ;;;
  emit (EJobStart op).

Definition gum_v8_module_operation_finish (op : ptr) : M unit :=
  gum_v8_module_operation_free op.

(** ** Schedules

    What the client and the two collaborators (garbage collector and job
    facility) can make happen, one event at a time, on the script
    thread. *)
Inductive Event :=
| EvRegister (h : Handle)
| EvSchedule (obj : ptr) (cleanup : bool)
| EvScheduleWhenIdle (obj : ptr) (cleanup : bool) (dependencies : option (list ptr))
| EvComplete (op : ptr)
| EvModuleSchedule (cleanup : bool)
| EvModuleComplete (op : ptr)
| EvFinalize (obj : ptr)
| EvCancel (h : Handle)
| EvFlush
| EvTeardown.

(** The code run by each event.  A job that completes runs its body and
    then finishes: the body of a probe is
    [gum_v8_try_schedule_if_idle_operation_perform], which finishes by
    itself; the body of a client's operation is opaque and ends with
    [gum_v8_object_operation_finish]. *)
Definition exec (e : Event) : M unit :=
  match e with
  | EvRegister h => _gum_v8_object_manager_add h ;;; ret tt
  | EvSchedule obj c =>
      let! op := _gum_v8_object_operation_new obj c in
      _gum_v8_object_operation_schedule op
  | EvScheduleWhenIdle obj c deps =>
      let! op := _gum_v8_object_operation_new obj c in
      _gum_v8_object_operation_schedule_when_idle op deps
  | EvComplete op =>
      let! o := deref_operation op in
      match blocked_operation o with
      | Some _ => gum_v8_try_schedule_if_idle_operation_perform op
      | None => gum_v8_object_operation_finish op
      end
  | EvModuleSchedule c =>
      let! op := _gum_v8_module_operation_new c in
      gum_v8_module_operation_schedule op
  | EvModuleComplete op => gum_v8_module_operation_finish op
  | EvFinalize obj => gum_v8_object_on_weak_notify obj
  | EvCancel h => gum_v8_object_manager_cancel h ;;; ret tt
  | EvFlush => gum_v8_object_manager_flush
  | EvTeardown => gum_v8_object_manager_free
  end.

Definition is_live {A} (m : gmap positive A) (p : ptr) : bool :=
  bool_decide (is_Some (m !! p)).

Definition has_job {A} (j : A → GumScriptJob) (m : gmap positive A) (p : ptr) : bool :=
  match m !! p with
  | Some o => match j o with JobStarted => true | JobCreated => false end
  | None => false
  end.

(** No live operation holds a strong persistent reference to the wrapper
    of [obj] (each operation holds one from [new] to [free]). *)
Definition wrapper_unreferenced (s : State) (obj : ptr) : bool :=
  bool_decide (map_Forall (λ _ o, object o ≠ obj) (operations s)).

(** What the callers' types and the collaborators' contracts guarantee:
    pointers passed in are valid, the manager is initialised, the job
    facility completes only jobs that were started, and the garbage
    collector finalizes only a wrapper that nothing references
    strongly. *)
Definition enabled (e : Event) (s : State) : bool :=
  match e with
  | EvRegister _ | EvCancel _ | EvFlush | EvTeardown | EvModuleSchedule _ =>
      bool_decide (is_Some (object_by_handle s))
  | EvSchedule obj _ => is_live (objects s) obj
  | EvScheduleWhenIdle obj _ deps =>
      is_live (objects s) obj &&
      forallb (is_live (objects s)) (default [] deps)
  | EvComplete op => has_job job (operations s) op
  | EvModuleComplete op => has_job mjob (module_operations s) op
  | EvFinalize obj => is_live (objects s) obj && wrapper_unreferenced s obj
  end.

(** The discipline the client has to add: a handle is registered only
    while it is not in the registry, and the manager is torn down only
    when no operation is outstanding. *)
Definition disciplined (e : Event) (s : State) : bool :=
  match e with
  | EvRegister h =>
      match object_by_handle s with
      | Some t => bool_decide (t !! h = None)
      | None => false
      end
  | EvTeardown =>
      bool_decide (operations s = ∅) && bool_decide (module_operations s = ∅)
  | _ => true
  end.

Definition valid (e : Event) (s : State) : bool :=
  enabled e s && disciplined e s.

Definition blank_state (pins : Z) : State :=
  {| object_by_handle := None;
     manager_cancellable := false;
     objects := ∅;
     operations := ∅;
     module_operations := ∅;
     usage_count := pins;
     next_ptr := 1%positive;
     trace := [] |}.

(** The state right after [gum_v8_object_manager_init], with [pins] pins
    already held on the runtime by others. *)
Definition initial_state (pins : Z) : State :=
  match gum_v8_object_manager_init (blank_state pins) with
  | Ok (_, s) => s
  | Abort _ => blank_state pins
  end.

(** States reached from the initial one by events that satisfy [G]. *)
Inductive reachable (G : Event → State → bool) (pins : Z) : State → Prop :=
| reachable_init : reachable G pins (initial_state pins)
| reachable_step s e s' :
    reachable G pins s →
    G e s = true →
    exec e s = Ok (tt, s') →
    reachable G pins s'.

(** Running a whole schedule; [None] when an event is not allowed by [G]. *)
Fixpoint run (G : Event → State → bool) (evs : list Event) (s : State)
    : option (Res State) :=
  match evs with
  | [] => Some (Ok s)
  | e :: evs' =>
      if G e s then
        match exec e s with
        | Ok (_, s') => run G evs' s'
        | Abort f => Some (Abort f)
        end
      else None
  end.

(** ** Invariants of the scheduler *)

Global Instance GumScriptJob_eq_dec : EqDecision GumScriptJob.
Proof. solve_decision. Defined.

(** An operation counts as active on [p] from the moment its job is
    started until it is freed. *)
Definition is_running (p : ptr) (op : GumV8ObjectOperation) : bool :=
  bool_decide (object op = p) && bool_decide (job op = JobStarted).

Definition running (ops : gmap positive GumV8ObjectOperation) (p : ptr) : nat :=
  size (filter (λ kv, is_running p kv.2 = true) ops).

Definition queue_of (s : State) (p : ptr) : list ptr :=
  match objects s !! p with
  | Some o => pending_operations o
  | None => []
  end.

(** The store invariant.  [x] names a probe whose body is running: it has
    already been taken off the list of the operation it blocks, and is
    about to be freed. *)
Record Inv (pins : Z) (x : option ptr) (s : State) : Prop := {
  inv_table_obj : ∀ t h p,
    object_by_handle s = Some t → t !! h = Some p →
    ∃ o, objects s !! p = Some o ∧ handle o = h;
  inv_obj_table : ∀ p o,
    objects s !! p = Some o →
    ∃ t, object_by_handle s = Some t ∧ t !! handle o = Some p;
  inv_op_obj : ∀ q op,
    operations s !! q = Some op → is_Some (objects s !! object op);
  inv_count : ∀ p o,
    objects s !! p = Some o →
    num_active_operations o = guint_wrap (Z.of_nat (running (operations s) p));
  inv_queue : ∀ p o q,
    objects s !! p = Some o → q ∈ pending_operations o →
    ∃ op, operations s !! q = Some op ∧ object op = p ∧
          job op = JobCreated ∧ pending_dependencies op = [];
  inv_queue_nodup : ∀ p o,
    objects s !! p = Some o → NoDup (pending_operations o);
  inv_deps : ∀ q op d,
    operations s !! q = Some op → d ∈ pending_dependencies op →
    ∃ pr, operations s !! d = Some pr ∧ blocked_operation pr = Some q;
  inv_deps_nodup : ∀ q op,
    operations s !! q = Some op → NoDup (pending_dependencies op);
  inv_blocked : ∀ q op,
    operations s !! q = Some op → pending_dependencies op ≠ [] →
    job op = JobCreated;
  inv_probe : ∀ d pr q,
    operations s !! d = Some pr → blocked_operation pr = Some q →
    pending_dependencies pr = [] ∧
    (x ≠ Some d → ∃ op, operations s !! q = Some op ∧ d ∈ pending_dependencies op);
  inv_exempt : ∀ d q op,
    x = Some d → operations s !! q = Some op → d ∉ pending_dependencies op;
  inv_pins :
    usage_count s
    = pins + Z.of_nat (size (operations s)) + Z.of_nat (size (module_operations s));
  inv_fresh_obj : ∀ p, is_Some (objects s !! p) → (p < next_ptr s)%positive;
  inv_fresh_op : ∀ p, is_Some (operations s !! p) → (p < next_ptr s)%positive;
  inv_fresh_mop : ∀ p, is_Some (module_operations s !! p) → (p < next_ptr s)%positive;
  inv_manager :
    object_by_handle s = None → operations s = ∅ ∧ module_operations s = ∅
}.

(** The entries that were ever pushed on, and popped off, the queue of
    [p], oldest first. *)
Definition pushed (tr : list Effect) (p : ptr) : list ptr :=
  omap (λ e, match e with
             | EPushTail q op => if decide (q = p) then Some op else None
             | _ => None
             end) tr.

Definition popped (tr : list Effect) (p : ptr) : list ptr :=
  omap (λ e, match e with
             | EPopHead q op => if decide (q = p) then Some op else None
             | _ => None
             end) tr.

(** First in, first out: what was popped is a prefix of what was pushed,
    and the rest is what the queue holds now. *)
Definition Fifo (s : State) : Prop :=
  (∀ p, pushed (trace s) p = popped (trace s) p ++ queue_of s p) ∧
  (∀ p, is_Some (objects s !! p) → (p < next_ptr s)%positive).

(** The changes that the scheduler makes to the store, one at a time and
    leaving the trace aside.  Every event is a sequence of these. *)
Definition new_operation (obj : ptr) (c : bool) : GumV8ObjectOperation :=
  {| object := obj; job := JobCreated; pending_dependencies := [];
     cleanup := c; blocked_operation := None |}.

Definition after_new (obj : ptr) (c : bool) (s : State) : State :=
  set_usage_count (usage_count s + 1)
    (set_operations (<[next_ptr s := new_operation obj c]> (operations s))
       (set_next_ptr (Pos.succ (next_ptr s)) s)).

Definition after_start (q : ptr) (op : GumV8ObjectOperation) (o : GumV8Object)
    (s : State) : State :=
  set_operations (<[q := with_job JobStarted op]> (operations s))
    (set_objects
       (<[object op := with_num_active_operations
                         (guint_wrap (num_active_operations o + 1)) o]> (objects s))
       s).

Definition after_enqueue (q : ptr) (op : GumV8ObjectOperation) (o : GumV8Object)
    (s : State) : State :=
  set_objects
    (<[object op := with_pending_operations (pending_operations o ++ [q]) o]>
       (objects s)) s.

Definition after_dequeue (p : ptr) (o : GumV8Object) (s : State) : State :=
  set_objects (<[p := with_pending_operations (tail (pending_operations o)) o]>
                 (objects s)) s.

Definition after_link (b : ptr) (bop : GumV8ObjectOperation)
    (d : ptr) (dop : GumV8ObjectOperation) (s : State) : State :=
  set_operations
    (<[b := with_pending_dependencies (d :: pending_dependencies bop) bop]>
       (<[d := with_blocked_operation (Some b) dop]> (operations s))) s.

Definition after_unlink (b : ptr) (bop : GumV8ObjectOperation) (d : ptr)
    (s : State) : State :=
  set_operations
    (<[b := with_pending_dependencies
              (g_slist_remove (pending_dependencies bop) d) bop]> (operations s)) s.

Definition after_complete (q : ptr) (op : GumV8ObjectOperation) (o : GumV8Object)
    (s : State) : State :=
  set_usage_count (usage_count s - 1)
    (set_operations (delete q (operations s))
       (set_objects
          (<[object op := with_num_active_operations
                            (guint_wrap (num_active_operations o - 1)) o]>
             (objects s)) s)).

Definition new_object (h : Handle) : GumV8Object :=
  {| handle := h; cancellable := false;
     num_active_operations := 0; pending_operations := [] |}.

Definition after_register (h : Handle) (t : gmap positive positive) (s : State) : State :=
  set_objects (<[next_ptr s := new_object h]> (objects s))
    (set_object_by_handle (Some (<[h := next_ptr s]> t))
       (set_next_ptr (Pos.succ (next_ptr s)) s)).

Definition after_destroy (t : gmap positive positive) (p : ptr) (o : GumV8Object)
    (s : State) : State :=
  set_objects (delete p (objects s))
    (set_object_by_handle (Some (delete (handle o) t)) s).

Definition after_teardown (s : State) : State :=
  set_objects ∅ (set_object_by_handle None s).

Definition after_module_start (c : bool) (s : State) : State :=
  set_usage_count (usage_count s + 1)
    (set_module_operations
       (<[next_ptr s := {| mjob := JobStarted; mcleanup := c |}]> (module_operations s))
       (set_next_ptr (Pos.succ (next_ptr s)) s)).

Definition after_module_complete (q : ptr) (s : State) : State :=
  set_usage_count (usage_count s - 1)
    (set_module_operations (delete q (module_operations s)) s).

(** The record of a probe on [dep] that will notify [self]. *)
Definition probe_operation (dep self : ptr) : GumV8ObjectOperation :=
  with_blocked_operation (Some self) (new_operation dep false).

(** One round of the loop of [_gum_v8_object_operation_schedule_when_idle]
    for a dependency that is busy: a probe is created at the next free
    address, linked to [self], and queued on the dependency. *)
Definition after_probe (self : ptr) (selfop : GumV8ObjectOperation)
    (dep : ptr) (dobj : GumV8Object) (s : State) : State :=
  set_trace (trace s ++ [EPin; EPushTail dep (next_ptr s)])
    (after_enqueue (next_ptr s) (probe_operation dep self) dobj
       (after_link self selfop (next_ptr s) (new_operation dep false)
          (after_new dep false s))).

(** A dependency gets a probe when its counter is not zero. *)
Definition busy (s : State) (dep : ptr) : bool :=
  match objects s !! dep with
  | Some o => bool_decide (num_active_operations o > 0)
  | None => false
  end.

(** [n] consecutive addresses from [p] on. *)
Fixpoint ptr_seq (p : positive) (n : nat) : list positive :=
  match n with
  | O => []
  | S n' => p :: ptr_seq (Pos.succ p) n'
  end.

(** States used to try the theorems on. *)
Definition state_after (evs : list Event) : State :=
  match run valid evs (initial_state 0) with
  | Some (Ok s) => s
  | _ => initial_state 0
  end.

(** Handle 7 is object 1, on which operation 2 ran and completed. *)
Definition idle_example : State :=
  state_after [EvRegister 7; EvSchedule 1 true; EvComplete 2].

(** Handles 7 and 8 are objects 1 and 2; operation 3 is running on 1. *)
Definition two_objects_example : State :=
  state_after [EvRegister 7; EvRegister 8; EvSchedule 1 false].

(** As before; then operation 4 on object 2 waits for object 1 through
    probe 5, which is queued on object 1 behind operation 3. *)
Definition barrier_example : State :=
  state_after [EvRegister 7; EvRegister 8; EvSchedule 1 false;
               EvScheduleWhenIdle 2 true (Some [1%positive])].

(** Every pop in the trace is followed at once by the increment of a
    counter and the start of the job of the popped operation. *)
Fixpoint pops_scheduled (tr : list Effect) : bool :=
  match tr with
  | [] => true
  | EPopHead _ x :: rest =>
      match rest with
      | EIncrement _ :: EJobStart y :: _ => bool_decide (x = y)
      | _ => false
      end && pops_scheduled rest
  | _ :: rest => pops_scheduled rest
  end.

Definition PopsScheduled (s : State) : Prop := pops_scheduled (trace s) = true.

(** Two operations queue up behind operation 2 on object 1 and are
    started one after the other as their predecessors complete. *)
Definition fifo_example : State :=
  state_after [EvRegister 7; EvSchedule 1 true;
               EvScheduleWhenIdle 1 false None; EvScheduleWhenIdle 1 false None;
               EvComplete 2; EvComplete 3].

(** The pin count matches the operations in the store.  [live] names an
    operation that is being freed and is still in the store. *)
Definition PinInv (pins : Z) (live : option ptr) (s : State) : Prop :=
  usage_count s
  = pins + Z.of_nat (size (operations s)) + Z.of_nat (size (module_operations s)) ∧
  (∀ p, is_Some (operations s !! p) → (p < next_ptr s)%positive) ∧
  (∀ p, is_Some (module_operations s !! p) → (p < next_ptr s)%positive) ∧
  (∀ q, live = Some q → is_Some (operations s !! q)).

(** ** Definitions used to state and prove the properties *)

Definition registry_example : State :=
  {| object_by_handle := Some {[ 7%positive := 1%positive ]};
     manager_cancellable := false;
     objects := {[ 1%positive := {| handle := 7; cancellable := false;
                                    num_active_operations := 0;
                                    pending_operations := [] |} ]};
     operations := ∅;
     module_operations := ∅;
     usage_count := 0;
     next_ptr := 2%positive;
     trace := [] |}.

(** The loop of [gum_v8_object_manager_flush] over a list of table
    entries whose objects are all in the store. *)
Definition cancel_each (l : list (positive * positive))
    (m : gmap positive GumV8Object) : gmap positive GumV8Object :=
  foldl (λ m x, alter (with_cancellable true) x.2 m) m l.

Definition busy_example : State :=
  {| object_by_handle := Some {[ 7%positive := 1%positive ]};
     manager_cancellable := false;
     objects := {[ 1%positive := {| handle := 7; cancellable := false;
                                    num_active_operations := 1;
                                    pending_operations := [3%positive] |} ]};
     operations :=
       {[ 2%positive := {| object := 1; job := JobStarted;
                           pending_dependencies := []; cleanup := true;
                           blocked_operation := None |};
          3%positive := {| object := 1; job := JobCreated;
                           pending_dependencies := []; cleanup := false;
                           blocked_operation := None |};
          4%positive := {| object := 1; job := JobCreated;
                           pending_dependencies := []; cleanup := false;
                           blocked_operation := None |} ]};
     module_operations := ∅;
     usage_count := 3;
     next_ptr := 5%positive;
     trace := [] |}.

(** The effects of [gum_v8_object_operation_free] before and after the
    queue is looked at. *)
Definition completion_prefix (op : ptr) (o : GumV8ObjectOperation) : list Effect :=
  (if cleanup o then [ECleanup op] else []) ++
  [EDeleteWrapper op; EDeleteCallback op; EDecrement (object o)].

(** Objects that an event destroyed were idle. *)
Definition destroyed_idle (s s' : State) : Prop :=
  ∀ p o, objects s !! p = Some o → objects s' !! p = None →
         num_active_operations o = 0 ∧ pending_operations o = [].

Definition objects_kept (s s' : State) : Prop :=
  ∀ p, is_Some (objects s !! p) → is_Some (objects s' !! p).

(** The loop of [gum_v8_object_manager_free] over the table's entries. *)
Definition delete_each (l : list (positive * positive))
    (m : gmap positive GumV8Object) : gmap positive GumV8Object :=
  foldl (λ m x, delete x.2 m) m l.

(** What the loop over the dependencies leaves behind. *)
Record probed (pins : Z) (self : ptr) (selfop : GumV8ObjectOperation)
    (deps : list ptr) (s s' : State) : Prop := {
  probed_inv : Inv pins None s';
  probed_kept : objects_kept s s';
  probed_counts : ∀ p,
    num_active_operations <$> objects s' !! p
    = num_active_operations <$> objects s !! p;
  probed_not_queued : self ∉ queue_of s' (object selfop);
  probed_next : (next_ptr s ≤ next_ptr s')%positive;
  probed_self :
    operations s' !! self
    = Some (with_pending_dependencies
              (rev (ptr_seq (next_ptr s) (length (List.filter (busy s) deps)))
               ++ pending_dependencies selfop) selfop);
  probed_probes :
    Forall2 (λ dep d, operations s' !! d = Some (probe_operation dep self))
      (List.filter (busy s) deps)
      (ptr_seq (next_ptr s) (length (List.filter (busy s) deps)));
  probed_frame : ∀ q,
    q ≠ self → (q < next_ptr s)%positive → operations s' !! q = operations s !! q
}.

(** [m] keeps [P], whenever it returns. *)
Definition preserves (P : State → Prop) {A} (m : M A) : Prop :=
  ∀ s a s', P s → m s = Ok (a, s') → P s'.

(** Effects that concern no queue. *)
Definition queue_neutral (e : Effect) : bool :=
  match e with
  | EPushTail _ _ | EPopHead _ _ => false
  | _ => true
  end.

Definition keeps_trace {A} (m : M A) : Prop :=
  ∀ s a s', m s = Ok (a, s') → trace s' = trace s.

(** The token of the object at [p] is cancelled, as long as that object
    is in the store. *)
Definition TokenCancelled (p : ptr) (s : State) : Prop :=
  (p < next_ptr s)%positive ∧
  ∀ o, objects s !! p = Some o → cancellable o = true.

Definition ManagerCancelled (s : State) : Prop := manager_cancellable s = true.

(** An operation is settled when its job is started, when it waits for a
    dependency, or when it sits in the queue of its object. *)
Definition settled (s : State) (q : ptr) (op : GumV8ObjectOperation) : Prop :=
  job op = JobStarted ∨ pending_dependencies op ≠ [] ∨
  ∃ o, objects s !! object op = Some o ∧ q ∈ pending_operations o.

(** Every operation in the store is settled, apart from those in [X]: the
    ones that the function being run still has in hand. *)
Definition NoneLost (X : list ptr) (s : State) : Prop :=
  (∀ p, is_Some (objects s !! p) → (p < next_ptr s)%positive) ∧
  ∀ q op, operations s !! q = Some op → q ∈ X ∨ settled s q op.

(** [m], started where [P] holds, ends where [Q] holds, whenever it
    returns. *)
Definition hoare {A} (P : State → Prop) (m : M A) (Q : A → State → Prop) : Prop :=
  ∀ s a s', P s → m s = Ok (a, s') → Q a s'.

(** A queue that is not empty is behind something: the counter of its
    object is not zero, or an operation on the object is started. *)
Definition Served (s : State) : Prop :=
  (∀ q, is_Some (operations s !! q) → (q < next_ptr s)%positive) ∧
  ∀ p o, objects s !! p = Some o → pending_operations o ≠ [] →
    num_active_operations o ≠ 0 ∨
    ∃ q op, operations s !! q = Some op ∧ object op = p ∧ job op = JobStarted.

(** The counter of an object is at most one, and at least the number of
    operations on it that are started. *)
Definition Serial (s : State) : Prop :=
  (∀ q, is_Some (operations s !! q) → (q < next_ptr s)%positive) ∧
  ∀ p o, objects s !! p = Some o →
    Z.of_nat (running (operations s) p) ≤ num_active_operations o ≤ 1.

(** Events that start an operation at once, whatever its object does. *)
Definition is_direct (e : Event) : bool :=
  match e with EvSchedule _ _ => true | _ => false end.

(** Valid schedules of a client that schedules every operation with
    [_gum_v8_object_operation_schedule_when_idle]. *)
Definition serialising (e : Event) (s : State) : bool :=
  valid e s && negb (is_direct e).

(** The operations whose jobs were started, in the order of their start. *)
Definition starts (tr : list Effect) : list ptr :=
  omap (λ e, match e with EJobStart q => Some q | _ => None end) tr.

Definition is_start (e : Effect) : bool :=
  match e with EJobStart _ => true | _ => false end.

(** No job was started twice, and the jobs of the operations in the store
    were started exactly when their records say so. *)
Record StartedOnce (s : State) : Prop := {
  so_nodup : NoDup (starts (trace s));
  so_bound : ∀ q, q ∈ starts (trace s) → (q < next_ptr s)%positive;
  so_created : ∀ q op,
    operations s !! q = Some op → job op = JobCreated → q ∉ starts (trace s);
  so_started : ∀ q op,
    operations s !! q = Some op → job op = JobStarted → q ∈ starts (trace s);
  so_fresh : ∀ q, is_Some (operations s !! q) → (q < next_ptr s)%positive
}.

(** The operation at [q] is in the store and its job is not started. *)
Definition created (s : State) (q : ptr) : Prop :=
  ∃ op, operations s !! q = Some op ∧ job op = JobCreated.

(** [StartedOnce], with the operations in [C] known to be not started:
    the ones that the function being run still has in hand. *)
Definition InHand (C : list ptr) (s : State) : Prop :=
  StartedOnce s ∧ ∀ r, r ∈ C → created s r.

(** Completions of jobs, the events of the job facility. *)
Definition is_complete (e : Event) : bool :=
  match e with EvComplete _ => true | _ => false end.

(** ** Reasoning about computations *)

Lemma bind_Ok {A B} (m : M A) (k : A → M B) s a s' :
  m s = Ok (a, s') → bind m k s = k a s'.
Proof. unfold bind. by intros ->. Qed.

Lemma bind_Abort {A B} (m : M A) (k : A → M B) s f :
  m s = Abort f → bind m k s = Abort f.
Proof. unfold bind. by intros ->. Qed.

Lemma bind_inv {A B} (m : M A) (k : A → M B) s b s2 :
  bind m k s = Ok (b, s2) → ∃ a s1, m s = Ok (a, s1) ∧ k a s1 = Ok (b, s2).
Proof.
  unfold bind. destruct (m s) as [[a s1]|f]; [|done]. intros H. by exists a, s1.
Qed.

Lemma deref_object_Some p o s :
  objects s !! p = Some o → deref_object p s = Ok (o, s).
Proof. unfold deref_object. by intros ->. Qed.

Lemma deref_operation_Some p o s :
  operations s !! p = Some o → deref_operation p s = Ok (o, s).
Proof. unfold deref_operation. by intros ->. Qed.

Lemma hash_table_Some t s :
  object_by_handle s = Some t → hash_table s = Ok (t, s).
Proof. unfold hash_table. by intros ->. Qed.

Lemma State_eq (s1 s2 : State) :
  object_by_handle s1 = object_by_handle s2 →
  manager_cancellable s1 = manager_cancellable s2 →
  objects s1 = objects s2 →
  operations s1 = operations s2 →
  module_operations s1 = module_operations s2 →
  usage_count s1 = usage_count s2 →
  next_ptr s1 = next_ptr s2 →
  trace s1 = trace s2 →
  s1 = s2.
Proof. destruct s1, s2; simpl; congruence. Qed.

(** Unfolds the monad down to matches on the store. *)
Ltac unfold_monad :=
  unfold update_object, update_operation, store_object, store_operation,
    store_module_operation, deref_object, deref_operation,
    deref_module_operation, hash_table, set_hash_table, g_slice_alloc,
    emit, g_assert, modify, get, ret, fail, bind in *.

(** ** The registry *)

(** C8. [gum_v8_object_manager_cancel] answers [TRUE] exactly for a handle
    that is in the registry, and then the only change is that the token of
    that handle's object is cancelled; for a handle that is not there it
    answers [FALSE] and the store is left as it was. *)
Theorem cancel_found_iff_registered s t h :
  object_by_handle s = Some t →
  (∀ obj, t !! h = Some obj → is_Some (objects s !! obj)) →
  ∃ found s',
    gum_v8_object_manager_cancel h s = Ok (found, s') ∧
    (found = true ↔ is_Some (t !! h)) ∧
    (t !! h = None → s' = s) ∧
    (∀ obj o, t !! h = Some obj → objects s !! obj = Some o →
       s' = set_objects (<[obj := with_cancellable true o]> (objects s)) s ∧
       cancellable (with_cancellable true o) = true).
Proof.
  intros Ht Hlive. unfold gum_v8_object_manager_cancel.
  rewrite (bind_Ok _ _ _ _ _ (hash_table_Some _ _ Ht)).
  destruct (t !! h) as [obj|] eqn:Hh.
  - destruct (Hlive obj eq_refl) as [o Ho].
    exists true, (set_objects (<[obj := with_cancellable true o]> (objects s)) s).
    unfold g_cancellable_cancel_object. unfold_monad. rewrite Ho. simpl.
    split; [done|]. split; [by split; eauto|]. split; [done|].
    intros obj' o' [= <-] Ho'. rewrite Ho in Ho'. by injection Ho' as <-.
  - exists false, s. unfold_monad. split; [done|].
    split; [split; [done | by intros [? ?]]|]. split; [done|]. by intros.
Qed.

Lemma cancel_found_iff_registered_witness :
  ∃ found s',
    gum_v8_object_manager_cancel 7 registry_example = Ok (found, s') ∧
    (found = true ↔ is_Some (({[ 7%positive := 1%positive ]} : gmap positive positive) !! 7%positive)) ∧
    (({[ 7%positive := 1%positive ]} : gmap positive positive) !! 7%positive = None → s' = registry_example) ∧
    (∀ obj o, ({[ 7%positive := 1%positive ]} : gmap positive positive) !! 7%positive = Some obj →
       objects registry_example !! obj = Some o →
       s' = set_objects (<[obj := with_cancellable true o]> (objects registry_example)) registry_example ∧
       cancellable (with_cancellable true o) = true).
Proof.
  apply (cancel_found_iff_registered registry_example {[ 7%positive := 1%positive ]} 7%positive).
  - reflexivity.
  - intros obj. rewrite lookup_singleton_eq. intros [= <-]. vm_compute. eauto.
Defined.

Lemma cancel_each_lookup l m p :
  cancel_each l m !! p =
    if decide (p ∈ l.*2) then with_cancellable true <$> m !! p else m !! p.
Proof.
  revert m. induction l as [|[h q] l IH]; intros m.
  - simpl. destruct (decide (p ∈ [])) as [H|H]; [by apply elem_of_nil in H | done].
  - change (cancel_each ((h, q) :: l) m)
      with (cancel_each l (alter (with_cancellable true) q m)).
    rewrite fmap_cons. change ((h, q).2) with q.
    rewrite IH. rewrite lookup_alter.
    destruct (decide (p = q)) as [->|Hne].
    + rewrite (decide_True (P := q = q)) by done.
      rewrite (decide_True (P := q ∈ q :: l.*2)) by apply list_elem_of_here.
      destruct (decide (q ∈ l.*2)); [|done].
      destruct (m !! q) as [[]|]; done.
    + rewrite (decide_False (P := q = p)) by done.
      destruct (decide (p ∈ l.*2)) as [H1|H1];
        destruct (decide (p ∈ q :: l.*2)) as [H2|H2]; try done.
      * exfalso. apply H2. by apply list_elem_of_further.
      * exfalso. apply elem_of_cons in H2 as [?|?]; done.
Qed.

Lemma cancel_object_eq s q o :
  objects s !! q = Some o →
  g_cancellable_cancel_object q s
  = Ok (tt, set_objects (<[q := with_cancellable true o]> (objects s)) s).
Proof.
  intros Ho. unfold g_cancellable_cancel_object. unfold_monad. by rewrite Ho.
Qed.

Lemma for_each_cancel l s :
  (∀ x, x ∈ l → is_Some (objects s !! x.2)) →
  for_each l (λ '(_, obj), g_cancellable_cancel_object obj) s
  = Ok (tt, set_objects (cancel_each l (objects s)) s).
Proof.
  revert s. induction l as [|[h q] l IH]; intros s Hlive; simpl.
  - unfold_monad. f_equal. f_equal. by apply State_eq.
  - destruct (Hlive (h, q)) as [o Ho]; [apply list_elem_of_here|]. simpl in Ho.
    rewrite (bind_Ok _ _ _ _ _ (cancel_object_eq _ _ _ Ho)). rewrite IH.
    + f_equal. f_equal. apply State_eq; simpl; try done.
      f_equal. apply map_eq. intros i. rewrite lookup_alter, lookup_insert.
      destruct (decide (q = i)) as [->|]; [by rewrite Ho | done].
    + intros x Hx. simpl. rewrite lookup_insert.
      destruct (decide (q = x.2)); [eauto|].
      apply Hlive. by apply list_elem_of_further.
Qed.

(** C9. [gum_v8_object_manager_flush] cancels the token of every object
    in the registry and the manager's own token.  Nothing else changes:
    the registry keeps its entries, the store holds the same objects with
    the same handles, counters and queues, and operations, module
    operations, pins and emitted effects are as before (no job is
    started or freed). *)
Theorem flush_cancels_tokens_only s t :
  object_by_handle s = Some t →
  (∀ h obj, t !! h = Some obj → is_Some (objects s !! obj)) →
  ∃ s',
    gum_v8_object_manager_flush s = Ok (tt, s') ∧
    manager_cancellable s' = true ∧
    (∀ h obj o, t !! h = Some obj → objects s !! obj = Some o →
       objects s' !! obj = Some (with_cancellable true o)) ∧
    (∀ p, (∀ h, t !! h ≠ Some p) → objects s' !! p = objects s !! p) ∧
    (∀ p, with_cancellable true <$> objects s' !! p
          = with_cancellable true <$> objects s !! p) ∧
    object_by_handle s' = Some t ∧
    operations s' = operations s ∧
    module_operations s' = module_operations s ∧
    usage_count s' = usage_count s ∧
    next_ptr s' = next_ptr s ∧
    trace s' = trace s.
Proof.
  intros Ht Hlive. unfold gum_v8_object_manager_flush.
  rewrite (bind_Ok _ _ _ _ _ (hash_table_Some _ _ Ht)).
  erewrite bind_Ok; last first.
  { apply for_each_cancel. intros [h q] Hx. simpl.
    apply elem_of_map_to_list in Hx. eauto. }
  eexists. split; [reflexivity|]. simpl.
  assert (Hin : ∀ p, p ∈ (map_to_list t).*2 ↔ ∃ h, t !! h = Some p).
  { intros p. rewrite list_elem_of_fmap. split.
    - intros [[h q] [-> Hx]]. apply elem_of_map_to_list in Hx. eauto.
    - intros [h Hh]. exists (h, p). split; [done|]. by apply elem_of_map_to_list. }
  repeat split; try done.
  - intros h obj o Hh Ho. rewrite cancel_each_lookup, Ho.
    rewrite decide_True; [done|]. apply Hin. eauto.
  - intros p Hp. rewrite cancel_each_lookup.
    rewrite decide_False; [done|]. rewrite Hin. intros [h Hh]. by apply (Hp h).
  - intros p. rewrite cancel_each_lookup. case_decide; [|done].
    by destruct (objects s !! p) as [[]|].
Qed.

Lemma flush_cancels_tokens_only_witness :
  ∃ s',
    gum_v8_object_manager_flush registry_example = Ok (tt, s') ∧
    manager_cancellable s' = true ∧
    objects s' !! 1%positive
      = Some {| handle := 7; cancellable := true;
                num_active_operations := 0; pending_operations := [] |} ∧
    object_by_handle s' = object_by_handle registry_example ∧
    trace s' = trace registry_example.
Proof.
  destruct (flush_cancels_tokens_only registry_example {[ 7%positive := 1%positive ]})
    as (s' & Hrun & Hm & Hobj & _ & _ & Ht & _ & _ & _ & _ & Htr).
  - reflexivity.
  - intros h obj Hh. apply lookup_singleton_Some in Hh as [<- <-]. vm_compute. eauto.
  - exists s'. split; [exact Hrun|]. split; [exact Hm|].
    split; [|split; [exact Ht | exact Htr]].
    apply (Hobj 7%positive 1%positive
             {| handle := 7; cancellable := false;
                num_active_operations := 0; pending_operations := [] |});
      reflexivity.
Defined.

(** C1, as the code has it.  [_gum_v8_object_manager_add] has no check
    for a handle that is already registered.  Registering such a handle
    does not fail: [g_hash_table_insert] puts the new object under the
    handle and hands the object that was there to [gum_v8_object_free].
    When that object is idle it is destroyed and the call returns the new
    object; when it still has active or queued operations the
    destructor's assertion stops the process. *)
Theorem add_replaces_registered s t h old o :
  object_by_handle s = Some t →
  t !! h = Some old →
  objects s !! old = Some o →
  objects s !! next_ptr s = None →
  (num_active_operations o = 0 ∧ pending_operations o = [] →
     _gum_v8_object_manager_add h s
     = Ok (next_ptr s,
           {| object_by_handle := Some (<[h := next_ptr s]> t);
              manager_cancellable := manager_cancellable s;
              objects :=
                delete old
                  (<[next_ptr s := {| handle := h; cancellable := false;
                                      num_active_operations := 0;
                                      pending_operations := [] |}]> (objects s));
              operations := operations s;
              module_operations := module_operations s;
              usage_count := usage_count s;
              next_ptr := Pos.succ (next_ptr s);
              trace := trace s ++ [EHandleUnref (handle o); EObjectFree old] |})) ∧
  (¬ (num_active_operations o = 0 ∧ pending_operations o = []) →
     _gum_v8_object_manager_add h s = Abort AssertionFailed).
Proof.
  intros Ht Hh Ho Hfresh.
  assert (Hne : next_ptr s ≠ old) by (intros E; rewrite E in Hfresh; congruence).
  unfold _gum_v8_object_manager_add, g_slice_alloc, g_hash_table_insert,
    hash_table, set_hash_table, gum_v8_object_free, deref_object.
  unfold_monad. simpl. rewrite Ht, Hh. simpl.
  rewrite lookup_insert_ne by done. rewrite Ho.
  split.
  - intros [Hn Hq]. rewrite Hn, Hq. simpl.
    f_equal. f_equal. apply State_eq; simpl; try done.
    by rewrite <- app_assoc.
  - intros Hbusy. destruct (bool_decide (num_active_operations o = 0)) eqn:Hn.
    + apply bool_decide_eq_true in Hn.
      destruct (pending_operations o) eqn:Hq; [|done]. by destruct Hbusy.
    + done.
Qed.

Lemma add_replaces_registered_witness :
  ∃ s', _gum_v8_object_manager_add 7 registry_example = Ok (2%positive, s') ∧
        object_by_handle s' = Some (<[7%positive := 2%positive]> {[ 7%positive := 1%positive ]}) ∧
        objects s' !! 1%positive = None.
Proof.
  destruct (add_replaces_registered registry_example {[ 7%positive := 1%positive ]}
              7%positive 1%positive
              {| handle := 7; cancellable := false;
                 num_active_operations := 0; pending_operations := [] |})
    as [Hidle _]; try reflexivity.
  eexists. split; [apply Hidle; split; reflexivity|].
  split; [reflexivity|]. apply lookup_delete_eq.
Defined.

(** C1 as stated does not hold.  Handle 7 is registered with
    object 1; registering 7 again succeeds, the registry then maps 7 to
    the new object 2, and object 1 has been destroyed. *)
Lemma duplicate_registration_counterexample :
  object_by_handle registry_example = Some {[ 7%positive := 1%positive ]} ∧
  ∃ s', _gum_v8_object_manager_add 7 registry_example = Ok (2%positive, s') ∧
        object_by_handle s' = Some {[ 7%positive := 2%positive ]} ∧
        object_by_handle s' ≠ object_by_handle registry_example ∧
        objects s' !! 1%positive = None ∧
        trace s' = [EHandleUnref 7; EObjectFree 1].
Proof.
  split; [reflexivity|]. eexists. split; [vm_compute; reflexivity|].
  split; [vm_compute; reflexivity|]. split; [|split; vm_compute; reflexivity].
  intros H. vm_compute in H. discriminate H.
Qed.

(** ** Scheduling one operation *)

Lemma schedule_eq s self o obj :
  operations s !! self = Some o →
  objects s !! object o = Some obj →
  _gum_v8_object_operation_schedule self s
  = Ok (tt,
        {| object_by_handle := object_by_handle s;
           manager_cancellable := manager_cancellable s;
           objects :=
             <[object o := with_num_active_operations
                             (guint_wrap (num_active_operations obj + 1)) obj]>
               (objects s);
           operations := <[self := with_job JobStarted o]> (operations s);
           module_operations := module_operations s;
           usage_count := usage_count s;
           next_ptr := next_ptr s;
           trace := trace s ++ [EIncrement (object o); EJobStart self] |}).
Proof.
  intros Ho Hobj.
  unfold _gum_v8_object_operation_schedule, gum_script_job_start_on_js_thread,
    deref_operation, deref_object.
  unfold_monad. simpl. rewrite Ho. simpl. rewrite Hobj. simpl. rewrite Ho.
  f_equal. f_equal. apply State_eq; simpl; try done. by rewrite <- app_assoc.
Qed.

Lemma push_tail_eq s p obj op :
  objects s !! p = Some obj →
  g_queue_push_tail p op s
  = Ok (tt,
        {| object_by_handle := object_by_handle s;
           manager_cancellable := manager_cancellable s;
           objects :=
             <[p := with_pending_operations (pending_operations obj ++ [op]) obj]>
               (objects s);
           operations := operations s;
           module_operations := module_operations s;
           usage_count := usage_count s;
           next_ptr := next_ptr s;
           trace := trace s ++ [EPushTail p op] |}).
Proof.
  intros Hobj. unfold g_queue_push_tail, deref_object. unfold_monad.
  by rewrite Hobj.
Qed.

(** C4. [gum_v8_object_operation_try_schedule_when_idle] does nothing
    while the operation still has pending dependencies.  Without any, an
    operation whose object has no active operation is scheduled at once
    (the counter goes from 0 to 1 and the job is started), and otherwise
    it is appended at the tail of the object's queue of pending
    operations. *)
Theorem try_schedule_when_idle_cases s self o :
  operations s !! self = Some o →
  (pending_dependencies o ≠ [] →
     gum_v8_object_operation_try_schedule_when_idle self s = Ok (tt, s)) ∧
  (∀ obj,
     pending_dependencies o = [] →
     objects s !! object o = Some obj →
     (num_active_operations obj = 0 →
        ∃ s',
          gum_v8_object_operation_try_schedule_when_idle self s = Ok (tt, s') ∧
          _gum_v8_object_operation_schedule self s = Ok (tt, s') ∧
          objects s' = <[object o := with_num_active_operations 1 obj]> (objects s) ∧
          operations s' = <[self := with_job JobStarted o]> (operations s) ∧
          trace s' = trace s ++ [EIncrement (object o); EJobStart self]) ∧
     (num_active_operations obj ≠ 0 →
        ∃ s',
          gum_v8_object_operation_try_schedule_when_idle self s = Ok (tt, s') ∧
          objects s' =
            <[object o := with_pending_operations
                            (pending_operations obj ++ [self]) obj]> (objects s) ∧
          operations s' = operations s ∧
          trace s' = trace s ++ [EPushTail (object o) self])).
Proof.
  intros Ho. split.
  - intros Hdeps. unfold gum_v8_object_operation_try_schedule_when_idle.
    rewrite (bind_Ok _ _ _ _ _ (deref_operation_Some _ _ _ Ho)).
    by destruct (pending_dependencies o).
  - intros obj Hdeps Hobj.
    unfold gum_v8_object_operation_try_schedule_when_idle.
    rewrite (bind_Ok _ _ _ _ _ (deref_operation_Some _ _ _ Ho)), Hdeps.
    rewrite (bind_Ok _ _ _ _ _ (deref_object_Some _ _ _ Hobj)).
    split; intros Hn.
    + rewrite bool_decide_eq_true_2 by done.
      rewrite (schedule_eq _ _ _ _ Ho Hobj). eexists.
      split; [reflexivity|]. split; [reflexivity|]. simpl.
      rewrite Hn. by repeat split.
    + rewrite bool_decide_eq_false_2 by done.
      rewrite (push_tail_eq _ _ _ _ Hobj). eexists.
      split; [reflexivity|]. by repeat split.
Qed.

Lemma try_schedule_when_idle_cases_witness :
  ∃ s',
    gum_v8_object_operation_try_schedule_when_idle 4 busy_example = Ok (tt, s') ∧
    trace s' = [EPushTail 1 4].
Proof.
  destruct (try_schedule_when_idle_cases busy_example 4%positive
              {| object := 1; job := JobCreated;
                 pending_dependencies := []; cleanup := false;
                 blocked_operation := None |}) as [_ H]; [reflexivity|].
  destruct (H {| handle := 7; cancellable := false;
                 num_active_operations := 1;
                 pending_operations := [3%positive] |}) as [_ Hq];
    [reflexivity | reflexivity |].
  destruct Hq as (s' & Hrun & _ & _ & Htr); [simpl; lia|].
  exists s'. split; [exact Hrun | exact Htr].
Defined.

(** ** Completion of an operation *)

Lemma operation_free_no_pop s op o obj :
  operations s !! op = Some o →
  objects s !! object o = Some obj →
  pending_dependencies o = [] →
  guint_wrap (num_active_operations obj - 1) ≠ 0 ∨ pending_operations obj = [] →
  gum_v8_object_operation_free op s
  = Ok (tt,
        {| object_by_handle := object_by_handle s;
           manager_cancellable := manager_cancellable s;
           objects :=
             <[object o := with_num_active_operations
                             (guint_wrap (num_active_operations obj - 1)) obj]>
               (objects s);
           operations := delete op (operations s);
           module_operations := module_operations s;
           usage_count := usage_count s - 1;
           next_ptr := next_ptr s;
           trace := trace s ++ completion_prefix op o ++ [EUnpin; ESliceFree op] |}).
Proof.
  intros Ho Hobj Hdeps Hcase.
  unfold gum_v8_object_operation_free, decrement_num_active_operations,
    g_queue_pop_head, _gum_v8_core_unpin, completion_prefix.
  unfold_monad. rewrite Ho, Hobj, Hdeps. simpl.
  destruct (cleanup o); simpl; rewrite Hobj; simpl.
  all: destruct (bool_decide (guint_wrap (num_active_operations obj - 1) = 0)) eqn:Hn;
    simpl.
  all: try (apply bool_decide_eq_true in Hn; destruct Hcase as [?|Hq]; [done|];
            rewrite lookup_insert_eq; simpl; rewrite Hq; simpl).
  all: f_equal; f_equal; apply State_eq; simpl; try done.
  all: try (rewrite insert_insert_eq; f_equal; rewrite <- Hq; by destruct obj).
  all: by rewrite <- ?app_assoc.
Qed.

Lemma operation_free_pop s op o obj next rest nop :
  operations s !! op = Some o →
  objects s !! object o = Some obj →
  pending_dependencies o = [] →
  guint_wrap (num_active_operations obj - 1) = 0 →
  pending_operations obj = next :: rest →
  operations s !! next = Some nop →
  object nop = object o →
  gum_v8_object_operation_free op s
  = Ok (tt,
        {| object_by_handle := object_by_handle s;
           manager_cancellable := manager_cancellable s;
           objects :=
             <[object o := with_num_active_operations 1
                             (with_pending_operations rest obj)]> (objects s);
           operations := delete op (<[next := with_job JobStarted nop]> (operations s));
           module_operations := module_operations s;
           usage_count := usage_count s - 1;
           next_ptr := next_ptr s;
           trace := trace s ++ completion_prefix op o ++
                    [EPopHead (object o) next; EIncrement (object o); EJobStart next] ++
                    [EUnpin; ESliceFree op] |}).
Proof.
  intros Ho Hobj Hdeps Hn Hq Hnext Hown.
  unfold gum_v8_object_operation_free, decrement_num_active_operations,
    g_queue_pop_head, _gum_v8_core_unpin, completion_prefix.
  unfold_monad. rewrite Ho, Hobj, Hdeps. simpl.
  destruct (cleanup o); simpl; rewrite Hobj; simpl.
  all: rewrite Hn; simpl; rewrite lookup_insert_eq; simpl; rewrite Hq; simpl.
  all: unfold _gum_v8_object_operation_schedule, gum_script_job_start_on_js_thread.
  all: unfold_monad; simpl; rewrite Hnext; simpl; rewrite Hown.
  all: rewrite lookup_insert_eq; simpl; rewrite Hnext.
  all: f_equal; f_equal; apply State_eq; simpl; try done.
  all: try (by rewrite !insert_insert_eq).
  all: by rewrite <- ?app_assoc.
Qed.

(** C5. On completion, [gum_v8_object_operation_free] runs the cleanup
    (when one is registered), releases the two persistent references,
    decrements the owner's counter and, when the counter reached zero,
    pops the head of the owner's queue (if there is one) and schedules it
    at once; only then is the pin on the runtime released, and last the
    storage of the operation itself is returned. *)
Theorem operation_free_order s op o obj :
  operations s !! op = Some o →
  objects s !! object o = Some obj →
  pending_dependencies o = [] →
  (∀ next, head (pending_operations obj) = Some next →
     next ≠ op ∧ ∃ nop, operations s !! next = Some nop ∧ object nop = object o) →
  ∃ s' started,
    gum_v8_object_operation_free op s = Ok (tt, s') ∧
    started = (if bool_decide (guint_wrap (num_active_operations obj - 1) = 0)
               then head (pending_operations obj) else None) ∧
    trace s' =
      trace s ++
      (if cleanup o then [ECleanup op] else []) ++
      [EDeleteWrapper op; EDeleteCallback op; EDecrement (object o)] ++
      match started with
      | Some next => [EPopHead (object o) next; EIncrement (object o); EJobStart next]
      | None => []
      end ++
      [EUnpin; ESliceFree op] ∧
    (∃ obj', objects s' !! object o = Some obj' ∧
       num_active_operations obj' =
         match started with
         | Some _ => 1
         | None => guint_wrap (num_active_operations obj - 1)
         end ∧
       pending_operations obj' =
         match started with
         | Some _ => tail (pending_operations obj)
         | None => pending_operations obj
         end) ∧
    (∀ next, started = Some next → job <$> operations s' !! next = Some JobStarted) ∧
    operations s' !! op = None ∧
    usage_count s' = usage_count s - 1.
Proof.
  intros Ho Hobj Hdeps Hhead.
  destruct (bool_decide (guint_wrap (num_active_operations obj - 1) = 0)) eqn:Hn;
    [apply bool_decide_eq_true in Hn | apply bool_decide_eq_false in Hn].
  - destruct (pending_operations obj) as [|next rest] eqn:Hq.
    + eexists _, None.
      split; [apply (operation_free_no_pop _ _ _ _ Ho Hobj Hdeps); by right|].
      simpl. rewrite lookup_insert_eq, lookup_delete_eq. unfold completion_prefix.
      repeat split; try done.
      * by rewrite <- !app_assoc.
      * eexists. split; [done|]. simpl. by rewrite Hq.
    + destruct (Hhead next eq_refl) as (Hne & nop & Hnext & Hown).
      eexists _, (Some next).
      split; [eapply operation_free_pop; eauto|].
      simpl. rewrite lookup_insert_eq, lookup_delete_eq. unfold completion_prefix.
      repeat split; try done.
      * by rewrite <- !app_assoc.
      * eexists. split; [done|]. by simpl.
      * intros ? [= <-]. rewrite lookup_delete_ne by done.
        by rewrite lookup_insert_eq.
  - eexists _, None.
    split; [apply (operation_free_no_pop _ _ _ _ Ho Hobj Hdeps); by left|].
    simpl. rewrite lookup_insert_eq, lookup_delete_eq. unfold completion_prefix.
    repeat split; try done.
    + by rewrite <- !app_assoc.
    + eexists. split; [done|]. by simpl.
Qed.

Lemma operation_free_order_witness :
  ∃ s',
    gum_v8_object_operation_free 2 busy_example = Ok (tt, s') ∧
    trace s' = [ECleanup 2; EDeleteWrapper 2; EDeleteCallback 2; EDecrement 1;
                EPopHead 1 3; EIncrement 1; EJobStart 3; EUnpin; ESliceFree 2].
Proof.
  destruct (operation_free_order busy_example 2%positive
              {| object := 1; job := JobStarted;
                 pending_dependencies := []; cleanup := true;
                 blocked_operation := None |}
              {| handle := 7; cancellable := false;
                 num_active_operations := 1;
                 pending_operations := [3%positive] |})
    as (s' & started & Hrun & Hst & Htr & _); try reflexivity.
  - intros next [= <-]. split; [discriminate|]. eexists. split; reflexivity.
  - exists s'. split; [exact Hrun|]. rewrite Htr, Hst. reflexivity.
Defined.

(** ** Counting the active operations of an object *)

Lemma running_delete ops q op p :
  ops !! q = Some op →
  running ops p
  = (running (delete q ops) p + (if is_running p op then 1 else 0))%nat.
Proof.
  intros Hq. unfold running. destruct (is_running p op) eqn:Hr.
  - rewrite map_filter_delete.
    assert (Hf : filter (λ kv, is_running p kv.2 = true) ops !! q = Some op)
      by (by apply map_lookup_filter_Some).
    rewrite <- (insert_delete_id _ _ _ Hf) at 1.
    rewrite map_size_insert_None by apply lookup_delete_eq. lia.
  - rewrite map_filter_delete_not; [lia|].
    intros y Hy. rewrite Hq in Hy. injection Hy as <-. simpl. by rewrite Hr.
Qed.

Lemma running_insert ops q op p :
  running (<[q := op]> ops) p
  = (running (delete q ops) p + (if is_running p op then 1 else 0))%nat.
Proof.
  unfold running. rewrite <- (insert_delete_eq ops).
  destruct (is_running p op) eqn:Hr.
  - rewrite map_filter_insert_True by done.
    rewrite map_size_insert_None; [lia|].
    apply map_lookup_filter_None. left. apply lookup_delete_eq.
  - rewrite map_filter_insert_not'; [lia | simpl; by rewrite Hr |].
    intros y. by rewrite lookup_delete_eq.
Qed.

Lemma running_insert_fresh ops q op p :
  ops !! q = None →
  running (<[q := op]> ops) p
  = (running ops p + (if is_running p op then 1 else 0))%nat.
Proof. intros Hq. by rewrite running_insert, delete_id. Qed.

Lemma running_insert_same ops q old new p :
  ops !! q = Some old →
  is_running p new = is_running p old →
  running (<[q := new]> ops) p = running ops p.
Proof.
  intros Hq Heq. by rewrite running_insert, (running_delete ops q old p Hq), Heq.
Qed.

Lemma guint_wrap_succ n : guint_wrap (guint_wrap n + 1) = guint_wrap (n + 1).
Proof. unfold guint_wrap, guint_modulus. by rewrite Zplus_mod_idemp_l. Qed.

Lemma guint_wrap_pred n : guint_wrap (guint_wrap n - 1) = guint_wrap (n - 1).
Proof. unfold guint_wrap, guint_modulus. by rewrite Zminus_mod_idemp_l. Qed.

(** ** The invariant is kept by every change to the store *)

Lemma Inv_set_trace pins x s tr :
  Inv pins x s → Inv pins x (set_trace tr s).
Proof. intros []. by constructor. Qed.

Ltac split_lookup H :=
  match type of H with
  | <[_ := _]> _ !! _ = Some _ =>
      apply lookup_insert_Some in H as [[<- <-]|[? H]]
  | delete _ _ !! _ = Some _ =>
      apply lookup_delete_Some in H as [? H]
  end.

Lemma fresh_not_live {A} (m : gmap positive A) (n : positive) :
  (∀ p, is_Some (m !! p) → (p < n)%positive) → m !! n = None.
Proof.
  intros H. destruct (m !! n) eqn:E; [|done].
  assert (n < n)%positive by (apply H; eauto). lia.
Qed.

Lemma Inv_after_new pins x s obj c :
  Inv pins x s →
  is_Some (objects s !! obj) →
  Inv pins x (after_new obj c s).
Proof.
  intros [] Hobj.
  pose proof (fresh_not_live _ _ inv_fresh_op0) as Hfresh.
  assert (Hold : ∀ q op, operations s !! q = Some op → q ≠ next_ptr s)
    by (intros q op Hq ->; congruence).
  constructor; unfold after_new; simpl; try done.
  - intros q op Hq. split_lookup Hq; [done | eauto].
  - intros p o Hp. rewrite running_insert_fresh by done.
    unfold is_running; simpl. rewrite andb_false_r, Nat.add_0_r. eauto.
  - intros p o q Hp Hin. destruct (inv_queue0 p o q Hp Hin) as (op & Hq & ?).
    exists op. split; [|done]. rewrite lookup_insert_ne; [done|]. intros <-. congruence.
  - intros q op d Hq Hin. split_lookup Hq; [by apply elem_of_nil in Hin|].
    destruct (inv_deps0 q op d Hq Hin) as (pr & Hd & ?).
    exists pr. split; [|done]. rewrite lookup_insert_ne; [done|]. intros <-. congruence.
  - intros q op Hq. split_lookup Hq; [apply NoDup_nil_2 | eauto].
  - intros q op Hq. split_lookup Hq; [done | eauto].
  - intros d pr q Hd Hb. split_lookup Hd; [done|].
    destruct (inv_probe0 d pr q Hd Hb) as [? Hl]. split; [done|].
    intros Hx. destruct (Hl Hx) as (op & Hq & ?). exists op. split; [|done].
    rewrite lookup_insert_ne; [done|]. intros <-. congruence.
  - intros d q op -> Hq. split_lookup Hq; [apply not_elem_of_nil | eauto].
  - rewrite map_size_insert_None by done. lia.
  - intros p Hp. specialize (inv_fresh_obj0 p Hp). lia.
  - intros p Hp. apply lookup_insert_is_Some in Hp as [<-|[_ Hp]]; [lia|].
    specialize (inv_fresh_op0 p Hp). lia.
  - intros p Hp. specialize (inv_fresh_mop0 p Hp). lia.
  - intros Ht. destruct Hobj as [o Ho].
    destruct (inv_obj_table0 _ _ Ho) as (t & Ht' & _). congruence.
Qed.

Lemma is_Some_insert_live {A} (m : gmap positive A) i x j :
  is_Some (m !! i) → is_Some (<[i := x]> m !! j) ↔ is_Some (m !! j).
Proof.
  intros Hi. rewrite lookup_insert_is_Some.
  split; [intros [<-|[_ ?]]; done|]. intros Hj.
  destruct (decide (i = j)); [by left | by right].
Qed.

Lemma is_running_created p op : job op = JobCreated → is_running p op = false.
Proof. unfold is_running. intros ->. by rewrite andb_false_r. Qed.

Lemma is_running_other p op : object op ≠ p → is_running p op = false.
Proof. unfold is_running. intros H. by rewrite bool_decide_eq_false_2. Qed.

Lemma Inv_after_start pins x s q op o :
  Inv pins x s →
  operations s !! q = Some op →
  objects s !! object op = Some o →
  job op = JobCreated →
  pending_dependencies op = [] →
  q ∉ pending_operations o →
  Inv pins x (after_start q op o s).
Proof.
  intros [] Hq Ho Hjob Hdeps Hnq.
  constructor; unfold after_start; simpl; try done.
  - intros t h p Ht Hh. destruct (inv_table_obj0 t h p Ht Hh) as (o0 & Hp & Hhd).
    destruct (decide (p = object op)) as [->|Hne].
    + rewrite lookup_insert_eq. eexists. split; [done|]. simpl. congruence.
    + rewrite lookup_insert_ne by done. eauto.
  - intros p o1 Hp. split_lookup Hp; simpl; eauto.
  - intros q0 op0 Hq0. rewrite is_Some_insert_live by eauto.
    split_lookup Hq0; simpl; eauto.
  - intros p o1 Hp. split_lookup Hp; simpl.
    + rewrite (inv_count0 _ _ Ho), guint_wrap_succ.
      rewrite running_insert, (running_delete _ _ _ (object op) Hq).
      rewrite (is_running_created _ _ Hjob).
      unfold is_running; simpl. rewrite bool_decide_eq_true_2 by done. simpl.
      f_equal. lia.
    + rewrite (running_insert_same _ _ op); [eauto | done |].
      rewrite !is_running_other; done.
  - intros p o1 q' Hp Hin.
    assert (∃ o0, objects s !! p = Some o0 ∧ pending_operations o0 = pending_operations o1)
      as (o0 & Hp0 & Hpq) by (split_lookup Hp; simpl; eauto).
    rewrite <- Hpq in Hin.
    destruct (inv_queue0 p o0 q' Hp0 Hin) as (op' & Hq' & Hown & ? & ?).
    exists op'. split; [|done]. rewrite lookup_insert_ne; [done|].
    intros <-. rewrite Hq in Hq'. injection Hq' as <-. subst p.
    rewrite Ho in Hp0. injection Hp0 as <-. done.
  - intros p o1 Hp. split_lookup Hp; simpl; eauto.
  - intros q0 op0 d Hq0 Hin.
    assert (∃ op1, operations s !! q0 = Some op1 ∧
                   pending_dependencies op1 = pending_dependencies op0)
      as (op1 & Hq1 & Hpd) by (split_lookup Hq0; simpl; eauto).
    rewrite <- Hpd in Hin.
    destruct (inv_deps0 q0 op1 d Hq1 Hin) as (pr & Hd & Hb).
    destruct (decide (d = q)) as [->|Hne].
    + rewrite lookup_insert_eq. eexists. split; [done|]. simpl. congruence.
    + rewrite lookup_insert_ne by done. eauto.
  - intros q0 op0 Hq0. split_lookup Hq0; simpl; eauto.
  - intros q0 op0 Hq0 Hne. split_lookup Hq0; simpl in *; [congruence | eauto].
  - intros d pr q0 Hd Hb.
    assert (∃ pr1, operations s !! d = Some pr1 ∧
                   blocked_operation pr1 = Some q0 ∧
                   pending_dependencies pr1 = pending_dependencies pr)
      as (pr1 & Hd1 & Hb1 & Hpd) by (split_lookup Hd; simpl in *; eauto).
    destruct (inv_probe0 d pr1 q0 Hd1 Hb1) as [Hnil Hl]. split; [congruence|].
    intros Hx. destruct (Hl Hx) as (op0 & Hq0 & Hin).
    assert (q0 ≠ q).
    { intros ->. rewrite Hq in Hq0. injection Hq0 as <-.
      rewrite Hdeps in Hin. by apply elem_of_nil in Hin. }
    exists op0. by rewrite lookup_insert_ne.
  - intros d q0 op0 -> Hq0. split_lookup Hq0; simpl; eauto.
  - rewrite map_size_insert_Some by eauto. done.
  - intros p Hp. apply is_Some_insert_live in Hp; eauto.
  - intros p Hp. apply is_Some_insert_live in Hp; eauto.
  - intros Ht. destruct (inv_manager0 Ht) as [He _]. rewrite He in Hq. done.
Qed.

(** A change to one object that keeps its handle and counter. *)
Lemma Inv_update_object pins x s p o o' :
  Inv pins x s →
  objects s !! p = Some o →
  handle o' = handle o →
  num_active_operations o' = num_active_operations o →
  NoDup (pending_operations o') →
  (∀ q, q ∈ pending_operations o' →
     ∃ op, operations s !! q = Some op ∧ object op = p ∧
           job op = JobCreated ∧ pending_dependencies op = []) →
  Inv pins x (set_objects (<[p := o']> (objects s)) s).
Proof.
  intros [] Hp Hh Hn Hnd Hq.
  constructor; simpl; try done.
  - intros t h p0 Ht Hh0. destruct (inv_table_obj0 t h p0 Ht Hh0) as (o0 & Hp0 & Hhd).
    destruct (decide (p0 = p)) as [->|Hne].
    + rewrite lookup_insert_eq. eexists. split; [done|]. congruence.
    + rewrite lookup_insert_ne by done. eauto.
  - intros p0 o0 Hp0. split_lookup Hp0; [rewrite Hh|]; eauto.
  - intros q0 op0 Hq0. rewrite is_Some_insert_live by eauto. eauto.
  - intros p0 o0 Hp0. split_lookup Hp0; [rewrite Hn|]; eauto.
  - intros p0 o0 q0 Hp0 Hin. split_lookup Hp0; eauto.
  - intros p0 o0 Hp0. split_lookup Hp0; eauto.
  - intros p0 Hp0. apply is_Some_insert_live in Hp0; eauto.
Qed.

Lemma Inv_after_enqueue pins x s q op o :
  Inv pins x s →
  operations s !! q = Some op →
  objects s !! object op = Some o →
  job op = JobCreated →
  pending_dependencies op = [] →
  q ∉ pending_operations o →
  Inv pins x (after_enqueue q op o s).
Proof.
  intros HI Hq Ho Hjob Hdeps Hnq. unfold after_enqueue.
  apply (Inv_update_object _ _ _ _ o); simpl; try done.
  - apply NoDup_app. split; [by eapply inv_queue_nodup|].
    split; [|apply NoDup_singleton].
    intros y Hy Hy'. apply list_elem_of_singleton in Hy' as ->. done.
  - intros q0 Hin. apply elem_of_app in Hin as [Hin|Hin].
    + by eapply inv_queue.
    + apply list_elem_of_singleton in Hin as ->. eauto.
Qed.

Lemma Inv_after_dequeue pins x s p o :
  Inv pins x s →
  objects s !! p = Some o →
  Inv pins x (after_dequeue p o s).
Proof.
  intros HI Hp. unfold after_dequeue.
  assert (Hsub : ∀ q, q ∈ tail (pending_operations o) → q ∈ pending_operations o).
  { intros q. destruct (pending_operations o); simpl; [done|]. apply list_elem_of_further. }
  apply (Inv_update_object _ _ _ _ o); simpl; try done.
  - pose proof (inv_queue_nodup _ _ _ HI _ _ Hp) as Hnd.
    destruct (pending_operations o); simpl; [done|]. by apply NoDup_cons in Hnd as [_ ?].
  - intros q Hin. eapply inv_queue; eauto.
Qed.

Lemma Inv_after_cancel pins x s p o :
  Inv pins x s →
  objects s !! p = Some o →
  Inv pins x (set_objects (<[p := with_cancellable true o]> (objects s)) s).
Proof.
  intros HI Hp. apply (Inv_update_object _ _ _ _ o); simpl; try done.
  - by eapply inv_queue_nodup.
  - intros q Hin. by eapply inv_queue.
Qed.

Lemma Inv_after_link pins x s b bop d dop :
  Inv pins x s →
  operations s !! b = Some bop →
  operations s !! d = Some dop →
  b ≠ d →
  job bop = JobCreated →
  b ∉ queue_of s (object bop) →
  blocked_operation bop = None →
  blocked_operation dop = None →
  pending_dependencies dop = [] →
  (∀ q op, operations s !! q = Some op → d ∉ pending_dependencies op) →
  x ≠ Some d →
  Inv pins x (after_link b bop d dop s).
Proof.
  intros [] Hb Hd Hne Hbjob Hbq Hbb Hdb Hdd Hdu Hx.
  assert (Hd1 : <[d := with_blocked_operation (Some b) dop]> (operations s) !! b
                = Some bop) by (by rewrite lookup_insert_ne).
  constructor; unfold after_link; simpl; try done.
  - intros q op Hq. split_lookup Hq; [|split_lookup Hq]; simpl; eauto.
  - intros p o Hp.
    rewrite (running_insert_same _ _ bop) by done.
    rewrite (running_insert_same _ _ dop) by done. eauto.
  - intros p o q Hp Hin.
    destruct (inv_queue0 p o q Hp Hin) as (op & Hq & Hown & Hj & Hpd).
    destruct (decide (q = b)) as [->|Hqb].
    { exfalso. rewrite Hb in Hq. injection Hq as <-. subst p.
      apply Hbq. unfold queue_of. by rewrite Hp. }
    rewrite lookup_insert_ne by done.
    destruct (decide (q = d)) as [->|Hqd].
    + rewrite lookup_insert_eq. rewrite Hd in Hq. injection Hq as <-.
      eexists. split; [done|]. done.
    + rewrite lookup_insert_ne by done. eauto.
  - intros q op d' Hq Hin.
    assert (Hold : ∀ q0 op0, operations s !! q0 = Some op0 →
                    d' ∈ pending_dependencies op0 →
                    ∃ pr, <[b := with_pending_dependencies
                                   (d :: pending_dependencies bop) bop]>
                            (<[d := with_blocked_operation (Some b) dop]>
                               (operations s)) !! d' = Some pr ∧
                          blocked_operation pr = Some q0).
    { intros q0 op0 Hq0 Hin0.
      destruct (inv_deps0 q0 op0 d' Hq0 Hin0) as (pr & Hpr & Hbl).
      exists pr. split; [|done].
      rewrite lookup_insert_ne
        by (intros <-; rewrite Hb in Hpr; injection Hpr as <-; congruence).
      rewrite lookup_insert_ne; [done|]. intros <-. exact (Hdu _ _ Hq0 Hin0). }
    split_lookup Hq; [|split_lookup Hq]; simpl in *.
    + apply elem_of_cons in Hin as [->|Hin]; [|eauto].
      rewrite lookup_insert_ne by done. rewrite lookup_insert_eq.
      eexists. split; [done|]. done.
    + rewrite Hdd in Hin. by apply elem_of_nil in Hin.
    + eauto.
  - intros q op Hq. split_lookup Hq; [|split_lookup Hq]; simpl; eauto.
    apply NoDup_cons. split; eauto.
  - intros q op Hq Hnn. split_lookup Hq; [|split_lookup Hq]; simpl in *; eauto.
  - intros d0 pr q0 Hd0 Hbl.
    split_lookup Hd0; [|split_lookup Hd0]; simpl in *.
    + congruence.
    + injection Hbl as <-. split; [done|]. intros _.
      rewrite lookup_insert_eq. eexists. split; [done|]. simpl. apply list_elem_of_here.
    + destruct (inv_probe0 d0 pr q0 Hd0 Hbl) as [Hnil Hl]. split; [done|].
      intros Hx0. destruct (Hl Hx0) as (op0 & Hq0 & Hin).
      destruct (decide (q0 = b)) as [->|Hqb].
      * rewrite lookup_insert_eq. rewrite Hb in Hq0. injection Hq0 as <-.
        eexists. split; [done|]. simpl. by apply list_elem_of_further.
      * rewrite lookup_insert_ne by done.
        rewrite lookup_insert_ne; [eauto|]. intros <-.
        rewrite Hd in Hq0. injection Hq0 as <-. rewrite Hdd in Hin.
        by apply elem_of_nil in Hin.
  - intros dx q op -> Hq. split_lookup Hq; [|split_lookup Hq]; simpl; eauto.
    apply not_elem_of_cons. split; [congruence | eauto].
  - rewrite map_size_insert_Some by eauto.
    rewrite map_size_insert_Some by eauto. done.
  - intros p Hp. apply is_Some_insert_live in Hp; [|eauto].
    apply is_Some_insert_live in Hp; eauto.
  - intros Ht. destruct (inv_manager0 Ht) as [He _]. rewrite He in Hb. done.
Qed.

Lemma g_slist_remove_subset l x y : y ∈ g_slist_remove l x → y ∈ l.
Proof.
  induction l as [|z l IH]; simpl; [done|].
  destruct (decide (z = x)).
  - apply list_elem_of_further.
  - intros H. apply elem_of_cons in H as [->|H].
    + apply list_elem_of_here.
    + apply list_elem_of_further. auto.
Qed.

Lemma g_slist_remove_other l x y : y ∈ l → y ≠ x → y ∈ g_slist_remove l x.
Proof.
  induction l as [|z l IH]; simpl; [done|].
  intros H Hne. destruct (decide (z = x)) as [->|].
  - apply elem_of_cons in H as [->|H]; done.
  - apply elem_of_cons in H as [->|H].
    + apply list_elem_of_here.
    + apply list_elem_of_further. auto.
Qed.

Lemma g_slist_remove_NoDup l x : NoDup l → NoDup (g_slist_remove l x).
Proof.
  induction l as [|z l IH]; simpl; [done|].
  intros H. apply NoDup_cons in H as [Hz Hl].
  destruct (decide (z = x)); [done|].
  apply NoDup_cons. split; [|auto].
  intros Hin. apply Hz. by eapply g_slist_remove_subset.
Qed.

Lemma g_slist_remove_gone l x : NoDup l → x ∉ g_slist_remove l x.
Proof.
  induction l as [|z l IH]; simpl; [intros _; apply not_elem_of_nil|].
  intros H. apply NoDup_cons in H as [Hz Hl].
  destruct (decide (z = x)) as [->|Hne]; [done|].
  apply not_elem_of_cons. split; [congruence | auto].
Qed.

Lemma Inv_after_unlink pins s b bop d dop :
  Inv pins None s →
  operations s !! b = Some bop →
  operations s !! d = Some dop →
  blocked_operation dop = Some b →
  Inv pins (Some d) (after_unlink b bop d s).
Proof.
  intros [] Hb Hd Hdb.
  constructor; unfold after_unlink; simpl; try done.
  - intros q op Hq. split_lookup Hq; simpl; eauto.
  - intros p o Hp. rewrite (running_insert_same _ _ bop) by done. eauto.
  - intros p o q Hp Hin.
    destruct (inv_queue0 p o q Hp Hin) as (op & Hq & Hown & Hj & Hpd).
    destruct (decide (q = b)) as [->|Hqb].
    + rewrite lookup_insert_eq. rewrite Hb in Hq. injection Hq as <-.
      eexists. split; [done|]. simpl. rewrite Hpd. done.
    + rewrite lookup_insert_ne by done. eauto.
  - intros q op d' Hq Hin.
    assert (∃ op1, operations s !! q = Some op1 ∧ d' ∈ pending_dependencies op1)
      as (op1 & Hq1 & Hin1).
    { split_lookup Hq; simpl in *; eauto using g_slist_remove_subset. }
    destruct (inv_deps0 q op1 d' Hq1 Hin1) as (pr & Hpr & Hbl).
    destruct (decide (d' = b)) as [->|Hne].
    + rewrite lookup_insert_eq. rewrite Hb in Hpr. injection Hpr as <-.
      eexists. split; [done|]. done.
    + rewrite lookup_insert_ne by done. eauto.
  - intros q op Hq. split_lookup Hq; simpl; eauto using g_slist_remove_NoDup.
  - intros q op Hq Hnn. split_lookup Hq; simpl in *; eauto.
    apply (inv_blocked0 _ _ Hb). intros E. rewrite E in Hnn. done.
  - intros d0 pr q0 Hd0 Hbl.
    assert (∃ pr1, operations s !! d0 = Some pr1 ∧ blocked_operation pr1 = Some q0)
      as (pr1 & Hd1 & Hbl1) by (split_lookup Hd0; simpl in *; eauto).
    destruct (inv_probe0 d0 pr1 q0 Hd1 Hbl1) as [Hnil Hl].
    split.
    { split_lookup Hd0; simpl; [|rewrite Hd0 in Hd1; by injection Hd1 as <-].
      rewrite Hb in Hd1. injection Hd1 as <-. by rewrite Hnil. }
    intros Hx. destruct Hl as (op0 & Hq0 & Hin); [done|].
    destruct (decide (q0 = b)) as [->|Hqb].
    + rewrite lookup_insert_eq. rewrite Hb in Hq0. injection Hq0 as <-.
      eexists. split; [done|]. simpl. apply g_slist_remove_other; [done|congruence].
    + rewrite lookup_insert_ne by done. eauto.
  - intros dx q op [= <-] Hq. split_lookup Hq; simpl.
    + apply g_slist_remove_gone. eauto.
    + intros Hin. destruct (inv_deps0 q op d Hq Hin) as (pr & Hpr & Hbl).
      rewrite Hd in Hpr. injection Hpr as <-. congruence.
  - rewrite map_size_insert_Some by eauto. done.
  - intros p Hp. apply is_Some_insert_live in Hp; eauto.
  - intros Ht. destruct (inv_manager0 Ht) as [He _]. rewrite He in Hb. done.
Qed.

Lemma Inv_after_complete pins x s q op o :
  Inv pins x s →
  operations s !! q = Some op →
  objects s !! object op = Some o →
  job op = JobStarted →
  pending_dependencies op = [] →
  (x = None ∨ x = Some q) →
  (blocked_operation op ≠ None → x = Some q) →
  Inv pins None (after_complete q op o s).
Proof.
  intros [] Hq Ho Hjob Hdeps Hx Hprobe.
  constructor; unfold after_complete; simpl; try done.
  - intros t h p Ht Hh. destruct (inv_table_obj0 t h p Ht Hh) as (o0 & Hp & Hhd).
    destruct (decide (p = object op)) as [->|Hne].
    + rewrite lookup_insert_eq. eexists. split; [done|]. simpl. congruence.
    + rewrite lookup_insert_ne by done. eauto.
  - intros p o1 Hp. split_lookup Hp; simpl; eauto.
  - intros q0 op0 Hq0. rewrite is_Some_insert_live by eauto.
    split_lookup Hq0. eauto.
  - intros p o1 Hp.
    pose proof (running_delete _ _ _ p Hq) as Hrun.
    split_lookup Hp; simpl.
    + rewrite (inv_count0 _ _ Ho), guint_wrap_pred.
      unfold is_running in Hrun. rewrite Hjob in Hrun.
      rewrite !bool_decide_eq_true_2 in Hrun by done. simpl in Hrun.
      f_equal. lia.
    + rewrite is_running_other in Hrun by done.
      rewrite (inv_count0 _ _ Hp). f_equal. lia.
  - intros p o1 q' Hp Hin.
    assert (∃ o0, objects s !! p = Some o0 ∧ pending_operations o0 = pending_operations o1)
      as (o0 & Hp0 & Hpq) by (split_lookup Hp; simpl; eauto).
    rewrite <- Hpq in Hin.
    destruct (inv_queue0 p o0 q' Hp0 Hin) as (op' & Hq' & Hown & Hj & ?).
    exists op'. split; [|done]. rewrite lookup_delete_ne; [done|].
    intros <-. rewrite Hq in Hq'. injection Hq' as <-. congruence.
  - intros p o1 Hp. split_lookup Hp; simpl; eauto.
  - intros q0 op0 d Hq0 Hin. split_lookup Hq0.
    destruct (inv_deps0 q0 op0 d Hq0 Hin) as (pr & Hd & Hb).
    exists pr. split; [|done]. rewrite lookup_delete_ne; [done|].
    intros <-. rewrite Hq in Hd. injection Hd as <-.
    assert (Hxq : x = Some q) by (apply Hprobe; congruence).
    by eapply inv_exempt0.
  - intros q0 op0 Hq0. split_lookup Hq0. eauto.
  - intros q0 op0 Hq0. split_lookup Hq0. eauto.
  - intros d pr q0 Hd Hb. split_lookup Hd.
    destruct (inv_probe0 d pr q0 Hd Hb) as [Hnil Hl]. split; [done|].
    intros _. destruct Hl as (op0 & Hq0 & Hin).
    { destruct Hx as [->| ->]; congruence. }
    exists op0. split; [|done]. rewrite lookup_delete_ne; [done|].
    intros <-. rewrite Hq in Hq0. injection Hq0 as <-.
    rewrite Hdeps in Hin. by apply elem_of_nil in Hin.
  - rewrite map_size_delete_Some by eauto.
    assert (size (operations s) ≠ 0%nat) by (eapply map_size_ne_0_lookup_2; eauto).
    lia.
  - intros p Hp. apply is_Some_insert_live in Hp; eauto.
  - intros p [v Hp]. split_lookup Hp. eauto.
  - intros Ht. destruct (inv_manager0 Ht) as [He _]. rewrite He in Hq. done.
Qed.

Lemma running_none ops p :
  (∀ q op, ops !! q = Some op → object op ≠ p) → running ops p = 0%nat.
Proof.
  intros H. unfold running. rewrite map_empty_filter_2; [apply map_size_empty|].
  intros q op Hq. simpl. rewrite is_running_other; [done|]. eauto.
Qed.

Lemma Inv_after_register pins x s t h :
  Inv pins x s →
  object_by_handle s = Some t →
  t !! h = None →
  Inv pins x (after_register h t s).
Proof.
  intros [] Ht Hh.
  pose proof (fresh_not_live _ _ inv_fresh_obj0) as Hfresh.
  constructor; unfold after_register; simpl; try done.
  - intros t' h' p [= <-] Hh'. split_lookup Hh'.
    + rewrite lookup_insert_eq. eauto.
    + destruct (inv_table_obj0 t h' p Ht Hh') as (o & Hp & ?).
      exists o. split; [|done]. rewrite lookup_insert_ne; [done|]. intros <-. congruence.
  - intros p o Hp. eexists. split; [done|]. split_lookup Hp; simpl.
    + apply lookup_insert_eq.
    + destruct (inv_obj_table0 p o Hp) as (t' & Ht' & Hp').
      rewrite Ht in Ht'. injection Ht' as <-.
      rewrite lookup_insert_ne; [done|]. intros E. rewrite <- E in Hp'. congruence.
  - intros q op Hq. destruct (inv_op_obj0 q op Hq) as [o Ho].
    rewrite lookup_insert_ne; [eauto|]. intros E. rewrite <- E in Ho. congruence.
  - intros p o Hp. split_lookup Hp; simpl; [|eauto].
    rewrite running_none; [done|]. intros q op Hq E.
    destruct (inv_op_obj0 q op Hq) as [o Ho]. rewrite E in Ho. congruence.
  - intros p o q Hp Hin. split_lookup Hp; simpl in *; [|eauto].
    by apply elem_of_nil in Hin.
  - intros p o Hp. split_lookup Hp; simpl; [apply NoDup_nil_2 | eauto].
  - intros p Hp. apply lookup_insert_is_Some in Hp as [<-|[_ Hp]]; [lia|].
    specialize (inv_fresh_obj0 p Hp). lia.
  - intros p Hp. specialize (inv_fresh_op0 p Hp). lia.
  - intros p Hp. specialize (inv_fresh_mop0 p Hp). lia.
Qed.

Lemma unreferenced_idle pins x s p o :
  Inv pins x s →
  objects s !! p = Some o →
  (∀ q op, operations s !! q = Some op → object op ≠ p) →
  num_active_operations o = 0 ∧ pending_operations o = [].
Proof.
  intros [] Hp Hun. split.
  - rewrite (inv_count0 _ _ Hp), running_none; done.
  - destruct (pending_operations o) as [|q l] eqn:Hq; [done|].
    destruct (inv_queue0 p o q Hp) as (op & Hop & Hown & _).
    + rewrite Hq. apply list_elem_of_here.
    + by destruct (Hun q op Hop).
Qed.

Lemma Inv_after_destroy pins x s t p o :
  Inv pins x s →
  object_by_handle s = Some t →
  objects s !! p = Some o →
  (∀ q op, operations s !! q = Some op → object op ≠ p) →
  Inv pins x (after_destroy t p o s).
Proof.
  intros [] Ht Hp Hun.
  destruct (inv_obj_table0 p o Hp) as (t' & Ht' & Hhp).
  rewrite Ht in Ht'. injection Ht' as <-.
  constructor; unfold after_destroy; simpl; try done.
  - intros t' h' p' [= <-] Hh'. split_lookup Hh'.
    destruct (inv_table_obj0 t h' p' Ht Hh') as (o' & Hp' & Hhd).
    exists o'. split; [|done]. rewrite lookup_delete_ne; [done|].
    intros <-. rewrite Hp in Hp'. injection Hp' as <-. done.
  - intros p' o' Hp'. split_lookup Hp'. eexists. split; [done|].
    destruct (inv_obj_table0 p' o' Hp') as (t' & Ht' & Hhp').
    rewrite Ht in Ht'. injection Ht' as <-.
    rewrite lookup_delete_ne; [done|]. intros E. rewrite E in Hhp. congruence.
  - intros q op Hq. rewrite lookup_delete_ne by (by eapply not_eq_sym, Hun). eauto.
  - intros p' o' Hp'. split_lookup Hp'. eauto.
  - intros p' o' q Hp' Hin. split_lookup Hp'. eauto.
  - intros p' o' Hp'. split_lookup Hp'. eauto.
  - intros p' [v Hp']. split_lookup Hp'. eauto.
Qed.

Lemma Inv_after_teardown pins x s :
  Inv pins x s →
  operations s = ∅ →
  module_operations s = ∅ →
  Inv pins x (after_teardown s).
Proof.
  intros [] Hops Hmops.
  constructor; unfold after_teardown; simpl; try done.
  - intros q op Hq. by rewrite Hops, lookup_empty in Hq.
  - intros p [v Hp]. by rewrite lookup_empty in Hp.
Qed.

Lemma Inv_after_module_start pins x s c :
  Inv pins x s →
  is_Some (object_by_handle s) →
  Inv pins x (after_module_start c s).
Proof.
  intros [] [t Ht].
  pose proof (fresh_not_live _ _ inv_fresh_mop0) as Hfresh.
  constructor; unfold after_module_start; simpl; try done.
  - rewrite map_size_insert_None by done. lia.
  - intros p Hp. specialize (inv_fresh_obj0 p Hp). lia.
  - intros p Hp. specialize (inv_fresh_op0 p Hp). lia.
  - intros p Hp. apply lookup_insert_is_Some in Hp as [<-|[_ Hp]]; [lia|].
    specialize (inv_fresh_mop0 p Hp). lia.
  - congruence.
Qed.

Lemma Inv_after_module_complete pins x s q :
  Inv pins x s →
  is_Some (module_operations s !! q) →
  Inv pins x (after_module_complete q s).
Proof.
  intros [] Hq.
  constructor; unfold after_module_complete; simpl; try done.
  - rewrite map_size_delete_Some by done.
    assert (size (module_operations s) ≠ 0%nat).
    { destruct Hq as [v Hq]. by eapply map_size_ne_0_lookup_2. }
    lia.
  - intros p [v Hp]. split_lookup Hp. eauto.
  - intros Ht. destruct (inv_manager0 Ht) as [_ He]. rewrite He in Hq.
    destruct Hq as [v Hq]. by rewrite lookup_empty in Hq.
Qed.

(** ** What each event does to a state that satisfies the invariant *)

Lemma objects_kept_destroyed_idle s s' : objects_kept s s' → destroyed_idle s s'.
Proof.
  intros H p o Hp Hp'. destruct (H p) as [o' Ho']; [eauto|]. congruence.
Qed.

Lemma object_free_eq s p o :
  objects s !! p = Some o →
  num_active_operations o = 0 →
  pending_operations o = [] →
  gum_v8_object_free p s
  = Ok (tt, set_trace (trace s ++ [EHandleUnref (handle o); EObjectFree p])
              (set_objects (delete p (objects s)) s)).
Proof.
  intros Hp Hn Hq. unfold gum_v8_object_free. unfold_monad.
  rewrite Hp, Hn, Hq. simpl. f_equal. f_equal.
  apply State_eq; simpl; try done. by rewrite <- app_assoc.
Qed.

Lemma exec_register pins s t h :
  Inv pins None s →
  object_by_handle s = Some t →
  t !! h = None →
  exec (EvRegister h) s = Ok (tt, after_register h t s) ∧
  Inv pins None (after_register h t s) ∧
  objects_kept s (after_register h t s).
Proof.
  intros HI Ht Hh. split; [|split].
  - unfold exec, _gum_v8_object_manager_add, g_hash_table_insert.
    unfold_monad. simpl. rewrite Ht, Hh. by simpl.
  - by apply Inv_after_register.
  - intros p Hp. unfold after_register; simpl.
    rewrite lookup_insert_is_Some'. by right.
Qed.

Lemma fresh_not_queued pins x s p o :
  Inv pins x s → objects s !! p = Some o → next_ptr s ∉ pending_operations o.
Proof.
  intros HI Hp Hin.
  destruct (inv_queue _ _ _ HI p o _ Hp Hin) as (op & Hq & _).
  pose proof (inv_fresh_op _ _ _ HI (next_ptr s)) as Hlt.
  assert (next_ptr s < next_ptr s)%positive by eauto. lia.
Qed.

Lemma exec_schedule pins s obj c o :
  Inv pins None s →
  objects s !! obj = Some o →
  let s' := set_trace (trace s ++ [EPin; EIncrement obj; EJobStart (next_ptr s)])
              (after_start (next_ptr s) (new_operation obj c) o (after_new obj c s)) in
  exec (EvSchedule obj c) s = Ok (tt, s') ∧
  Inv pins None s' ∧
  objects_kept s s'.
Proof.
  intros HI Ho s'. split; [|split].
  - unfold exec, _gum_v8_object_operation_new, _gum_v8_core_pin,
      _gum_v8_object_operation_schedule, gum_script_job_start_on_js_thread.
    unfold_monad. simpl. rewrite Ho. simpl.
    rewrite lookup_insert_eq. simpl. rewrite Ho. simpl. rewrite lookup_insert_eq.
    f_equal. f_equal. apply State_eq; simpl; try done.
    by rewrite <- !app_assoc.
  - apply Inv_set_trace. apply Inv_after_start; simpl; try done.
    + apply Inv_after_new; eauto.
    + apply lookup_insert_eq.
    + by eapply fresh_not_queued.
  - intros p Hp. subst s'. unfold after_start, after_new; simpl.
    rewrite lookup_insert_is_Some'. by right.
Qed.

Lemma exec_module_schedule pins s c :
  Inv pins None s →
  is_Some (object_by_handle s) →
  let s' := set_trace (trace s ++ [EPin; EJobStart (next_ptr s)])
              (after_module_start c s) in
  exec (EvModuleSchedule c) s = Ok (tt, s') ∧
  Inv pins None s' ∧
  objects_kept s s'.
Proof.
  intros HI Ht s'. split; [|split].
  - unfold exec, _gum_v8_module_operation_new, _gum_v8_core_pin,
      gum_v8_module_operation_schedule.
    unfold_monad. simpl. rewrite lookup_insert_eq. simpl.
    f_equal. f_equal. apply State_eq; simpl; try done.
    + by rewrite insert_insert_eq.
    + by rewrite <- !app_assoc.
  - apply Inv_set_trace. by apply Inv_after_module_start.
  - by intros p Hp.
Qed.

Lemma exec_module_complete pins s q o :
  Inv pins None s →
  module_operations s !! q = Some o →
  let s' := set_trace (trace s ++ (if mcleanup o then [ECleanup q] else []) ++
                         [EDeleteCallback q; EUnpin; ESliceFree q])
              (after_module_complete q s) in
  exec (EvModuleComplete q) s = Ok (tt, s') ∧
  Inv pins None s' ∧
  objects_kept s s'.
Proof.
  intros HI Hq s'. split; [|split].
  - unfold exec, gum_v8_module_operation_finish, gum_v8_module_operation_free,
      _gum_v8_core_unpin.
    unfold_monad. simpl. rewrite Hq.
    destruct (mcleanup o) eqn:Hc; simpl; f_equal; f_equal;
      apply State_eq; subst s'; simpl; try done.
    all: rewrite ?Hc; simpl; by rewrite <- ?app_assoc.
  - apply Inv_set_trace. apply Inv_after_module_complete; eauto.
  - by intros p Hp.
Qed.

Lemma exec_finalize pins s obj o :
  Inv pins None s →
  objects s !! obj = Some o →
  (∀ q op, operations s !! q = Some op → object op ≠ obj) →
  ∃ t, object_by_handle s = Some t ∧
  let s' := set_trace (trace s ++ [EHandleUnref (handle o); EObjectFree obj])
              (after_destroy t obj o s) in
  exec (EvFinalize obj) s = Ok (tt, s') ∧
  Inv pins None s' ∧
  destroyed_idle s s'.
Proof.
  intros HI Ho Hun.
  destruct (inv_obj_table _ _ _ HI obj o Ho) as (t & Ht & Hh).
  destruct (unreferenced_idle _ _ _ _ _ HI Ho Hun) as [Hn Hq].
  exists t. split; [done|]. intros s'. split; [|split].
  - unfold exec, gum_v8_object_on_weak_notify, g_hash_table_remove.
    rewrite (bind_Ok _ _ _ _ _ (deref_object_Some _ _ _ Ho)).
    rewrite (bind_Ok _ _ _ _ _ (hash_table_Some _ _ Ht)). rewrite Hh.
    unfold set_hash_table, modify, bind at 1.
    by rewrite (object_free_eq _ _ o).
  - apply Inv_set_trace. by apply Inv_after_destroy.
  - intros p o' Hp Hp'. subst s'. unfold after_destroy in Hp'. simpl in Hp'.
    apply lookup_delete_None in Hp' as [<-|Hp']; [|congruence].
    rewrite Ho in Hp. by injection Hp as <-.
Qed.

Lemma Inv_set_manager_cancellable pins x s b :
  Inv pins x s → Inv pins x (set_manager_cancellable b s).
Proof. intros []. by constructor. Qed.

Lemma exec_cancel pins s t h :
  Inv pins None s →
  object_by_handle s = Some t →
  ∃ s', exec (EvCancel h) s = Ok (tt, s') ∧
        Inv pins None s' ∧
        objects_kept s s'.
Proof.
  intros HI Ht. unfold exec, gum_v8_object_manager_cancel.
  unfold bind at 1. rewrite (bind_Ok _ _ _ _ _ (hash_table_Some _ _ Ht)).
  destruct (t !! h) as [obj|] eqn:Hh.
  - destruct (inv_table_obj _ _ _ HI t h obj Ht Hh) as (o & Ho & _).
    rewrite (bind_Ok _ _ _ _ _ (cancel_object_eq _ _ _ Ho)).
    eexists. split; [reflexivity|]. split.
    + by apply Inv_after_cancel.
    + intros p Hp. simpl. rewrite lookup_insert_is_Some'. by right.
  - exists s. split; [done|]. split; [done|]. by intros p Hp.
Qed.

Lemma alter_live {A} (f : A → A) (m : gmap positive A) p o :
  m !! p = Some o → alter f p m = <[p := f o]> m.
Proof.
  intros Hp. apply map_eq. intros i. rewrite lookup_alter, lookup_insert.
  destruct (decide (p = i)) as [<-|]; [by rewrite Hp | done].
Qed.

Lemma alter_dead {A} (f : A → A) (m : gmap positive A) p :
  m !! p = None → alter f p m = m.
Proof.
  intros Hp. apply map_eq. intros i. rewrite lookup_alter.
  destruct (decide (p = i)) as [<-|]; [by rewrite Hp | done].
Qed.

Lemma Inv_cancel_each pins x l s :
  Inv pins x s → Inv pins x (set_objects (cancel_each l (objects s)) s).
Proof.
  revert s. induction l as [|[h q] l IH]; intros s HI.
  - simpl. by destruct s.
  - change (cancel_each ((h, q) :: l) (objects s))
      with (cancel_each l (alter (with_cancellable true) q (objects s))).
    destruct (objects s !! q) as [o|] eqn:Hq.
    + rewrite (alter_live _ _ _ _ Hq).
      apply (IH _ (Inv_after_cancel _ _ _ _ _ HI Hq)).
    + rewrite (alter_dead _ _ _ Hq). by apply IH.
Qed.

Lemma exec_flush pins s t :
  Inv pins None s →
  object_by_handle s = Some t →
  ∃ s', exec EvFlush s = Ok (tt, s') ∧
        Inv pins None s' ∧
        objects_kept s s'.
Proof.
  intros HI Ht. unfold exec, gum_v8_object_manager_flush.
  rewrite (bind_Ok _ _ _ _ _ (hash_table_Some _ _ Ht)).
  erewrite bind_Ok; last first.
  { apply for_each_cancel. intros [h q] Hx. simpl.
    apply elem_of_map_to_list in Hx.
    destruct (inv_table_obj _ _ _ HI t h q Ht Hx) as (o & Ho & _). eauto. }
  eexists. split; [reflexivity|]. split.
  - apply Inv_set_manager_cancellable. by apply Inv_cancel_each.
  - intros p [o Hp]. simpl. rewrite cancel_each_lookup, Hp.
    destruct (decide _); simpl; eauto.
Qed.

Lemma delete_each_lookup l m p :
  delete_each l m !! p = if decide (p ∈ l.*2) then None else m !! p.
Proof.
  revert m. induction l as [|[h q] l IH]; intros m.
  - simpl. destruct (decide (p ∈ [])) as [H|H]; [by apply elem_of_nil in H | done].
  - change (delete_each ((h, q) :: l) m) with (delete_each l (delete q m)).
    rewrite fmap_cons. change ((h, q).2) with q. rewrite IH.
    destruct (decide (p ∈ l.*2)) as [H1|H1].
    + rewrite decide_True; [done|]. by apply list_elem_of_further.
    + destruct (decide (p = q)) as [->|Hne].
      * rewrite lookup_delete_eq.
        by rewrite decide_True by apply list_elem_of_here.
      * rewrite lookup_delete_ne by done.
        rewrite decide_False; [done|].
        intros H. apply elem_of_cons in H as [?|?]; done.
Qed.

Lemma for_each_free l s :
  NoDup l.*2 →
  (∀ x, x ∈ l → ∃ o, objects s !! x.2 = Some o ∧
                     num_active_operations o = 0 ∧ pending_operations o = []) →
  ∃ tr, for_each l (λ '(_, obj), gum_v8_object_free obj) s
        = Ok (tt, set_trace tr (set_objects (delete_each l (objects s)) s)).
Proof.
  revert s. induction l as [|[h q] l IH]; intros s Hnd Hidle.
  - exists (trace s). simpl. unfold ret. f_equal. f_equal. by apply State_eq.
  - rewrite fmap_cons in Hnd. apply NoDup_cons in Hnd as [Hq Hnd].
    destruct (Hidle (h, q)) as (o & Ho & Hn & Hpq); [apply list_elem_of_here|].
    simpl in Ho.
    destruct (IH (set_trace (trace s ++ [EHandleUnref (handle o); EObjectFree q])
                    (set_objects (delete q (objects s)) s))) as [tr Htr]; [done|..].
    { intros [h' q'] Hx. simpl.
      destruct (Hidle (h', q')) as (o' & Ho' & ?); [by apply list_elem_of_further|].
      exists o'. split; [|done]. rewrite lookup_delete_ne; [done|].
      intros <-. apply Hq. apply list_elem_of_fmap. by exists (h', q). }
    exists tr. simpl.
    rewrite (bind_Ok _ _ _ _ _ (object_free_eq _ _ _ Ho Hn Hpq)).
    rewrite Htr. f_equal.
Qed.

Lemma exec_teardown pins s :
  Inv pins None s →
  is_Some (object_by_handle s) →
  operations s = ∅ →
  module_operations s = ∅ →
  ∃ tr,
    exec EvTeardown s = Ok (tt, set_trace tr (after_teardown s)) ∧
    Inv pins None (set_trace tr (after_teardown s)) ∧
    destroyed_idle s (set_trace tr (after_teardown s)).
Proof.
  intros HI [t Ht] Hops Hmops.
  assert (Hidle : ∀ p o, objects s !! p = Some o →
                    num_active_operations o = 0 ∧ pending_operations o = []).
  { intros p o Hp. apply (unreferenced_idle _ _ _ _ _ HI Hp).
    intros q op Hq. by rewrite Hops, lookup_empty in Hq. }
  destruct (for_each_free (map_to_list t) (set_object_by_handle (Some ∅) s))
    as [tr Htr].
  { apply NoDup_fmap_2_strong; [|apply NoDup_map_to_list].
    intros [h1 p1] [h2 p2] H1 H2 E. simpl in E. subst p2.
    apply elem_of_map_to_list in H1, H2.
    destruct (inv_table_obj _ _ _ HI t h1 p1 Ht H1) as (o1 & Ho1 & E1).
    destruct (inv_table_obj _ _ _ HI t h2 p1 Ht H2) as (o2 & Ho2 & E2).
    rewrite Ho1 in Ho2. injection Ho2 as <-. congruence. }
  { intros [h p] Hx. apply elem_of_map_to_list in Hx. simpl.
    destruct (inv_table_obj _ _ _ HI t h p Ht Hx) as (o & Ho & _).
    exists o. split; [done|]. eauto. }
  exists tr. split; [|split].
  - unfold exec, gum_v8_object_manager_free.
    rewrite (bind_Ok _ _ _ _ _ (hash_table_Some _ _ Ht)).
    unfold set_hash_table, modify, bind at 1.
    rewrite (bind_Ok _ _ _ _ _ Htr). unfold modify. f_equal. f_equal.
    apply State_eq; simpl; try done.
    apply map_empty. intros p. rewrite delete_each_lookup.
    destruct (decide _) as [|Hnin]; [done|].
    destruct (objects s !! p) as [o|] eqn:Hp; [|done]. exfalso. apply Hnin.
    destruct (inv_obj_table _ _ _ HI p o Hp) as (t' & Ht' & Hh).
    rewrite Ht in Ht'. injection Ht' as <-.
    apply list_elem_of_fmap. exists (handle o, p). split; [done|].
    by apply elem_of_map_to_list.
  - apply Inv_set_trace. by apply Inv_after_teardown.
  - intros p o Hp _. eauto.
Qed.

Lemma started_no_dependencies pins x s q op :
  Inv pins x s → operations s !! q = Some op → job op = JobStarted →
  pending_dependencies op = [].
Proof.
  intros HI Hq Hjob. destruct (pending_dependencies op) eqn:E; [done|].
  assert (job op = JobCreated) by (eapply inv_blocked; eauto; congruence).
  congruence.
Qed.

(** [gum_v8_object_operation_free] on a started operation. *)
Lemma free_ok pins x s q op :
  Inv pins x s →
  operations s !! q = Some op →
  job op = JobStarted →
  (x = None ∨ x = Some q) →
  (blocked_operation op ≠ None → x = Some q) →
  ∃ s', gum_v8_object_operation_free q s = Ok (tt, s') ∧
        Inv pins None s' ∧
        objects_kept s s'.
Proof.
  intros HI Hq Hjob Hx Hprobe.
  pose proof (started_no_dependencies _ _ _ _ _ HI Hq Hjob) as Hdeps.
  destruct (inv_op_obj _ _ _ HI q op Hq) as [o Ho].
  pose proof (Inv_after_complete _ _ _ _ _ _ HI Hq Ho Hjob Hdeps Hx Hprobe) as HI1.
  assert (Hkept1 : objects_kept s (after_complete q op o s)).
  { intros p Hp. unfold after_complete; simpl. rewrite lookup_insert_is_Some'. by right. }
  destruct (decide (guint_wrap (num_active_operations o - 1) = 0)) as [Hn|Hn];
    [destruct (pending_operations o) as [|next rest] eqn:Hpq|].
  - eexists. split; [apply (operation_free_no_pop _ _ _ _ Hq Ho Hdeps); by right|].
    split; [|done]. by apply (Inv_set_trace _ _ (after_complete q op o s)).
  - destruct (inv_queue _ _ _ HI (object op) o next Ho) as (nop & Hnext & Hown & Hnj & Hnd).
    { rewrite Hpq. apply list_elem_of_here. }
    assert (Hne : next ≠ q) by (intros ->; congruence).
    set (o1 := with_num_active_operations (guint_wrap (num_active_operations o - 1)) o).
    set (s1 := after_complete q op o s) in *.
    assert (Ho1 : objects s1 !! object op = Some o1) by apply lookup_insert_eq.
    pose proof (Inv_after_dequeue _ _ _ _ _ HI1 Ho1) as HI2.
    set (s2 := after_dequeue (object op) o1 s1) in *.
    set (o2 := with_pending_operations (tail (pending_operations o1)) o1).
    assert (Ho2 : objects s2 !! object nop = Some o2)
      by (rewrite Hown; apply lookup_insert_eq).
    assert (Hn2 : operations s2 !! next = Some nop).
    { unfold s2, s1, after_dequeue, after_complete; simpl.
      by rewrite lookup_delete_ne. }
    assert (Hnq : next ∉ pending_operations o2).
    { pose proof (inv_queue_nodup _ _ _ HI _ _ Ho) as Hnodup.
      rewrite Hpq in Hnodup. apply NoDup_cons in Hnodup as [? _].
      unfold o2, o1; simpl. by rewrite Hpq. }
    pose proof (Inv_after_start _ _ _ _ _ _ HI2 Hn2 Ho2 Hnj Hnd Hnq) as HI3.
    eexists. split; [eapply operation_free_pop; eauto|]. split.
    + eapply (Inv_set_trace _ _ _ _) in HI3.
      match goal with |- Inv _ _ ?s' =>
        replace s' with (set_trace (trace s') (after_start next nop o2 s2)) end;
        [exact HI3|].
      apply State_eq; simpl; try done.
      * rewrite Hown, !insert_insert_eq. f_equal.
        unfold o2, o1, with_num_active_operations, with_pending_operations; simpl.
        rewrite Hn, Hpq. done.
      * by rewrite delete_insert_ne.
    + intros p Hp. simpl. rewrite lookup_insert_is_Some'. by right.
  - eexists. split; [apply (operation_free_no_pop _ _ _ _ Hq Ho Hdeps); by left|].
    split; [|done]. by apply (Inv_set_trace _ _ (after_complete q op o s)).
Qed.

(** [gum_v8_object_operation_try_schedule_when_idle] on an operation that
    is neither started nor queued. *)
Lemma try_ok pins x s b bop :
  Inv pins x s →
  operations s !! b = Some bop →
  job bop = JobCreated →
  b ∉ queue_of s (object bop) →
  ∃ s', gum_v8_object_operation_try_schedule_when_idle b s = Ok (tt, s') ∧
        Inv pins x s' ∧
        objects_kept s s' ∧
        (∀ q, q ≠ b → operations s' !! q = operations s !! q) ∧
        (∃ bop', operations s' !! b = Some bop' ∧
                 pending_dependencies bop' = pending_dependencies bop ∧
                 (pending_dependencies bop ≠ [] → bop' = bop)).
Proof.
  intros HI Hb Hjob Hnq.
  unfold gum_v8_object_operation_try_schedule_when_idle.
  rewrite (bind_Ok _ _ _ _ _ (deref_operation_Some _ _ _ Hb)).
  destruct (pending_dependencies bop) as [|d l] eqn:Hdeps.
  - destruct (inv_op_obj _ _ _ HI b bop Hb) as [o Ho].
    unfold queue_of in Hnq. rewrite Ho in Hnq.
    rewrite (bind_Ok _ _ _ _ _ (deref_object_Some _ _ _ Ho)).
    destruct (bool_decide (num_active_operations o = 0)).
    + rewrite (schedule_eq _ _ _ _ Hb Ho).
      eexists. split; [reflexivity|]. split; [|split; [|split]].
      * apply (Inv_set_trace _ _ (after_start b bop o s)). by apply Inv_after_start.
      * intros p Hp. simpl. rewrite lookup_insert_is_Some'. by right.
      * intros q Hq. simpl. by rewrite lookup_insert_ne.
      * eexists. simpl. split; [apply lookup_insert_eq|]. by simpl.
    + rewrite (push_tail_eq _ _ _ _ Ho).
      eexists. split; [reflexivity|]. split; [|split; [|split]].
      * apply (Inv_set_trace _ _ (after_enqueue b bop o s)). by apply Inv_after_enqueue.
      * intros p Hp. simpl. rewrite lookup_insert_is_Some'. by right.
      * done.
      * exists bop. simpl. by rewrite Hdeps.
  - exists s. split; [done|]. split; [done|]. split; [by intros p Hp|].
    split; [done|]. exists bop. by rewrite Hdeps.
Qed.

Lemma exec_complete pins s q op :
  Inv pins None s →
  operations s !! q = Some op →
  job op = JobStarted →
  ∃ s', exec (EvComplete q) s = Ok (tt, s') ∧
        Inv pins None s' ∧
        objects_kept s s'.
Proof.
  intros HI Hq Hjob. unfold exec.
  rewrite (bind_Ok _ _ _ _ _ (deref_operation_Some _ _ _ Hq)).
  destruct (blocked_operation op) as [b|] eqn:Hblocked.
  - destruct (inv_probe _ _ _ HI q op b Hq Hblocked) as [Hnil Hl].
    destruct Hl as (bop & Hb & Hin); [done|].
    assert (Hbq : b ≠ q).
    { intros ->. rewrite Hq in Hb. injection Hb as <-. rewrite Hnil in Hin.
      by apply elem_of_nil in Hin. }
    assert (Hbdeps : pending_dependencies bop ≠ []).
    { intros E. rewrite E in Hin. by apply elem_of_nil in Hin. }
    pose proof (inv_blocked _ _ _ HI b bop Hb Hbdeps) as Hbjob.
    assert (Hbnq : b ∉ queue_of s (object bop)).
    { unfold queue_of. destruct (objects s !! object bop) as [o|] eqn:Ho;
        [|apply not_elem_of_nil].
      intros Hbin. destruct (inv_queue _ _ _ HI _ o b Ho Hbin) as (bop' & Hb' & _ & _ & E).
      rewrite Hb in Hb'. injection Hb' as <-. done. }
    pose proof (Inv_after_unlink _ _ _ _ _ _ HI Hb Hq Hblocked) as HI1.
    set (bop1 := with_pending_dependencies
                   (g_slist_remove (pending_dependencies bop) q) bop).
    set (s1 := after_unlink b bop q s) in *.
    assert (Hb1 : operations s1 !! b = Some bop1) by apply lookup_insert_eq.
    destruct (try_ok _ _ s1 b bop1 HI1 Hb1 Hbjob Hbnq) as (s2 & Htry & HI2 & Hk2 & Hfr & _).
    assert (Hq2 : operations s2 !! q = Some op).
    { rewrite Hfr by done. unfold s1, after_unlink; simpl.
      by rewrite lookup_insert_ne. }
    destruct (free_ok _ _ s2 q op HI2 Hq2 Hjob) as (s3 & Hfree & HI3 & Hk3);
      [by right | done |].
    exists s3. split; [|split; [done|]].
    + unfold gum_v8_try_schedule_if_idle_operation_perform.
      rewrite (bind_Ok _ _ _ _ _ (deref_operation_Some _ _ _ Hq)), Hblocked.
      erewrite bind_Ok; last first.
      { unfold update_operation.
        rewrite (bind_Ok _ _ _ _ _ (deref_operation_Some _ _ _ Hb)).
        unfold store_operation, modify. reflexivity. }
      rewrite (bind_Ok _ _ _ _ _ Htry). exact Hfree.
    + intros p Hp. apply Hk3, Hk2. exact Hp.
  - destruct (free_ok _ _ s q op HI Hq Hjob) as (s' & Hfree & HI' & Hk);
      [by left | congruence |].
    exists s'. done.
Qed.

(** ** The dependency barrier *)

Lemma guint_wrap_range z : 0 ≤ guint_wrap z < guint_modulus.
Proof. unfold guint_wrap, guint_modulus. apply Z.mod_pos_bound. lia. Qed.

Lemma probe_step pins s self selfop dep dobj :
  Inv pins None s →
  operations s !! self = Some selfop →
  job selfop = JobCreated →
  blocked_operation selfop = None →
  self ∉ queue_of s (object selfop) →
  objects s !! dep = Some dobj →
  num_active_operations dobj > 0 →
  (let! op := _gum_v8_object_operation_new dep false in
   update_operation op (with_blocked_operation (Some self)) ;;;
   update_operation self (λ o,
     with_pending_dependencies (g_slist_prepend (pending_dependencies o) op) o) ;;;
   schedule_when_idle 1 op None) s
  = Ok (tt, after_probe self selfop dep dobj s) ∧
  Inv pins None (after_probe self selfop dep dobj s).
Proof.
  intros HI Hself Hjob Hblocked Hnq Hdep Hbusy.
  pose proof (fresh_not_live _ _ (inv_fresh_op _ _ _ HI)) as Hfresh.
  assert (Hne : self ≠ next_ptr s) by (intros E; rewrite E in Hself; congruence).
  split.
  - unfold _gum_v8_object_operation_new, _gum_v8_core_pin. simpl.
    unfold gum_v8_object_operation_try_schedule_when_idle, g_queue_push_tail.
    unfold_monad. simpl. rewrite Hdep. simpl.
    rewrite lookup_insert_eq. simpl.
    rewrite lookup_insert_ne by done. rewrite lookup_insert_ne by done.
    rewrite Hself. simpl.
    rewrite lookup_insert_ne by done. rewrite lookup_insert_eq. simpl.
    rewrite Hdep. rewrite bool_decide_eq_false_2 by lia. simpl. rewrite Hdep.
    f_equal. f_equal. apply State_eq; simpl; try done.
    by rewrite <- !app_assoc.
  - unfold after_probe. apply Inv_set_trace.
    pose proof (Inv_after_new _ _ _ dep false HI (ltac:(eauto))) as HI1.
    set (s1 := after_new dep false s) in *.
    assert (Hself1 : operations s1 !! self = Some selfop)
      by (unfold s1, after_new; simpl; by rewrite lookup_insert_ne).
    assert (Hd1 : operations s1 !! next_ptr s = Some (new_operation dep false))
      by apply lookup_insert_eq.
    assert (HI2 : Inv pins None
                    (after_link self selfop (next_ptr s) (new_operation dep false) s1)).
    { apply Inv_after_link; try done.
      intros q op Hq Hin. unfold s1, after_new in Hq; simpl in Hq.
      split_lookup Hq; [by apply elem_of_nil in Hin|].
      destruct (inv_deps _ _ _ HI q op _ Hq Hin) as (pr & Hpr & _). congruence. }
    apply Inv_after_enqueue; simpl; try done.
    + rewrite lookup_insert_ne by done. apply lookup_insert_eq.
    + by eapply fresh_not_queued.
Qed.

Lemma ptr_seq_lower p n q : q ∈ ptr_seq p n → (p ≤ q)%positive.
Proof.
  revert p. induction n as [|n IH]; intros p; simpl.
  - intros H. by apply elem_of_nil in H.
  - intros H. apply elem_of_cons in H as [->|H]; [lia|].
    specialize (IH _ H). lia.
Qed.

Lemma ptr_seq_NoDup p n : NoDup (ptr_seq p n).
Proof.
  revert p. induction n as [|n IH]; intros p; simpl; [apply NoDup_nil_2|].
  apply NoDup_cons. split; [|apply IH].
  intros H. apply ptr_seq_lower in H. lia.
Qed.

Lemma busy_same_counts s s' :
  (∀ p, num_active_operations <$> objects s' !! p
        = num_active_operations <$> objects s !! p) →
  ∀ dep, busy s' dep = busy s dep.
Proof.
  intros H dep. unfold busy. specialize (H dep).
  destruct (objects s' !! dep), (objects s !! dep); simpl in H; try done.
  by injection H as ->.
Qed.

Lemma probe_loop pins self deps : ∀ s selfop,
  Inv pins None s →
  operations s !! self = Some selfop →
  job selfop = JobCreated →
  blocked_operation selfop = None →
  self ∉ queue_of s (object selfop) →
  Forall (λ dep, is_Some (objects s !! dep)) deps →
  ∃ s',
    for_each deps (λ dependency,
      let! d := deref_object dependency in
      if bool_decide (num_active_operations d > 0) then
        let! op := _gum_v8_object_operation_new dependency false in
        update_operation op (with_blocked_operation (Some self)) ;;;
        update_operation self (λ o,
          with_pending_dependencies
            (g_slist_prepend (pending_dependencies o) op) o) ;;;
        schedule_when_idle 1 op None
      else ret tt) s = Ok (tt, s') ∧
    probed pins self selfop deps s s'.
Proof.
  induction deps as [|dep rest IH]; intros s selfop HI Hself Hjob Hblocked Hnq Hlive.
  - exists s. split; [done|]. constructor; simpl; try done.
    + by intros p Hp.
    + rewrite Hself. by destruct selfop.
  - apply Forall_cons in Hlive as [[dobj Hdep] Hlive].
    cbn [for_each]. unfold bind at 1.
    rewrite (bind_Ok _ _ _ _ _ (deref_object_Some _ _ _ Hdep)).
    destruct (bool_decide (num_active_operations dobj > 0)) eqn:Hbusy.
    + apply bool_decide_eq_true in Hbusy.
      destruct (probe_step _ _ _ _ _ _ HI Hself Hjob Hblocked Hnq Hdep Hbusy)
        as [Hstep HI1].
      rewrite Hstep.
      set (s1 := after_probe self selfop dep dobj s) in *.
      set (selfop1 := with_pending_dependencies
                        (next_ptr s :: pending_dependencies selfop) selfop).
      pose proof (fresh_not_live _ _ (inv_fresh_op _ _ _ HI)) as Hfresh.
      assert (Hne : self ≠ next_ptr s) by (intros E; rewrite E in Hself; congruence).
      assert (Hself1 : operations s1 !! self = Some selfop1) by apply lookup_insert_eq.
      assert (Hcounts1 : ∀ p, num_active_operations <$> objects s1 !! p
                              = num_active_operations <$> objects s !! p).
      { intros p. unfold s1, after_probe, after_enqueue; simpl.
        destruct (decide (p = dep)) as [->|Hp].
        - by rewrite lookup_insert_eq, Hdep.
        - by rewrite lookup_insert_ne. }
      assert (Hnq1 : self ∉ queue_of s1 (object selfop1)).
      { unfold queue_of, s1, after_probe, after_enqueue, selfop1; simpl.
        unfold queue_of in Hnq.
        destruct (decide (object selfop = dep)) as [E|E].
        - rewrite E in *. rewrite lookup_insert_eq. simpl. rewrite Hdep in Hnq.
          apply not_elem_of_app. split; [done|].
          by apply not_elem_of_cons; split; [|apply not_elem_of_nil].
        - by rewrite lookup_insert_ne. }
      assert (Hlive1 : Forall (λ dep0, is_Some (objects s1 !! dep0)) rest).
      { eapply Forall_impl; [exact Hlive|]. intros p Hp.
        unfold s1, after_probe, after_enqueue; simpl.
        rewrite lookup_insert_is_Some'. by right. }
      destruct (IH s1 selfop1 HI1 Hself1 Hjob Hblocked Hnq1 Hlive1) as (s' & Hrun & []).
      exists s'. split; [exact Hrun|].
      assert (Hfilter : List.filter (busy s1) rest = List.filter (busy s) rest)
        by (apply List.filter_ext, busy_same_counts, Hcounts1).
      rewrite Hfilter in *.
      assert (Hnext1 : next_ptr s1 = Pos.succ (next_ptr s)) by done.
      rewrite Hnext1 in *.
      assert (Hb : busy s dep = true)
        by (unfold busy; rewrite Hdep; by apply bool_decide_eq_true_2).
      constructor; cbn [List.filter]; rewrite ?Hb; cbn [length ptr_seq]; try done.
      * intros p Hp. apply probed_kept0. unfold s1, after_probe, after_enqueue; simpl.
        rewrite lookup_insert_is_Some'. by right.
      * intros p. by rewrite probed_counts0.
      * lia.
      * rewrite probed_self0. f_equal. unfold selfop1, with_pending_dependencies; simpl.
        f_equal. by rewrite <- app_assoc.
      * constructor; [|done].
        rewrite probed_frame0 by (try done; lia).
        unfold s1, after_probe, after_enqueue, after_link; simpl.
        rewrite lookup_insert_ne by done. apply lookup_insert_eq.
      * intros q Hq Hlt. rewrite probed_frame0 by (try done; lia).
        unfold s1, after_probe, after_enqueue, after_link, after_new; simpl.
        rewrite !lookup_insert_ne; [done | lia | lia | done].
    + apply bool_decide_eq_false in Hbusy.
      unfold ret at 1.
      destruct (IH s selfop HI Hself Hjob Hblocked Hnq Hlive) as (s' & Hrun & []).
      exists s'. split; [exact Hrun|].
      assert (Hb : busy s dep = false)
        by (unfold busy; rewrite Hdep; by apply bool_decide_eq_false_2).
      constructor; cbn [List.filter]; rewrite ?Hb; done.
Qed.

Lemma Forall2_impl_elem {A B} (P Q : A → B → Prop) l k :
  Forall2 P l k → (∀ x y, y ∈ k → P x y → Q x y) → Forall2 Q l k.
Proof.
  induction 1 as [|x y l k HP HF IH]; intros Himpl; constructor.
  - apply Himpl; [apply list_elem_of_here | done].
  - apply IH. intros x' y' Hy. apply Himpl. by apply list_elem_of_further.
Qed.

Lemma operation_new_eq s obj c :
  is_Some (objects s !! obj) →
  _gum_v8_object_operation_new obj c s
  = Ok (next_ptr s, set_trace (trace s ++ [EPin]) (after_new obj c s)).
Proof.
  intros [o Ho]. unfold _gum_v8_object_operation_new, _gum_v8_core_pin.
  unfold_monad. simpl. rewrite Ho. simpl. f_equal.
Qed.

Lemma exec_schedule_when_idle pins s obj c deps :
  Inv pins None s →
  is_Some (objects s !! obj) →
  Forall (λ dep, is_Some (objects s !! dep)) (default [] deps) →
  let self := next_ptr s in
  let probes :=
    ptr_seq (Pos.succ self) (length (List.filter (busy s) (default [] deps))) in
  ∃ s', exec (EvScheduleWhenIdle obj c deps) s = Ok (tt, s') ∧
        Inv pins None s' ∧
        objects_kept s s' ∧
        Forall2 (λ dep d, operations s' !! d = Some (probe_operation dep self))
          (List.filter (busy s) (default [] deps)) probes ∧
        ∃ selfop', operations s' !! self = Some selfop' ∧
                   pending_dependencies selfop' = rev probes ∧
                   (probes ≠ [] → selfop' = with_pending_dependencies (rev probes)
                                               (new_operation obj c)).
Proof.
  intros HI Hobj Hlive self probes.
  pose proof (Inv_set_trace _ _ _ (trace s ++ [EPin])
                (Inv_after_new _ _ _ obj c HI Hobj)) as HI0.
  set (s0 := set_trace (trace s ++ [EPin]) (after_new obj c s)) in *.
  assert (Hself0 : operations s0 !! self = Some (new_operation obj c))
    by apply lookup_insert_eq.
  assert (Hnq0 : self ∉ queue_of s0 (object (new_operation obj c))).
  { unfold queue_of. simpl. destruct (objects s !! obj) as [o|] eqn:Ho;
      [|apply not_elem_of_nil]. by eapply fresh_not_queued. }
  destruct (probe_loop pins self (default [] deps) s0 (new_operation obj c))
    as (s1 & Hloop & Hprobed); try done.
  destruct Hprobed.
  change (busy s0) with (busy s) in *.
  change (next_ptr s0) with (Pos.succ self) in *.
  fold probes in probed_self0, probed_probes0.
  simpl in probed_self0. rewrite app_nil_r in probed_self0.
  destruct (try_ok _ _ s1 self _ probed_inv0 probed_self0 eq_refl probed_not_queued0)
    as (s' & Htry & HI' & Hk' & Hfr & selfop' & Hself' & Hdeps' & Hsame).
  exists s'. split; [|split; [done|split; [|split]]].
  - unfold exec. rewrite (bind_Ok _ _ _ _ _ (operation_new_eq _ _ _ Hobj)).
    unfold _gum_v8_object_operation_schedule_when_idle. cbn [schedule_when_idle].
    fold s0. fold self.
    destruct deps as [deps|]; simpl in *.
    + by rewrite (bind_Ok _ _ _ _ _ Hloop).
    + unfold ret at 1 in Hloop. injection Hloop as <-.
      unfold bind at 1. unfold ret at 1. exact Htry.
  - intros p Hp. apply Hk', probed_kept0. exact Hp.
  - eapply Forall2_impl_elem; [exact probed_probes0|].
    intros dep d Hd Hop. rewrite Hfr; [done|].
    apply ptr_seq_lower in Hd. unfold self in *. lia.
  - exists selfop'. split; [done|]. split; [done|].
    intros Hne. apply Hsame. simpl. intros E. apply Hne.
    apply (f_equal (@rev _)) in E. by rewrite rev_involutive in E.
Qed.

(** ** Every valid event runs to completion and keeps the invariant *)

Lemma has_job_started {A} (j : A → GumScriptJob) (m : gmap positive A) p :
  has_job j m p = true → ∃ o, m !! p = Some o ∧ j o = JobStarted.
Proof.
  unfold has_job. destruct (m !! p) as [o|]; [|done].
  destruct (j o) eqn:E; [done|]. eauto.
Qed.

Lemma step_ok pins s e :
  Inv pins None s →
  valid e s = true →
  ∃ s', exec e s = Ok (tt, s') ∧ Inv pins None s' ∧ destroyed_idle s s'.
Proof.
  intros HI Hvalid. unfold valid in Hvalid.
  apply andb_true_iff in Hvalid as [Hen Hdis].
  destruct e as [h|obj c|obj c deps|q|c|q|obj|h| |]; simpl in Hen, Hdis.
  - destruct (object_by_handle s) as [t|] eqn:Ht; [|done].
    apply bool_decide_eq_true in Hdis.
    destruct (exec_register _ _ _ _ HI Ht Hdis) as (Hrun & HI' & Hk).
    eauto using objects_kept_destroyed_idle.
  - apply bool_decide_eq_true in Hen as [o Ho].
    destruct (exec_schedule _ _ _ c _ HI Ho) as (Hrun & HI' & Hk).
    eauto using objects_kept_destroyed_idle.
  - apply andb_true_iff in Hen as [Hobj Hdeps].
    apply bool_decide_eq_true in Hobj.
    destruct (exec_schedule_when_idle _ _ _ c deps HI Hobj)
      as (s' & Hrun & HI' & Hk & _).
    { apply Forall_forall. intros dep Hin.
      rewrite forallb_forall in Hdeps. apply list_elem_of_In in Hin.
      specialize (Hdeps dep Hin). by apply bool_decide_eq_true in Hdeps. }
    eauto using objects_kept_destroyed_idle.
  - apply has_job_started in Hen as (op & Hq & Hjob).
    destruct (exec_complete _ _ _ _ HI Hq Hjob) as (s' & Hrun & HI' & Hk).
    eauto using objects_kept_destroyed_idle.
  - apply bool_decide_eq_true in Hen.
    destruct (exec_module_schedule _ _ c HI Hen) as (Hrun & HI' & Hk).
    eauto using objects_kept_destroyed_idle.
  - apply has_job_started in Hen as (o & Hq & _).
    destruct (exec_module_complete _ _ _ _ HI Hq) as (Hrun & HI' & Hk).
    eauto using objects_kept_destroyed_idle.
  - apply andb_true_iff in Hen as [Hobj Hun].
    apply bool_decide_eq_true in Hobj as [o Ho].
    apply bool_decide_eq_true in Hun.
    destruct (exec_finalize _ _ _ _ HI Ho) as (t & _ & Hrun & HI' & Hd).
    { intros q op Hq. exact (Hun q op Hq). }
    eauto.
  - apply bool_decide_eq_true in Hen as [t Ht].
    destruct (exec_cancel _ _ _ h HI Ht) as (s' & Hrun & HI' & Hk).
    eauto using objects_kept_destroyed_idle.
  - apply bool_decide_eq_true in Hen as [t Ht].
    destruct (exec_flush _ _ _ HI Ht) as (s' & Hrun & HI' & Hk).
    eauto using objects_kept_destroyed_idle.
  - apply bool_decide_eq_true in Hen.
    apply andb_true_iff in Hdis as [Hops Hmops].
    apply bool_decide_eq_true in Hops, Hmops.
    destruct (exec_teardown _ _ HI Hen Hops Hmops) as (tr & Hrun & HI' & Hd).
    eauto.
Qed.

Lemma Inv_initial pins : Inv pins None (initial_state pins).
Proof.
  constructor; unfold initial_state; simpl; try done.
  - intros t h p [= <-]. by rewrite lookup_empty.
  - rewrite !map_size_empty. lia.
  - intros p [v Hp]. by rewrite lookup_empty in Hp.
  - intros p [v Hp]. by rewrite lookup_empty in Hp.
  - intros p [v Hp]. by rewrite lookup_empty in Hp.
Qed.

Lemma reachable_Inv pins s : reachable valid pins s → Inv pins None s.
Proof.
  induction 1 as [|s e s' _ IH Hvalid Hexec]; [apply Inv_initial|].
  destruct (step_ok _ _ _ IH Hvalid) as (s'' & Hrun & HI & _).
  rewrite Hexec in Hrun. by injection Hrun as <-.
Qed.

Lemma run_reachable G pins evs : ∀ s s',
  reachable G pins s → run G evs s = Some (Ok s') → reachable G pins s'.
Proof.
  induction evs as [|e evs IH]; intros s s' Hs Hrun; simpl in Hrun.
  - by injection Hrun as <-.
  - destruct (G e s) eqn:HG; [|done].
    destruct (exec e s) as [[[] s1]|f] eqn:Hexec; [|done].
    apply (IH s1); [|done]. by eapply reachable_step.
Qed.

(** ** First in, first out *)

Lemma preserves_ret P {A} (a : A) : preserves P (ret a).
Proof. intros s a' s' HP [= _ <-]. done. Qed.

Lemma preserves_fail P {A} f : preserves P (@fail A f).
Proof. intros s a' s' HP H. done. Qed.

Lemma preserves_bind P {A B} (m : M A) (k : A → M B) :
  preserves P m → (∀ a, preserves P (k a)) → preserves P (bind m k).
Proof.
  intros Hm Hk s b s' HP Hrun.
  apply bind_inv in Hrun as (a & s1 & Hm1 & Hk1).
  eapply Hk; [|exact Hk1]. eapply Hm; [exact HP | exact Hm1].
Qed.

Lemma preserves_for_each P {A} (l : list A) (body : A → M unit) :
  (∀ x, preserves P (body x)) → preserves P (for_each l body).
Proof.
  intros Hbody. induction l as [|x l IH]; simpl.
  - apply preserves_ret.
  - apply preserves_bind; [apply Hbody | intros _; apply IH].
Qed.

Lemma preserves_modify P (f : State → State) :
  (∀ s, P s → P (f s)) → preserves P (modify f).
Proof. intros Hf s [] s' HP [= <-]. by apply Hf. Qed.

Lemma preserves_read P {A} (m : M A) :
  (∀ s a s', m s = Ok (a, s') → s' = s) → preserves P m.
Proof. intros Hm s a s' HP Hrun. by rewrite (Hm _ _ _ Hrun). Qed.

Lemma preserves_deref_object P p : preserves P (deref_object p).
Proof.
  apply preserves_read. intros s a s'. unfold deref_object.
  destruct (objects s !! p); [|done]. by intros [= _ <-].
Qed.

Lemma preserves_deref_operation P p : preserves P (deref_operation p).
Proof.
  apply preserves_read. intros s a s'. unfold deref_operation.
  destruct (operations s !! p); [|done]. by intros [= _ <-].
Qed.

Lemma preserves_deref_module_operation P p : preserves P (deref_module_operation p).
Proof.
  apply preserves_read. intros s a s'. unfold deref_module_operation.
  destruct (module_operations s !! p); [|done]. by intros [= _ <-].
Qed.

Lemma preserves_hash_table P : preserves P hash_table.
Proof.
  apply preserves_read. intros s a s'. unfold hash_table.
  destruct (object_by_handle s); [|done]. by intros [= _ <-].
Qed.

Lemma preserves_g_assert P b : preserves P (g_assert b).
Proof. destruct b; [apply preserves_ret | apply preserves_fail]. Qed.

Lemma pushed_app tr1 tr2 p : pushed (tr1 ++ tr2) p = pushed tr1 p ++ pushed tr2 p.
Proof. unfold pushed. apply omap_app. Qed.

Lemma popped_app tr1 tr2 p : popped (tr1 ++ tr2) p = popped tr1 p ++ popped tr2 p.
Proof. unfold popped. apply omap_app. Qed.

Lemma Fifo_emit e : queue_neutral e = true → preserves Fifo (emit e).
Proof.
  intros He. apply preserves_modify. intros s [Hq Hfresh]. split; [|done].
  intros p. simpl. rewrite pushed_app, popped_app, Hq.
  destruct e; try done; simpl; by rewrite !app_nil_r.
Qed.

Lemma Fifo_frame s s' :
  Fifo s →
  trace s' = trace s →
  (∀ p, queue_of s' p = queue_of s p) →
  (∀ p, is_Some (objects s' !! p) → is_Some (objects s !! p)) →
  (next_ptr s ≤ next_ptr s')%positive →
  Fifo s'.
Proof.
  intros [Hq Hfresh] Htr Hqueue Hlive Hnext. split.
  - intros p. by rewrite Htr, Hqueue.
  - intros p Hp. specialize (Hfresh p (Hlive p Hp)). lia.
Qed.

Lemma Fifo_store_operation p o : preserves Fifo (store_operation p o).
Proof.
  apply preserves_modify. intros s HF. by apply (Fifo_frame s).
Qed.

Lemma Fifo_update_operation p f : preserves Fifo (update_operation p f).
Proof.
  apply preserves_bind; [apply preserves_deref_operation|].
  intros o. apply Fifo_store_operation.
Qed.

Lemma Fifo_store_module_operation p o : preserves Fifo (store_module_operation p o).
Proof.
  apply preserves_modify. intros s HF. by apply (Fifo_frame s).
Qed.

Lemma Fifo_set_hash_table t : preserves Fifo (set_hash_table t).
Proof.
  apply preserves_modify. intros s HF. by apply (Fifo_frame s).
Qed.

Lemma Fifo_alloc : preserves Fifo g_slice_alloc.
Proof.
  intros s a s' HF [= _ <-]. apply (Fifo_frame s); try done. simpl. lia.
Qed.

(** Writing back an object whose queue is the one it had. *)
Lemma Fifo_update_object p f :
  (∀ o, pending_operations (f o) = pending_operations o) →
  preserves Fifo (update_object p f).
Proof.
  intros Hf s a s' HF Hrun. unfold update_object in Hrun.
  apply bind_inv in Hrun as (o & s1 & Hd & Hst).
  unfold deref_object in Hd. destruct (objects s !! p) as [o'|] eqn:Hp; [|done].
  injection Hd as <- <-. unfold store_object, modify in Hst.
  injection Hst as _ <-.
  apply (Fifo_frame s); simpl; try done.
  - intros q. unfold queue_of; simpl.
    destruct (decide (q = p)) as [->|Hne].
    + by rewrite lookup_insert_eq, Hp, Hf.
    + by rewrite lookup_insert_ne.
  - intros q Hq. apply lookup_insert_is_Some in Hq as [<-|[_ ?]]; eauto.
Qed.

Lemma Fifo_push_tail p op : preserves Fifo (g_queue_push_tail p op).
Proof.
  intros s a s' [Hq Hfresh] Hrun. unfold g_queue_push_tail, update_object in Hrun.
  unfold_monad. destruct (objects s !! p) as [o|] eqn:Hp; [|done].
  injection Hrun as _ <-. split; simpl.
  - intros q. rewrite pushed_app, popped_app, Hq. unfold queue_of; simpl.
    destruct (decide (q = p)) as [->|Hne].
    + rewrite lookup_insert_eq, Hp. simpl. rewrite decide_True by done.
      by rewrite !app_nil_r, app_assoc.
    + rewrite lookup_insert_ne by done. simpl.
      rewrite decide_False by done. by rewrite !app_nil_r.
  - intros q Hq'. apply lookup_insert_is_Some in Hq' as [<-|[_ ?]]; eauto.
Qed.

Lemma Fifo_pop_head p : preserves Fifo (g_queue_pop_head p).
Proof.
  intros s a s' [Hq Hfresh] Hrun. unfold g_queue_pop_head in Hrun.
  unfold_monad. destruct (objects s !! p) as [o|] eqn:Hp; [|done].
  destruct (pending_operations o) as [|next rest] eqn:Hpq.
  { injection Hrun as <- <-. done. }
  injection Hrun as <- <-. split; simpl.
  - intros q. rewrite pushed_app, popped_app, Hq. unfold queue_of; simpl.
    destruct (decide (q = p)) as [->|Hne].
    + rewrite lookup_insert_eq, Hp, Hpq. simpl. rewrite decide_True by done.
      by rewrite !app_nil_r, <- app_assoc.
    + rewrite lookup_insert_ne by done. simpl.
      rewrite decide_False by done. by rewrite !app_nil_r.
  - intros q Hq'. apply lookup_insert_is_Some in Hq' as [<-|[_ ?]]; eauto.
Qed.

Lemma Fifo_modify_other (f : State → State) :
  (∀ s, trace (f s) = trace s ∧ objects (f s) = objects s ∧
        next_ptr (f s) = next_ptr s) →
  preserves Fifo (modify f).
Proof.
  intros Hf. apply preserves_modify. intros s HF.
  destruct (Hf s) as (Htr & Hobj & Hnext).
  apply (Fifo_frame s); try done.
  - intros p. unfold queue_of. by rewrite Hobj.
  - intros p. by rewrite Hobj.
  - rewrite Hnext. lia.
Qed.

Lemma Fifo_pin : preserves Fifo _gum_v8_core_pin.
Proof.
  apply preserves_bind; [by apply Fifo_modify_other|].
  intros _. by apply Fifo_emit.
Qed.

Lemma Fifo_unpin : preserves Fifo _gum_v8_core_unpin.
Proof.
  apply preserves_bind; [by apply Fifo_modify_other|].
  intros _. by apply Fifo_emit.
Qed.

Lemma Fifo_job_start op : preserves Fifo (gum_script_job_start_on_js_thread op).
Proof.
  apply preserves_bind; [apply Fifo_update_operation|].
  intros _. by apply Fifo_emit.
Qed.

Lemma Fifo_cancel_object p : preserves Fifo (g_cancellable_cancel_object p).
Proof. by apply Fifo_update_object. Qed.

Lemma Fifo_flush : preserves Fifo gum_v8_object_manager_flush.
Proof.
  apply preserves_bind; [apply preserves_hash_table|]. intros t.
  apply preserves_bind; [|intros _; by apply Fifo_modify_other].
  apply preserves_for_each. intros [h p]. apply Fifo_cancel_object.
Qed.

Lemma Fifo_object_free p : preserves Fifo (gum_v8_object_free p).
Proof.
  intros s [] s' [Hq Hfresh] Hrun. unfold gum_v8_object_free in Hrun.
  unfold_monad. destruct (objects s !! p) as [o|] eqn:Hp; [|done].
  destruct (bool_decide (num_active_operations o = 0)); [|done].
  destruct (pending_operations o) eqn:Hpq; [|done].
  injection Hrun as <-. split; simpl.
  - intros q. rewrite !pushed_app, !popped_app, Hq. simpl. rewrite !app_nil_r.
    f_equal. unfold queue_of; simpl.
    destruct (decide (q = p)) as [->|Hne].
    + by rewrite lookup_delete_eq, Hp, Hpq.
    + by rewrite lookup_delete_ne.
  - intros q [v Hv]. apply lookup_delete_Some in Hv as [_ Hv]. eauto.
Qed.

Lemma Fifo_manager_free : preserves Fifo gum_v8_object_manager_free.
Proof.
  apply preserves_bind; [apply preserves_hash_table|]. intros t.
  apply preserves_bind; [apply Fifo_set_hash_table|]. intros _.
  apply preserves_bind; [|intros _; by apply Fifo_modify_other].
  apply preserves_for_each. intros [h p]. apply Fifo_object_free.
Qed.

Lemma Fifo_hash_table_insert h p : preserves Fifo (g_hash_table_insert h p).
Proof.
  apply preserves_bind; [apply preserves_hash_table|]. intros t.
  apply preserves_bind; [apply Fifo_set_hash_table|]. intros _.
  destruct (t !! h); [apply Fifo_object_free | apply preserves_ret].
Qed.

Lemma Fifo_hash_table_remove h : preserves Fifo (g_hash_table_remove h).
Proof.
  apply preserves_bind; [apply preserves_hash_table|]. intros t.
  destruct (t !! h); [|apply preserves_ret].
  apply preserves_bind; [apply Fifo_set_hash_table|]. intros _.
  apply Fifo_object_free.
Qed.

Lemma Fifo_manager_add h : preserves Fifo (_gum_v8_object_manager_add h).
Proof.
  intros s a s' HF Hrun. unfold _gum_v8_object_manager_add in Hrun.
  apply bind_inv in Hrun as (p & s1 & Halloc & Hrun).
  injection Halloc as <- <-.
  apply bind_inv in Hrun as ([] & s2 & Hstore & Hrun).
  unfold store_object, modify in Hstore. injection Hstore as <-.
  apply bind_inv in Hrun as ([] & s3 & Hins & Hret).
  injection Hret as _ <-.
  eapply Fifo_hash_table_insert; [|exact Hins].
  destruct HF as [Hq Hfresh]. pose proof (fresh_not_live _ _ Hfresh) as Hnone.
  split; simpl.
  - intros q. rewrite Hq. f_equal. unfold queue_of; simpl.
    destruct (decide (q = next_ptr s)) as [->|Hne].
    + by rewrite lookup_insert_eq, Hnone.
    + by rewrite lookup_insert_ne.
  - intros q Hq'. apply lookup_insert_is_Some in Hq' as [<-|[_ Hq']]; [lia|].
    specialize (Hfresh q Hq'). lia.
Qed.

Lemma Fifo_on_weak_notify p : preserves Fifo (gum_v8_object_on_weak_notify p).
Proof.
  apply preserves_bind; [apply preserves_deref_object|]. intros o.
  apply Fifo_hash_table_remove.
Qed.

Lemma Fifo_cancel h : preserves Fifo (gum_v8_object_manager_cancel h).
Proof.
  apply preserves_bind; [apply preserves_hash_table|]. intros t.
  destruct (t !! h); [|apply preserves_ret].
  apply preserves_bind; [apply Fifo_cancel_object|]. intros _. apply preserves_ret.
Qed.

Lemma Fifo_operation_new obj c : preserves Fifo (_gum_v8_object_operation_new obj c).
Proof.
  apply preserves_bind; [apply Fifo_alloc|]. intros op.
  apply preserves_bind; [apply preserves_deref_object|]. intros _.
  apply preserves_bind; [apply Fifo_store_operation|]. intros _.
  apply preserves_bind; [apply Fifo_pin|]. intros _. apply preserves_ret.
Qed.

Lemma Fifo_schedule self : preserves Fifo (_gum_v8_object_operation_schedule self).
Proof.
  apply preserves_bind; [apply preserves_deref_operation|]. intros o.
  apply preserves_bind; [by apply Fifo_update_object|]. intros _.
  apply preserves_bind; [by apply Fifo_emit|]. intros _.
  apply Fifo_job_start.
Qed.

Lemma Fifo_decrement obj : preserves Fifo (decrement_num_active_operations obj).
Proof.
  intros s n s' HF Hrun. unfold decrement_num_active_operations in Hrun.
  apply bind_inv in Hrun as (o & s1 & Hd & Hrun).
  apply bind_inv in Hrun as ([] & s2 & Hstore & Hrun).
  apply bind_inv in Hrun as ([] & s3 & Hemit & Hret).
  injection Hret as _ <-.
  eapply (Fifo_emit (EDecrement obj)); [done| |exact Hemit].
  eapply (Fifo_update_object obj
            (with_num_active_operations (guint_wrap (num_active_operations o - 1))));
    [done | exact HF |].
  unfold update_object. rewrite (bind_Ok _ _ _ _ _ Hd). exact Hstore.
Qed.

Lemma Fifo_operation_free op : preserves Fifo (gum_v8_object_operation_free op).
Proof.
  apply preserves_bind; [apply preserves_deref_operation|]. intros o.
  apply preserves_bind; [apply preserves_deref_object|]. intros _.
  apply preserves_bind; [apply preserves_g_assert|]. intros _.
  apply preserves_bind.
  { destruct (cleanup o); [by apply Fifo_emit | apply preserves_ret]. }
  intros _.
  apply preserves_bind; [by apply Fifo_emit|]. intros _.
  apply preserves_bind; [by apply Fifo_emit|]. intros _.
  apply preserves_bind; [apply Fifo_decrement|]. intros n.
  apply preserves_bind.
  { destruct (bool_decide (n = 0)); [|apply preserves_ret].
    apply preserves_bind; [apply Fifo_pop_head|].
    intros [next|]; [apply Fifo_schedule | apply preserves_ret]. }
  intros _.
  apply preserves_bind; [apply Fifo_unpin|]. intros _.
  apply preserves_bind; [by apply Fifo_modify_other|]. intros _.
  by apply Fifo_emit.
Qed.

Lemma Fifo_try_schedule self :
  preserves Fifo (gum_v8_object_operation_try_schedule_when_idle self).
Proof.
  apply preserves_bind; [apply preserves_deref_operation|]. intros o.
  destruct (pending_dependencies o); [|apply preserves_ret].
  apply preserves_bind; [apply preserves_deref_object|]. intros obj.
  destruct (bool_decide _); [apply Fifo_schedule | apply Fifo_push_tail].
Qed.

Lemma Fifo_schedule_when_idle depth : ∀ self deps,
  preserves Fifo (schedule_when_idle depth self deps).
Proof.
  induction depth as [|depth IH]; intros self deps; simpl;
    [apply preserves_fail|].
  apply preserves_bind; [|intros _; apply Fifo_try_schedule].
  destruct deps as [deps|]; [|apply preserves_ret].
  apply preserves_for_each. intros dep.
  apply preserves_bind; [apply preserves_deref_object|]. intros d.
  destruct (bool_decide _); [|apply preserves_ret].
  apply preserves_bind; [apply Fifo_operation_new|]. intros op.
  apply preserves_bind; [apply Fifo_update_operation|]. intros _.
  apply preserves_bind; [apply Fifo_update_operation|]. intros _.
  apply IH.
Qed.

Lemma Fifo_perform self :
  preserves Fifo (gum_v8_try_schedule_if_idle_operation_perform self).
Proof.
  apply preserves_bind; [apply preserves_deref_operation|]. intros p.
  destruct (blocked_operation p) as [op|]; [|apply preserves_fail].
  apply preserves_bind; [apply Fifo_update_operation|]. intros _.
  apply preserves_bind; [apply Fifo_try_schedule|]. intros _.
  apply Fifo_operation_free.
Qed.

Lemma Fifo_module_free op : preserves Fifo (gum_v8_module_operation_free op).
Proof.
  apply preserves_bind; [apply preserves_deref_module_operation|]. intros o.
  apply preserves_bind.
  { destruct (mcleanup o); [by apply Fifo_emit | apply preserves_ret]. }
  intros _.
  apply preserves_bind; [by apply Fifo_emit|]. intros _.
  apply preserves_bind; [apply Fifo_unpin|]. intros _.
  apply preserves_bind; [by apply Fifo_modify_other|]. intros _.
  by apply Fifo_emit.
Qed.

Lemma Fifo_exec e : preserves Fifo (exec e).
Proof.
  destruct e; simpl.
  - apply preserves_bind; [apply Fifo_manager_add | intros _; apply preserves_ret].
  - apply preserves_bind; [apply Fifo_operation_new | intros op; apply Fifo_schedule].
  - apply preserves_bind; [apply Fifo_operation_new|]. intros op.
    apply Fifo_schedule_when_idle.
  - apply preserves_bind; [apply preserves_deref_operation|]. intros o.
    destruct (blocked_operation o); [apply Fifo_perform | apply Fifo_operation_free].
  - apply preserves_bind.
    + apply preserves_bind; [apply Fifo_alloc|]. intros op.
      apply preserves_bind; [apply Fifo_store_module_operation|]. intros _.
      apply preserves_bind; [apply Fifo_pin | intros _; apply preserves_ret].
    + intros op.
      apply preserves_bind; [apply preserves_deref_module_operation|]. intros o.
      apply preserves_bind; [apply Fifo_store_module_operation|]. intros _.
      by apply Fifo_emit.
  - apply Fifo_module_free.
  - apply Fifo_on_weak_notify.
  - apply preserves_bind; [apply Fifo_cancel | intros _; apply preserves_ret].
  - apply Fifo_flush.
  - apply Fifo_manager_free.
Qed.

Lemma Fifo_initial pins : Fifo (initial_state pins).
Proof.
  split; [done|]. intros p [v Hp]. unfold initial_state in Hp; simpl in Hp.
  by rewrite lookup_empty in Hp.
Qed.

Lemma reachable_Fifo G pins s : reachable G pins s → Fifo s.
Proof.
  induction 1 as [|s e s' _ IH _ Hexec]; [apply Fifo_initial|].
  by eapply Fifo_exec.
Qed.

(** ** Properties of whole schedules *)

Lemma state_after_reachable evs s :
  run valid evs (initial_state 0) = Some (Ok s) → reachable valid 0 s.
Proof. intros H. eapply run_reachable; [apply reachable_init | exact H]. Qed.

(** C2, as the code has it.  In every schedule in which a handle is
    registered only while it is absent from the registry and the manager
    is torn down only when no operation is outstanding, every event runs
    to completion (no assertion fires), and every object that the event
    destroys has no active operation and an empty queue. *)
Theorem destruction_only_when_idle pins s e :
  reachable valid pins s →
  valid e s = true →
  ∃ s', exec e s = Ok (tt, s') ∧
        ∀ p o, objects s !! p = Some o → objects s' !! p = None →
               num_active_operations o = 0 ∧ pending_operations o = [].
Proof.
  intros Hs He.
  destruct (step_ok _ _ _ (reachable_Inv _ _ Hs) He) as (s' & Hrun & _ & Hd).
  exists s'. split; [exact Hrun | exact Hd].
Qed.

Lemma destruction_only_when_idle_witness :
  ∃ s', exec (EvFinalize 1) idle_example = Ok (tt, s') ∧
        ∀ p o, objects idle_example !! p = Some o → objects s' !! p = None →
               num_active_operations o = 0 ∧ pending_operations o = [].
Proof.
  apply (destruction_only_when_idle 0 idle_example (EvFinalize 1)).
  - apply (state_after_reachable [EvRegister 7; EvSchedule 1 true; EvComplete 2]).
    vm_compute. reflexivity.
  - vm_compute. reflexivity.
Defined.

(** C2 as stated does not hold.  Register handle 7, schedule an
    operation on its object, and register handle 7 again: every event is
    one the code accepts, and the third one hands object 1 to its
    destructor while its counter is 1, so the assertion fires.  The same
    happens when the manager is torn down instead. *)
Lemma destruction_while_busy_counterexample :
  ∃ s, run enabled [EvRegister 7; EvSchedule 1 false] (initial_state 0) = Some (Ok s) ∧
       num_active_operations <$> objects s !! 1%positive = Some 1 ∧
       enabled (EvRegister 7) s = true ∧
       exec (EvRegister 7) s = Abort AssertionFailed ∧
       enabled EvTeardown s = true ∧
       exec EvTeardown s = Abort AssertionFailed.
Proof.
  eexists. split; [vm_compute; reflexivity|].
  repeat split; vm_compute; reflexivity.
Qed.

Lemma NoDup_filter_bool {A} (f : A → bool) (l : list A) :
  NoDup l → NoDup (List.filter f l).
Proof.
  induction l as [|x l IH]; simpl; [done|].
  intros H. apply NoDup_cons in H as [Hx Hl].
  destruct (f x); [|auto]. apply NoDup_cons. split; [|auto].
  intros Hin. apply Hx. apply list_elem_of_In in Hin.
  apply List.filter_In in Hin as [Hin _]. by apply list_elem_of_In.
Qed.

Lemma blocked_waits pins s q op d pr :
  Inv pins None s →
  operations s !! q = Some op →
  operations s !! d = Some pr →
  blocked_operation pr = Some q →
  d ∈ pending_dependencies op ∧ job op = JobCreated ∧ q ∉ queue_of s (object op).
Proof.
  intros HI Hq Hd Hb.
  destruct (inv_probe _ _ _ HI d pr q Hd Hb) as [_ Hl].
  destruct Hl as (op' & Hq' & Hin); [done|].
  rewrite Hq in Hq'. injection Hq' as <-.
  assert (Hne : pending_dependencies op ≠ []).
  { intros E. rewrite E in Hin. by apply elem_of_nil in Hin. }
  split; [done|]. split; [by eapply inv_blocked|].
  unfold queue_of. destruct (objects s !! object op) as [o|] eqn:Ho;
    [|apply not_elem_of_nil].
  intros Hqin. destruct (inv_queue _ _ _ HI _ o q Ho Hqin) as (op' & Hq' & _ & _ & E).
  rewrite Hq in Hq'. injection Hq' as <-. done.
Qed.

(** C3. Scheduling an operation when idle with dependencies [D] creates
    one probe for each entry of [D] whose counter is not zero, in order,
    at the next free addresses, each scoped to its dependency and blocking
    the new operation; no other probe blocks it, a dependency listed once
    is probed once, and the operation's pending dependencies are exactly
    these probes.  In every state of every valid schedule, an operation
    that a live (unresolved) probe still blocks is neither started nor
    queued, whatever the order in which its other probes resolved. *)
Theorem barrier_is_and_join pins s :
  reachable valid pins s →
  (∀ obj c D,
     valid (EvScheduleWhenIdle obj c (Some D)) s = true →
     let self := next_ptr s in
     let probed_deps := List.filter (busy s) D in
     let probes := ptr_seq (Pos.succ self) (length probed_deps) in
     ∃ s' selfop,
       exec (EvScheduleWhenIdle obj c (Some D)) s = Ok (tt, s') ∧
       Forall2 (λ dep d, operations s' !! d = Some (probe_operation dep self))
         probed_deps probes ∧
       (∀ d pr, operations s' !! d = Some pr →
                blocked_operation pr = Some self → d ∈ probes) ∧
       (NoDup D → NoDup probed_deps) ∧
       operations s' !! self = Some selfop ∧
       pending_dependencies selfop = rev probes ∧
       (probes ≠ [] → job selfop = JobCreated ∧ self ∉ queue_of s' (object selfop))) ∧
  (∀ q op d pr,
     operations s !! q = Some op →
     operations s !! d = Some pr →
     blocked_operation pr = Some q →
     d ∈ pending_dependencies op ∧ job op = JobCreated ∧
     q ∉ queue_of s (object op)).
Proof.
  intros Hs. pose proof (reachable_Inv _ _ Hs) as HI. split.
  - intros obj c D Hvalid self probed_deps probes.
    unfold valid in Hvalid. apply andb_true_iff in Hvalid as [Hen _].
    simpl in Hen. apply andb_true_iff in Hen as [Hobj Hdeps].
    apply bool_decide_eq_true in Hobj.
    destruct (exec_schedule_when_idle _ _ _ c (Some D) HI Hobj)
      as (s' & Hrun & HI' & _ & Hprobes & selfop & Hself & Hpd & Hsame).
    { apply Forall_forall. intros dep Hin.
      rewrite forallb_forall in Hdeps. apply list_elem_of_In in Hin.
      specialize (Hdeps dep Hin). by apply bool_decide_eq_true in Hdeps. }
    exists s', selfop. split; [exact Hrun|]. split; [exact Hprobes|].
    split; [|split; [|split; [exact Hself | split; [exact Hpd|]]]].
    + intros d pr Hd Hb.
      destruct (blocked_waits _ _ _ _ _ _ HI' Hself Hd Hb) as (Hin & _).
      simpl in Hpd. rewrite Hpd in Hin.
      apply list_elem_of_In. apply list_elem_of_In in Hin. by apply in_rev.
    + intros Hnd. by apply NoDup_filter_bool.
    + intros Hne. simpl in Hsame. rewrite (Hsame Hne) in *. split; [done|].
      unfold queue_of. simpl.
      destruct (objects s' !! obj) as [o|] eqn:Ho; [|apply not_elem_of_nil].
      intros Hqin.
      destruct (inv_queue _ _ _ HI' _ o _ Ho Hqin) as (op' & Hq' & _ & _ & E).
      unfold self in Hq'. rewrite Hself in Hq'. injection Hq' as <-. simpl in E.
      apply Hne. apply (f_equal (@rev _)) in E. by rewrite rev_involutive in E.
  - intros q op d pr. by apply (blocked_waits pins).
Qed.

Lemma barrier_is_and_join_witness :
  (∃ s' selfop,
     exec (EvScheduleWhenIdle 2 true (Some [1%positive])) two_objects_example
       = Ok (tt, s') ∧
     operations s' !! 5%positive = Some (probe_operation 1 4) ∧
     operations s' !! 4%positive = Some selfop ∧
     pending_dependencies selfop = [5%positive] ∧
     job selfop = JobCreated) ∧
  (∀ q op d pr,
     operations barrier_example !! q = Some op →
     operations barrier_example !! d = Some pr →
     blocked_operation pr = Some q →
     d ∈ pending_dependencies op ∧ job op = JobCreated ∧
     q ∉ queue_of barrier_example (object op)).
Proof.
  split.
  - destruct (barrier_is_and_join 0 two_objects_example) as [Ha _].
    { apply (state_after_reachable [EvRegister 7; EvRegister 8; EvSchedule 1 false]).
      vm_compute. reflexivity. }
    destruct (Ha 2%positive true [1%positive])
      as (s' & selfop & Hrun & Hprobes & _ & _ & Hself & Hpd & Hjob);
      [vm_compute; reflexivity|].
    exists s', selfop. split; [exact Hrun|].
    apply Forall2_cons_1 in Hprobes as [Hprobe _].
    split; [exact Hprobe|]. split; [exact Hself|]. split; [exact Hpd|].
    apply Hjob. discriminate.
  - apply (barrier_is_and_join 0 barrier_example).
    apply (state_after_reachable
             [EvRegister 7; EvRegister 8; EvSchedule 1 false;
              EvScheduleWhenIdle 2 true (Some [1%positive])]).
    vm_compute. reflexivity.
Defined.

(** ** A popped operation is started at once *)

Lemma pops_scheduled_app t1 t2 :
  pops_scheduled t1 = true → pops_scheduled t2 = true →
  pops_scheduled (t1 ++ t2) = true.
Proof.
  induction t1 as [|e t1 IH]; intros H1 H2; [done|].
  destruct e; simpl in *; auto.
  apply andb_true_iff in H1 as [Hhead Hrest].
  apply andb_true_iff. split; [|auto].
  destruct t1 as [|[] [|[] t1]]; simpl in *; done.
Qed.

Lemma keeps_trace_bind {A B} (m : M A) (k : A → M B) :
  keeps_trace m → (∀ a, keeps_trace (k a)) → keeps_trace (bind m k).
Proof.
  intros Hm Hk s b s' Hrun. apply bind_inv in Hrun as (a & s1 & H1 & H2).
  rewrite (Hk _ _ _ _ H2). by eapply Hm.
Qed.

Lemma keeps_trace_modify (f : State → State) :
  (∀ s, trace (f s) = trace s) → keeps_trace (modify f).
Proof. intros Hf s [] s' [= <-]. apply Hf. Qed.

Lemma keeps_trace_deref_object p : keeps_trace (deref_object p).
Proof.
  intros s a s'. unfold deref_object. destruct (objects s !! p); [|done].
  by intros [= _ <-].
Qed.

Lemma keeps_trace_deref_operation p : keeps_trace (deref_operation p).
Proof.
  intros s a s'. unfold deref_operation. destruct (operations s !! p); [|done].
  by intros [= _ <-].
Qed.

Lemma keeps_trace_update_object p f : keeps_trace (update_object p f).
Proof.
  apply keeps_trace_bind; [apply keeps_trace_deref_object|].
  intros o. by apply keeps_trace_modify.
Qed.

Lemma keeps_trace_update_operation p f : keeps_trace (update_operation p f).
Proof.
  apply keeps_trace_bind; [apply keeps_trace_deref_operation|].
  intros o. by apply keeps_trace_modify.
Qed.

Lemma PS_keeps_trace {A} (m : M A) : keeps_trace m → preserves PopsScheduled m.
Proof. intros Hm s a s' HP Hrun. unfold PopsScheduled. by rewrite (Hm _ _ _ Hrun). Qed.

Lemma PS_emit e :
  (∀ p x, e ≠ EPopHead p x) → preserves PopsScheduled (emit e).
Proof.
  intros He. apply preserves_modify. intros s HP. unfold PopsScheduled. simpl.
  apply pops_scheduled_app; [done|]. destruct e; try done. by destruct (He obj op).
Qed.

Create HintDb pops discriminated.

Lemma PS_modify f : (∀ s, trace (f s) = trace s) → preserves PopsScheduled (modify f).
Proof. intros Hf. by apply PS_keeps_trace, keeps_trace_modify. Qed.

Lemma PS_deref_object p : preserves PopsScheduled (deref_object p).
Proof. apply preserves_deref_object. Qed.

Lemma PS_deref_operation p : preserves PopsScheduled (deref_operation p).
Proof. apply preserves_deref_operation. Qed.

Lemma PS_deref_module_operation p : preserves PopsScheduled (deref_module_operation p).
Proof. apply preserves_deref_module_operation. Qed.

Lemma PS_hash_table : preserves PopsScheduled hash_table.
Proof. apply preserves_hash_table. Qed.

Lemma PS_g_assert b : preserves PopsScheduled (g_assert b).
Proof. apply preserves_g_assert. Qed.

Lemma PS_update_object p f : preserves PopsScheduled (update_object p f).
Proof. apply PS_keeps_trace, keeps_trace_update_object. Qed.

Lemma PS_update_operation p f : preserves PopsScheduled (update_operation p f).
Proof. apply PS_keeps_trace, keeps_trace_update_operation. Qed.

Lemma PS_store_object p o : preserves PopsScheduled (store_object p o).
Proof. by apply PS_modify. Qed.

Lemma PS_store_operation p o : preserves PopsScheduled (store_operation p o).
Proof. by apply PS_modify. Qed.

Lemma PS_store_module_operation p o :
  preserves PopsScheduled (store_module_operation p o).
Proof. by apply PS_modify. Qed.

Lemma PS_set_hash_table t : preserves PopsScheduled (set_hash_table t).
Proof. by apply PS_modify. Qed.

Lemma PS_alloc : preserves PopsScheduled g_slice_alloc.
Proof. intros s a s' HP [= _ <-]. done. Qed.

#[local] Hint Resolve PS_deref_object PS_deref_operation PS_deref_module_operation
  PS_hash_table PS_g_assert PS_update_object PS_update_operation PS_store_object
  PS_store_operation PS_store_module_operation PS_set_hash_table PS_alloc : pops.

#[local] Hint Extern 1 (preserves PopsScheduled (emit _)) =>
  apply PS_emit; discriminate : pops.
#[local] Hint Extern 1 (preserves PopsScheduled (modify _)) =>
  apply PS_modify; reflexivity : pops.

(** Splits a computation along its binds, loops and branches, closing
    each piece with the lemmas known for the functions it calls. *)
Ltac preserves_auto db :=
  repeat first
    [ solve [eauto with db]
    | apply preserves_ret
    | apply preserves_fail
    | apply preserves_for_each; intros ?
    | match goal with
      | |- preserves _ (match ?x with _ => _ end) => destruct x
      end
    | apply preserves_bind; [|intros ?] ].

Lemma PS_schedule self : preserves PopsScheduled (_gum_v8_object_operation_schedule self).
Proof.
  unfold _gum_v8_object_operation_schedule, gum_script_job_start_on_js_thread.
  preserves_auto pops.
Qed.

(** The pop and the start that follows it, taken together. *)
Lemma PS_pop_and_schedule obj :
  preserves PopsScheduled
    (let! next := g_queue_pop_head obj in
     match next with
     | Some next => _gum_v8_object_operation_schedule next
     | None => ret tt
     end).
Proof.
  intros s [] s' HP Hrun.
  apply bind_inv in Hrun as (next & s1 & Hpop & Hrun).
  unfold g_queue_pop_head in Hpop. unfold_monad.
  destruct (objects s !! obj) as [o|]; [|done].
  destruct (pending_operations o) as [|x rest].
  { injection Hpop as <- <-. by injection Hrun as <-. }
  injection Hpop as <- <-.
  unfold _gum_v8_object_operation_schedule, gum_script_job_start_on_js_thread in Hrun.
  unfold_monad. simpl in Hrun.
  destruct (operations s !! x) as [xo|]; [|done]. simpl in Hrun.
  destruct (_ !! object xo) as [xobj|]; [|done]. simpl in Hrun.
  destruct (operations s !! x) as [xo'|]; [|done].
  injection Hrun as <-. unfold PopsScheduled. simpl.
  rewrite <- !app_assoc. apply pops_scheduled_app; [done|].
  simpl. by rewrite bool_decide_eq_true_2.
Qed.

#[local] Hint Resolve PS_schedule PS_pop_and_schedule : pops.

Lemma PS_operation_free op : preserves PopsScheduled (gum_v8_object_operation_free op).
Proof.
  unfold gum_v8_object_operation_free, decrement_num_active_operations,
    _gum_v8_core_unpin.
  preserves_auto pops.
Qed.

Lemma PS_try_schedule self :
  preserves PopsScheduled (gum_v8_object_operation_try_schedule_when_idle self).
Proof.
  unfold gum_v8_object_operation_try_schedule_when_idle, g_queue_push_tail.
  preserves_auto pops.
Qed.

Lemma PS_operation_new obj c :
  preserves PopsScheduled (_gum_v8_object_operation_new obj c).
Proof.
  unfold _gum_v8_object_operation_new, _gum_v8_core_pin. preserves_auto pops.
Qed.

Lemma PS_object_free p : preserves PopsScheduled (gum_v8_object_free p).
Proof. unfold gum_v8_object_free. preserves_auto pops. Qed.

#[local] Hint Resolve PS_operation_free PS_try_schedule PS_operation_new
  PS_object_free : pops.

Lemma PS_schedule_when_idle depth : ∀ self deps,
  preserves PopsScheduled (schedule_when_idle depth self deps).
Proof.
  induction depth as [|depth IH]; intros self deps; simpl;
    [apply preserves_fail|].
  preserves_auto pops.
Qed.

#[local] Hint Resolve PS_schedule_when_idle : pops.

Lemma PS_exec e : preserves PopsScheduled (exec e).
Proof.
  destruct e; unfold exec.
  all: unfold _gum_v8_object_manager_add, g_hash_table_insert,
         _gum_v8_object_operation_schedule_when_idle,
         gum_v8_try_schedule_if_idle_operation_perform,
         gum_v8_object_operation_finish,
         _gum_v8_module_operation_new, gum_v8_module_operation_schedule,
         gum_v8_module_operation_finish, gum_v8_module_operation_free,
         gum_v8_object_on_weak_notify, g_hash_table_remove,
         gum_v8_object_manager_cancel, gum_v8_object_manager_flush,
         gum_v8_object_manager_free, g_cancellable_cancel_object,
         g_cancellable_cancel_manager, _gum_v8_core_pin, _gum_v8_core_unpin.
  all: preserves_auto pops.
Qed.

Lemma reachable_PopsScheduled G pins s : reachable G pins s → PopsScheduled s.
Proof.
  induction 1 as [|s e s' _ IH _ Hexec]; [done|]. by eapply PS_exec.
Qed.

(** Two levels of nesting are all that
    [_gum_v8_object_operation_schedule_when_idle] uses: a deeper bound
    gives the same computation. *)
Lemma schedule_when_idle_depth n self deps :
  schedule_when_idle (2 + n) self deps = schedule_when_idle 2 self deps.
Proof. reflexivity. Qed.

(** C6. On every object the pending queue is first in, first out, in
    every state of every schedule: the operations popped so far are, in
    order, the first ones that were pushed, and the queue holds the rest
    in arrival order.  Every pop is followed at once by the start of the
    popped operation.  So when the [j]-th operation pushed on an object
    has been popped, each operation pushed before it was popped (and
    started) before it. *)
Theorem queue_is_fifo G pins s p :
  reachable G pins s →
  pushed (trace s) p = popped (trace s) p ++ queue_of s p ∧
  pops_scheduled (trace s) = true ∧
  (∀ i j B, (i < j)%nat →
     popped (trace s) p !! j = Some B →
     pushed (trace s) p !! j = Some B ∧
     ∃ A, pushed (trace s) p !! i = Some A ∧ popped (trace s) p !! i = Some A).
Proof.
  intros Hs. destruct (reachable_Fifo _ _ _ Hs) as [Hq _].
  split; [apply Hq|]. split; [by apply (reachable_PopsScheduled G pins)|].
  intros i j B Hij Hj. rewrite Hq.
  split; [by apply lookup_app_l_Some|].
  destruct (lookup_lt_is_Some_2 (popped (trace s) p) i) as [A HA].
  { apply lookup_lt_Some in Hj. lia. }
  exists A. split; [by apply lookup_app_l_Some | done].
Qed.

Lemma queue_is_fifo_witness :
  pushed (trace fifo_example) 1 = popped (trace fifo_example) 1 ++ queue_of fifo_example 1 ∧
  pushed (trace fifo_example) 1 = [3%positive; 4%positive] ∧
  popped (trace fifo_example) 1 = [3%positive; 4%positive].
Proof.
  destruct (queue_is_fifo valid 0 fifo_example 1%positive) as [H _].
  - apply (state_after_reachable
             [EvRegister 7; EvSchedule 1 true;
              EvScheduleWhenIdle 1 false None; EvScheduleWhenIdle 1 false None;
              EvComplete 2; EvComplete 3]).
    vm_compute. reflexivity.
  - split; [exact H|]. split; vm_compute; reflexivity.
Defined.

(** C10. A probe is scheduled through the call without a [dependencies]
    argument, which only tries to schedule it.  In every state of every
    valid schedule a probe has no pending dependencies, no probe waits
    for a probe, and the operation a probe blocks is an operation of the
    client, not a probe. *)
Theorem probes_are_leaves pins s d pr q :
  reachable valid pins s →
  operations s !! d = Some pr →
  blocked_operation pr = Some q →
  schedule_when_idle 1 d None = (ret tt ;;; gum_v8_object_operation_try_schedule_when_idle d) ∧
  pending_dependencies pr = [] ∧
  (∀ d' pr', operations s !! d' = Some pr' → blocked_operation pr' ≠ Some d) ∧
  (∃ op, operations s !! q = Some op ∧ blocked_operation op = None).
Proof.
  intros Hs Hd Hb. pose proof (reachable_Inv _ _ Hs) as HI.
  destruct (inv_probe _ _ _ HI d pr q Hd Hb) as [Hnil Hl].
  destruct Hl as (op & Hq & Hin); [done|].
  split; [reflexivity|]. split; [exact Hnil|]. split.
  - intros d' pr' Hd' Hb'.
    destruct (blocked_waits _ _ _ _ _ _ HI Hd Hd' Hb') as [Hin' _].
    rewrite Hnil in Hin'. by apply elem_of_nil in Hin'.
  - exists op. split; [exact Hq|].
    destruct (blocked_operation op) as [q'|] eqn:Hbo; [|done].
    destruct (inv_probe _ _ _ HI q op q' Hq Hbo) as [E _].
    rewrite E in Hin. by apply elem_of_nil in Hin.
Qed.

Lemma probes_are_leaves_witness :
  pending_dependencies (probe_operation 1 4) = [] ∧
  (∀ d' pr', operations barrier_example !! d' = Some pr' →
             blocked_operation pr' ≠ Some 5%positive) ∧
  (∃ op, operations barrier_example !! 4%positive = Some op ∧
         blocked_operation op = None).
Proof.
  destruct (probes_are_leaves 0 barrier_example 5%positive (probe_operation 1 4)
              4%positive) as (_ & H1 & H2 & H3).
  - apply (state_after_reachable
             [EvRegister 7; EvRegister 8; EvSchedule 1 false;
              EvScheduleWhenIdle 2 true (Some [1%positive])]).
    vm_compute. reflexivity.
  - vm_compute. reflexivity.
  - reflexivity.
  - split; [exact H1|]. split; [exact H2 | exact H3].
Defined.

(** ** One pin per live operation, in every schedule *)

Create HintDb pins discriminated.

Lemma Pin_frame pins live s s' :
  PinInv pins live s →
  usage_count s' = usage_count s →
  operations s' = operations s →
  module_operations s' = module_operations s →
  (next_ptr s ≤ next_ptr s')%positive →
  PinInv pins live s'.
Proof.
  intros (Hu & Hfo & Hfm & Hl) Hu' Ho' Hm' Hn.
  unfold PinInv. rewrite Hu', Ho', Hm'. split; [done|].
  split; [|split; [|done]].
  - intros p Hp. specialize (Hfo p Hp). lia.
  - intros p Hp. specialize (Hfm p Hp). lia.
Qed.

Lemma Pin_modify pins live (f : State → State) :
  (∀ s, usage_count (f s) = usage_count s ∧ operations (f s) = operations s ∧
        module_operations (f s) = module_operations s ∧
        next_ptr (f s) = next_ptr s) →
  preserves (PinInv pins live) (modify f).
Proof.
  intros Hf. apply preserves_modify. intros s HP.
  destruct (Hf s) as (? & ? & ? & Hn). apply (Pin_frame _ _ s); try done.
  rewrite Hn. lia.
Qed.

Lemma Pin_emit pins live e : preserves (PinInv pins live) (emit e).
Proof. by apply Pin_modify. Qed.

Lemma Pin_store_object pins live p o : preserves (PinInv pins live) (store_object p o).
Proof. by apply Pin_modify. Qed.

Lemma Pin_set_hash_table pins live t : preserves (PinInv pins live) (set_hash_table t).
Proof. by apply Pin_modify. Qed.

Lemma Pin_update_object pins live p f : preserves (PinInv pins live) (update_object p f).
Proof.
  apply preserves_bind; [apply preserves_deref_object|].
  intros o. apply Pin_store_object.
Qed.

Lemma Pin_alloc pins live : preserves (PinInv pins live) g_slice_alloc.
Proof.
  intros s a s' HP [= _ <-]. apply (Pin_frame _ _ s); try done. simpl. lia.
Qed.

Lemma Pin_update_operation pins live p f :
  preserves (PinInv pins live) (update_operation p f).
Proof.
  intros s [] s' (Hu & Hfo & Hfm & Hl) Hrun. unfold update_operation in Hrun.
  unfold_monad. destruct (operations s !! p) as [o|] eqn:Hp; [|done].
  injection Hrun as <-. unfold PinInv; simpl.
  rewrite map_size_insert_Some by eauto. split; [done|].
  split; [|split; [done|]].
  - intros q Hq. apply is_Some_insert_live in Hq; eauto.
  - intros q Hq. apply is_Some_insert_live; eauto.
Qed.

#[local] Hint Resolve preserves_deref_object preserves_deref_operation
  preserves_deref_module_operation preserves_hash_table preserves_g_assert
  Pin_emit Pin_store_object Pin_set_hash_table Pin_update_object Pin_alloc
  Pin_update_operation : pins.

#[local] Hint Extern 1 (preserves (PinInv _ _) (modify _)) =>
  apply Pin_modify; intros ?; repeat split : pins.

Lemma Pin_schedule pins live self :
  preserves (PinInv pins live) (_gum_v8_object_operation_schedule self).
Proof.
  unfold _gum_v8_object_operation_schedule, gum_script_job_start_on_js_thread.
  preserves_auto pins.
Qed.

#[local] Hint Resolve Pin_schedule : pins.

Lemma Pin_try_schedule pins live self :
  preserves (PinInv pins live) (gum_v8_object_operation_try_schedule_when_idle self).
Proof.
  unfold gum_v8_object_operation_try_schedule_when_idle, g_queue_push_tail.
  preserves_auto pins.
Qed.

Lemma Pin_object_free pins live p : preserves (PinInv pins live) (gum_v8_object_free p).
Proof. unfold gum_v8_object_free. preserves_auto pins. Qed.

(** Creation: the record is stored at a fresh address and one pin is taken. *)
Lemma Pin_operation_new pins live obj c :
  preserves (PinInv pins live) (_gum_v8_object_operation_new obj c).
Proof.
  intros s a s' (Hu & Hfo & Hfm & Hl) Hrun.
  unfold _gum_v8_object_operation_new, _gum_v8_core_pin in Hrun.
  unfold_monad. simpl in Hrun. destruct (objects s !! obj); [|done].
  injection Hrun as <- <-. unfold PinInv; simpl.
  rewrite map_size_insert_None by (by apply fresh_not_live).
  split; [lia|]. split; [|split].
  - intros p Hp. apply lookup_insert_is_Some in Hp as [<-|[_ Hp]]; [lia|].
    specialize (Hfo p Hp). lia.
  - intros p Hp. specialize (Hfm p Hp). lia.
  - intros q Hq. rewrite lookup_insert_is_Some'. right. eauto.
Qed.

#[local] Hint Resolve Pin_try_schedule Pin_object_free Pin_operation_new : pins.

(** [m] takes states that satisfy [P] to states that satisfy [Q]. *)
Lemma transforms_bind (P R Q : State → Prop) {A B} (m : M A) (k : A → M B) :
  (∀ s a s', P s → m s = Ok (a, s') → R s') →
  (∀ a s b s', R s → k a s = Ok (b, s') → Q s') →
  ∀ s b s', P s → bind m k s = Ok (b, s') → Q s'.
Proof.
  intros Hm Hk s b s' HP Hrun. apply bind_inv in Hrun as (a & s1 & H1 & H2).
  eapply Hk; [|exact H2]. eapply Hm; [exact HP | exact H1].
Qed.

(** Completion: one pin is released and the record leaves the store. *)
Lemma Pin_free_tail pins op s a s' :
  PinInv pins (Some op) s →
  (_gum_v8_core_unpin ;;;
   modify (λ s, set_operations (delete op (operations s)) s) ;;;
   emit (ESliceFree op)) s = Ok (a, s') →
  PinInv pins None s'.
Proof.
  intros (Hu & Hfo & Hfm & Hl) Hrun. unfold _gum_v8_core_unpin in Hrun.
  unfold_monad. injection Hrun as _ <-. unfold PinInv; simpl.
  destruct (Hl op eq_refl) as [o Ho].
  rewrite map_size_delete_Some by eauto.
  assert (size (operations s) ≠ 0%nat) by (by eapply map_size_ne_0_lookup_2).
  split; [lia|]. split; [|split; [done|done]].
  intros p [v Hp]. apply lookup_delete_Some in Hp as [_ Hp]. eauto.
Qed.

Lemma Pin_operation_free pins op :
  preserves (PinInv pins None) (gum_v8_object_operation_free op).
Proof.
  unfold preserves, gum_v8_object_operation_free.
  apply (transforms_bind _ (PinInv pins (Some op))).
  { intros s o s' (? & ? & ? & _) Hderef. unfold deref_operation in Hderef.
    destruct (operations s !! op) as [o'|] eqn:Hop; [|done].
    injection Hderef as <- <-. repeat split; try done. intros q [= <-]. eauto. }
  intros o.
  do 7 (apply (transforms_bind _ (PinInv pins (Some op)));
        [ match goal with
          | |- ∀ s a s', _ s → ?m s = Ok (a, s') → _ s' =>
              change (preserves (PinInv pins (Some op)) m)
          end;
          unfold decrement_num_active_operations, g_queue_pop_head;
          solve [preserves_auto pins]
        | intros ?; cbv beta ]).
  apply Pin_free_tail.
Qed.

Lemma Pin_module_new pins c :
  preserves (PinInv pins None) (_gum_v8_module_operation_new c).
Proof.
  intros s a s' (Hu & Hfo & Hfm & Hl) Hrun.
  unfold _gum_v8_module_operation_new, _gum_v8_core_pin in Hrun.
  unfold_monad. injection Hrun as <- <-. unfold PinInv; simpl.
  rewrite map_size_insert_None by (by apply fresh_not_live).
  split; [lia|]. split; [|split; [|done]].
  - intros p Hp. specialize (Hfo p Hp). lia.
  - intros p Hp. apply lookup_insert_is_Some in Hp as [<-|[_ Hp]]; [lia|].
    specialize (Hfm p Hp). lia.
Qed.

Lemma Pin_module_schedule pins op :
  preserves (PinInv pins None) (gum_v8_module_operation_schedule op).
Proof.
  intros s [] s' (Hu & Hfo & Hfm & Hl) Hrun.
  unfold gum_v8_module_operation_schedule in Hrun. unfold_monad.
  destruct (module_operations s !! op) as [o|] eqn:Hop; [|done].
  injection Hrun as <-. unfold PinInv; simpl.
  rewrite map_size_insert_Some by eauto. split; [done|].
  split; [done|]. split; [|done].
  intros q Hq. apply is_Some_insert_live in Hq; eauto.
Qed.

Lemma Pin_module_free pins op :
  preserves (PinInv pins None) (gum_v8_module_operation_free op).
Proof.
  intros s [] s' (Hu & Hfo & Hfm & Hl) Hrun.
  unfold gum_v8_module_operation_free, _gum_v8_core_unpin in Hrun. unfold_monad.
  destruct (module_operations s !! op) as [o|] eqn:Hop; [|done].
  assert (size (module_operations s) ≠ 0%nat) by (by eapply map_size_ne_0_lookup_2).
  destruct (mcleanup o); injection Hrun as <-; unfold PinInv; simpl.
  all: rewrite map_size_delete_Some by eauto.
  all: split; [lia|]; split; [done|]; split; [|done].
  all: intros p [v Hp]; apply lookup_delete_Some in Hp as [_ Hp]; eauto.
Qed.

#[local] Hint Resolve Pin_operation_free Pin_module_new Pin_module_schedule
  Pin_module_free : pins.

Lemma Pin_schedule_when_idle pins depth : ∀ self deps,
  preserves (PinInv pins None) (schedule_when_idle depth self deps).
Proof.
  induction depth as [|depth IH]; intros self deps; simpl;
    [apply preserves_fail|].
  preserves_auto pins.
Qed.

#[local] Hint Resolve Pin_schedule_when_idle : pins.

Lemma Pin_exec pins e : preserves (PinInv pins None) (exec e).
Proof.
  destruct e; unfold exec.
  all: unfold _gum_v8_object_manager_add, g_hash_table_insert,
         _gum_v8_object_operation_schedule_when_idle,
         gum_v8_try_schedule_if_idle_operation_perform,
         gum_v8_object_operation_finish, gum_v8_module_operation_finish,
         gum_v8_object_on_weak_notify, g_hash_table_remove,
         gum_v8_object_manager_cancel, gum_v8_object_manager_flush,
         gum_v8_object_manager_free, g_cancellable_cancel_object,
         g_cancellable_cancel_manager.
  all: preserves_auto pins.
Qed.

Lemma Pin_initial pins : PinInv pins None (initial_state pins).
Proof.
  unfold PinInv, initial_state; simpl. rewrite !map_size_empty.
  split; [lia|]. split; [|split; [|done]].
  - intros p [v Hp]. by rewrite lookup_empty in Hp.
  - intros p [v Hp]. by rewrite lookup_empty in Hp.
Qed.

Lemma reachable_PinInv G pins s : reachable G pins s → PinInv pins None s.
Proof.
  induction 1 as [|s e s' _ IH _ Hexec]; [apply Pin_initial|].
  by eapply Pin_exec.
Qed.

(** C7. Creating an object operation or a module operation takes one
    pin and freeing it releases one, so in every state of every schedule
    the pin count of the runtime is the count it started from plus one
    for every operation of either kind that was created and not yet
    freed.  It therefore never drops below its initial value, and it is
    back at that value whenever no operation is outstanding. *)
Theorem pins_balanced G pins s :
  reachable G pins s →
  usage_count s
  = pins + Z.of_nat (size (operations s)) + Z.of_nat (size (module_operations s)) ∧
  (0 ≤ pins → 0 ≤ usage_count s) ∧
  (operations s = ∅ → module_operations s = ∅ → usage_count s = pins).
Proof.
  intros Hs. destruct (reachable_PinInv _ _ _ Hs) as [Hp _].
  split; [exact Hp|]. split; [lia|].
  intros Hops Hmops. rewrite Hp, Hops, Hmops, !map_size_empty. lia.
Qed.

Lemma pins_balanced_witness :
  usage_count barrier_example = 3 ∧ usage_count idle_example = 0.
Proof.
  split.
  - destruct (pins_balanced valid 0 barrier_example) as [H _].
    + apply (state_after_reachable
               [EvRegister 7; EvRegister 8; EvSchedule 1 false;
                EvScheduleWhenIdle 2 true (Some [1%positive])]).
      vm_compute. reflexivity.
    + rewrite H. vm_compute. reflexivity.
  - destruct (pins_balanced valid 0 idle_example) as (_ & _ & H).
    + apply (state_after_reachable [EvRegister 7; EvSchedule 1 true; EvComplete 2]).
      vm_compute. reflexivity.
    + apply H; vm_compute; reflexivity.
Defined.

(** ** Further properties of the registry *)

(** X1. Registering a handle that is not in the registry never fails.  It
    returns a new object that is idle and not cancelled, a lookup of the
    handle then finds that object, lookups of all other handles answer as
    before, and no other object, operation, pin or effect is touched. *)
Theorem register_then_lookup s t h :
  object_by_handle s = Some t →
  t !! h = None →
  ∃ s',
    _gum_v8_object_manager_add h s = Ok (next_ptr s, s') ∧
    objects s' !! next_ptr s
      = Some {| handle := h; cancellable := false;
                num_active_operations := 0; pending_operations := [] |} ∧
    _gum_v8_object_manager_lookup h s' = Ok (Some (next_ptr s), s') ∧
    (∀ h', h' ≠ h → _gum_v8_object_manager_lookup h' s' = Ok (t !! h', s')) ∧
    (∀ p, p ≠ next_ptr s → objects s' !! p = objects s !! p) ∧
    operations s' = operations s ∧
    module_operations s' = module_operations s ∧
    usage_count s' = usage_count s ∧
    trace s' = trace s.
Proof.
  intros Ht Hh. eexists. split.
  { unfold _gum_v8_object_manager_add, g_hash_table_insert.
    unfold_monad. simpl. rewrite Ht, Hh. reflexivity. }
  unfold _gum_v8_object_manager_lookup. unfold_monad. simpl.
  split; [apply lookup_insert_eq|].
  split; [by rewrite lookup_insert_eq|].
  split; [intros h' Hne; by rewrite lookup_insert_ne|].
  split; [intros p Hne; by rewrite lookup_insert_ne|]. done.
Qed.

Lemma register_then_lookup_witness :
  ∃ s',
    _gum_v8_object_manager_add 8 registry_example = Ok (2%positive, s') ∧
    _gum_v8_object_manager_lookup 8 s' = Ok (Some 2%positive, s') ∧
    _gum_v8_object_manager_lookup 7 s' = Ok (Some 1%positive, s').
Proof.
  destruct (register_then_lookup registry_example {[ 7%positive := 1%positive ]}
              8%positive) as (s' & Hadd & _ & Hl & Hother & _);
    [reflexivity | reflexivity |].
  exists s'. split; [exact Hadd|]. split; [exact Hl|].
  rewrite (Hother 7%positive) by discriminate. reflexivity.
Defined.

(** X2. The weak callback of an object that is registered under its own
    handle removes exactly that entry and destroys exactly that object
    when the object is idle: a lookup of the handle then finds nothing,
    all other handles and objects are as before, and the native handle is
    released.  When the object still has active or queued operations the
    destructor's assertion stops the process.  When the handle is not in
    the table at all, nothing happens. *)
Theorem weak_notify_cases s t obj o :
  object_by_handle s = Some t →
  objects s !! obj = Some o →
  (t !! handle o = Some obj →
     num_active_operations o = 0 ∧ pending_operations o = [] →
     ∃ s',
       gum_v8_object_on_weak_notify obj s = Ok (tt, s') ∧
       _gum_v8_object_manager_lookup (handle o) s' = Ok (None, s') ∧
       (∀ h', h' ≠ handle o →
          _gum_v8_object_manager_lookup h' s' = Ok (t !! h', s')) ∧
       objects s' = delete obj (objects s) ∧
       operations s' = operations s ∧
       usage_count s' = usage_count s ∧
       trace s' = trace s ++ [EHandleUnref (handle o); EObjectFree obj]) ∧
  (t !! handle o = Some obj →
     ¬ (num_active_operations o = 0 ∧ pending_operations o = []) →
     gum_v8_object_on_weak_notify obj s = Abort AssertionFailed) ∧
  (t !! handle o = None →
     gum_v8_object_on_weak_notify obj s = Ok (tt, s)).
Proof.
  intros Ht Ho.
  unfold gum_v8_object_on_weak_notify, g_hash_table_remove.
  rewrite (bind_Ok _ _ _ _ _ (deref_object_Some _ _ _ Ho)).
  rewrite (bind_Ok _ _ _ _ _ (hash_table_Some _ _ Ht)).
  split; [|split].
  - intros Hh [Hn Hq]. rewrite Hh.
    unfold set_hash_table, modify, bind at 1.
    rewrite (object_free_eq _ _ o); try done.
    eexists. split; [reflexivity|].
    unfold _gum_v8_object_manager_lookup. unfold_monad. simpl.
    split; [by rewrite lookup_delete_eq|].
    split; [intros h' Hne; by rewrite lookup_delete_ne|]. done.
  - intros Hh Hbusy. rewrite Hh.
    unfold set_hash_table, modify, bind at 1.
    unfold gum_v8_object_free. unfold_monad. simpl. rewrite Ho.
    destruct (bool_decide (num_active_operations o = 0)) eqn:Hn; [|done].
    apply bool_decide_eq_true in Hn.
    destruct (pending_operations o) eqn:Hq; [|done]. by destruct Hbusy.
  - intros Hh. by rewrite Hh.
Qed.

Lemma weak_notify_cases_witness :
  ∃ s',
    gum_v8_object_on_weak_notify 1 registry_example = Ok (tt, s') ∧
    _gum_v8_object_manager_lookup 7 s' = Ok (None, s') ∧
    trace s' = [EHandleUnref 7; EObjectFree 1].
Proof.
  destruct (weak_notify_cases registry_example {[ 7%positive := 1%positive ]}
              1%positive
              {| handle := 7; cancellable := false;
                 num_active_operations := 0; pending_operations := [] |})
    as [Hidle _]; [reflexivity | reflexivity |].
  destruct Hidle as (s' & Hrun & Hl & _ & _ & _ & _ & Htr);
    [reflexivity | split; reflexivity |].
  exists s'. split; [exact Hrun|]. split; [exact Hl | exact Htr].
Defined.

(** X3. Cancelling is idempotent: when [gum_v8_object_manager_cancel]
    returned for a handle, calling it again for the same handle gives the
    same answer and leaves the store exactly as the first call left it. *)
Theorem cancel_idempotent s h found s1 :
  gum_v8_object_manager_cancel h s = Ok (found, s1) →
  gum_v8_object_manager_cancel h s1 = Ok (found, s1).
Proof.
  unfold gum_v8_object_manager_cancel, g_cancellable_cancel_object.
  unfold_monad.
  destruct (object_by_handle s) as [t|] eqn:Ht; [|done].
  destruct (t !! h) as [obj|] eqn:Hh.
  - destruct (objects s !! obj) as [o|] eqn:Ho; [|done].
    intros [= <- <-]. simpl. rewrite Ht, Hh. simpl. rewrite lookup_insert_eq.
    f_equal. f_equal. apply State_eq; simpl; try done.
    by rewrite insert_insert_eq.
  - intros [= <- <-]. by rewrite Ht, Hh.
Qed.

Lemma cancel_idempotent_witness :
  ∃ s1, gum_v8_object_manager_cancel 7 registry_example = Ok (true, s1) ∧
        gum_v8_object_manager_cancel 7 s1 = Ok (true, s1).
Proof.
  eexists. split; [vm_compute; reflexivity|].
  apply (cancel_idempotent registry_example). vm_compute. reflexivity.
Defined.

Lemma cancel_each_twice l m : cancel_each l (cancel_each l m) = cancel_each l m.
Proof.
  apply map_eq. intros p. rewrite !cancel_each_lookup.
  destruct (decide (p ∈ l.*2)); [|done].
  by destruct (m !! p) as [[]|].
Qed.

(** X4. Flushing subsumes cancelling.  After
    [gum_v8_object_manager_flush], flushing again changes nothing, and
    cancelling any handle changes nothing either: it only reports whether
    the handle is registered. *)
Theorem flush_then_cancel_is_noop s t :
  object_by_handle s = Some t →
  (∀ h obj, t !! h = Some obj → is_Some (objects s !! obj)) →
  ∃ s1,
    gum_v8_object_manager_flush s = Ok (tt, s1) ∧
    gum_v8_object_manager_flush s1 = Ok (tt, s1) ∧
    ∀ h, ∃ found,
      gum_v8_object_manager_cancel h s1 = Ok (found, s1) ∧
      (found = true ↔ is_Some (t !! h)).
Proof.
  intros Ht Hlive.
  assert (Hin : ∀ h obj, t !! h = Some obj → obj ∈ (map_to_list t).*2).
  { intros h obj Hh. apply list_elem_of_fmap. exists (h, obj).
    split; [done|]. by apply elem_of_map_to_list. }
  assert (Hrun : gum_v8_object_manager_flush s
                 = Ok (tt, set_manager_cancellable true
                             (set_objects (cancel_each (map_to_list t) (objects s)) s))).
  { unfold gum_v8_object_manager_flush.
    rewrite (bind_Ok _ _ _ _ _ (hash_table_Some _ _ Ht)).
    erewrite bind_Ok; [reflexivity|].
    apply for_each_cancel. intros [h q] Hx. simpl.
    apply elem_of_map_to_list in Hx. eauto. }
  eexists. split; [exact Hrun|]. split.
  - unfold gum_v8_object_manager_flush.
    erewrite bind_Ok; [|by apply hash_table_Some].
    erewrite bind_Ok; last first.
    { apply for_each_cancel. intros [h q] Hx. simpl.
      apply elem_of_map_to_list in Hx. destruct (Hlive h q Hx) as [o Ho].
      rewrite cancel_each_lookup, Ho. destruct (decide _); simpl; eauto. }
    unfold g_cancellable_cancel_manager, modify. f_equal. f_equal.
    apply State_eq; simpl; try done. apply cancel_each_twice.
  - intros h. unfold gum_v8_object_manager_cancel.
    erewrite bind_Ok; [|by apply hash_table_Some].
    destruct (t !! h) as [obj|] eqn:Hh.
    + exists true. split; [|split; eauto].
      destruct (Hlive h obj Hh) as [o Ho].
      assert (Ho1 : cancel_each (map_to_list t) (objects s) !! obj
                    = Some (with_cancellable true o)).
      { rewrite cancel_each_lookup, Ho. rewrite decide_True; [done|]. eauto. }
      erewrite bind_Ok; last first.
      { apply cancel_object_eq. exact Ho1. }
      unfold ret. f_equal. f_equal. apply State_eq; simpl; try done.
      by apply insert_id.
    + exists false. split; [done|]. split; [done|]. by intros [? ?].
Qed.

Lemma flush_then_cancel_is_noop_witness :
  ∃ s1,
    gum_v8_object_manager_flush registry_example = Ok (tt, s1) ∧
    gum_v8_object_manager_flush s1 = Ok (tt, s1) ∧
    gum_v8_object_manager_cancel 7 s1 = Ok (true, s1) ∧
    gum_v8_object_manager_cancel 9 s1 = Ok (false, s1).
Proof.
  destruct (flush_then_cancel_is_noop registry_example {[ 7%positive := 1%positive ]})
    as (s1 & H1 & H2 & Hc).
  - reflexivity.
  - intros h obj Hh. apply lookup_singleton_Some in Hh as [<- <-]. vm_compute. eauto.
  - exists s1. split; [exact H1|]. split; [exact H2|].
    destruct (Hc 7%positive) as (f7 & Hc7 & Hf7).
    destruct (Hc 9%positive) as (f9 & Hc9 & Hf9).
    assert (f7 = true) as -> by (apply Hf7; vm_compute; eauto).
    assert (f9 = false) as ->.
    { destruct f9; [|done]. destruct Hf9 as [Hf9 _].
      destruct (Hf9 eq_refl) as [x Hx]. vm_compute in Hx. discriminate Hx. }
    split; [exact Hc7 | exact Hc9].
Defined.

(** ** Further invariants of valid schedules *)

Lemma running_le_size ops p : (running ops p ≤ size ops)%nat.
Proof. unfold running. apply map_subseteq_size, map_filter_subseteq. Qed.

(** X5. In every state of every valid schedule the counter of an object
    is the number of operations on it whose job was started and that are
    not yet freed, as a 32-bit value; with fewer than 2^32 operations in
    the store it is that number exactly, so it never underflows. *)
Theorem counter_counts_running pins s p o :
  reachable valid pins s →
  objects s !! p = Some o →
  num_active_operations o = guint_wrap (Z.of_nat (running (operations s) p)) ∧
  0 ≤ num_active_operations o < guint_modulus ∧
  (Z.of_nat (size (operations s)) < guint_modulus →
   num_active_operations o = Z.of_nat (running (operations s) p)).
Proof.
  intros Hs Hp. pose proof (inv_count _ _ _ (reachable_Inv _ _ Hs) p o Hp) as Hc.
  split; [exact Hc|]. split; [rewrite Hc; apply guint_wrap_range|].
  intros Hsize. rewrite Hc. unfold guint_wrap. apply Z.mod_small.
  pose proof (running_le_size (operations s) p). lia.
Qed.

Lemma counter_counts_running_witness :
  num_active_operations
    {| handle := 7; cancellable := false; num_active_operations := 1;
       pending_operations := [5%positive] |}
  = Z.of_nat (running (operations barrier_example) 1).
Proof.
  apply (counter_counts_running 0 barrier_example 1%positive).
  - apply (state_after_reachable
             [EvRegister 7; EvRegister 8; EvSchedule 1 false;
              EvScheduleWhenIdle 2 true (Some [1%positive])]).
    vm_compute. reflexivity.
  - vm_compute. reflexivity.
  - vm_compute. reflexivity.
Defined.

(** X6. In every state of every valid schedule the registry and the
    store of objects agree: every handle in the registry leads to a live
    object that carries that handle, every live object is registered
    under its handle, and no object is registered under two handles. *)
Theorem registry_matches_objects pins s :
  reachable valid pins s →
  (∀ t h p, object_by_handle s = Some t → t !! h = Some p →
     ∃ o, objects s !! p = Some o ∧ handle o = h) ∧
  (∀ p o, objects s !! p = Some o →
     ∃ t, object_by_handle s = Some t ∧ t !! handle o = Some p) ∧
  (∀ t h1 h2 p, object_by_handle s = Some t →
     t !! h1 = Some p → t !! h2 = Some p → h1 = h2).
Proof.
  intros Hs. pose proof (reachable_Inv _ _ Hs) as HI.
  split; [apply (inv_table_obj _ _ _ HI)|].
  split; [apply (inv_obj_table _ _ _ HI)|].
  intros t h1 h2 p Ht H1 H2.
  destruct (inv_table_obj _ _ _ HI t h1 p Ht H1) as (o1 & Ho1 & E1).
  destruct (inv_table_obj _ _ _ HI t h2 p Ht H2) as (o2 & Ho2 & E2).
  rewrite Ho1 in Ho2. injection Ho2 as <-. congruence.
Qed.

Lemma registry_matches_objects_witness :
  (∀ t h p, object_by_handle barrier_example = Some t → t !! h = Some p →
     ∃ o, objects barrier_example !! p = Some o ∧ handle o = h) ∧
  (∀ p o, objects barrier_example !! p = Some o →
     ∃ t, object_by_handle barrier_example = Some t ∧ t !! handle o = Some p) ∧
  (∀ t h1 h2 p, object_by_handle barrier_example = Some t →
     t !! h1 = Some p → t !! h2 = Some p → h1 = h2).
Proof.
  apply (registry_matches_objects 0 barrier_example).
  apply (state_after_reachable
           [EvRegister 7; EvRegister 8; EvSchedule 1 false;
            EvScheduleWhenIdle 2 true (Some [1%positive])]).
  vm_compute. reflexivity.
Defined.

(** X7. In every state of every valid schedule no pointer of the
    scheduler dangles.  The object of every operation is in the store.
    Every entry of an object's queue is an operation in the store that
    belongs to that object, is not started and waits for nothing, and no
    operation is queued twice.  Every pending dependency of an operation
    is a probe in the store that blocks exactly this operation, and is
    listed once. *)
Theorem references_never_dangle pins s :
  reachable valid pins s →
  (∀ q op, operations s !! q = Some op → is_Some (objects s !! object op)) ∧
  (∀ p o q, objects s !! p = Some o → q ∈ pending_operations o →
     ∃ op, operations s !! q = Some op ∧ object op = p ∧
           job op = JobCreated ∧ pending_dependencies op = []) ∧
  (∀ p o, objects s !! p = Some o → NoDup (pending_operations o)) ∧
  (∀ q op d, operations s !! q = Some op → d ∈ pending_dependencies op →
     ∃ pr, operations s !! d = Some pr ∧ blocked_operation pr = Some q ∧
           is_Some (objects s !! object pr)) ∧
  (∀ q op, operations s !! q = Some op → NoDup (pending_dependencies op)).
Proof.
  intros Hs. pose proof (reachable_Inv _ _ Hs) as HI.
  split; [apply (inv_op_obj _ _ _ HI)|].
  split; [apply (inv_queue _ _ _ HI)|].
  split; [apply (inv_queue_nodup _ _ _ HI)|].
  split; [|apply (inv_deps_nodup _ _ _ HI)].
  intros q op d Hq Hin.
  destruct (inv_deps _ _ _ HI q op d Hq Hin) as (pr & Hd & Hb).
  exists pr. split; [done|]. split; [done|]. by eapply inv_op_obj.
Qed.

Lemma references_never_dangle_witness :
  ∃ pr, operations barrier_example !! 5%positive = Some pr ∧
        blocked_operation pr = Some 4%positive ∧
        is_Some (objects barrier_example !! object pr).
Proof.
  destruct (references_never_dangle 0 barrier_example) as (_ & _ & _ & H & _).
  - apply (state_after_reachable
             [EvRegister 7; EvRegister 8; EvSchedule 1 false;
              EvScheduleWhenIdle 2 true (Some [1%positive])]).
    vm_compute. reflexivity.
  - apply (H 4%positive
             (with_pending_dependencies [5%positive] (new_operation 2 true))).
    + vm_compute. reflexivity.
    + apply list_elem_of_here.
Defined.

(** ** Cancellation is permanent *)

Create HintDb tokens discriminated.

Lemma Tok_modify p (f : State → State) :
  (∀ s, objects (f s) = objects s ∧ next_ptr (f s) = next_ptr s) →
  preserves (TokenCancelled p) (modify f).
Proof.
  intros Hf. apply preserves_modify. intros s [Hlt Hc].
  destruct (Hf s) as [Ho Hn]. unfold TokenCancelled. by rewrite Ho, Hn.
Qed.

Lemma Tok_update_operation p q f : preserves (TokenCancelled p) (update_operation q f).
Proof.
  apply preserves_bind; [apply preserves_deref_operation|].
  intros o. by apply Tok_modify.
Qed.

Lemma Tok_alloc p : preserves (TokenCancelled p) g_slice_alloc.
Proof.
  intros s a s' [Hlt Hc] [= _ <-]. split; [simpl; lia | done].
Qed.

Lemma Tok_write p s q o o' :
  TokenCancelled p s →
  objects s !! q = Some o →
  (cancellable o = true → cancellable o' = true) →
  TokenCancelled p (set_objects (<[q := o']> (objects s)) s).
Proof.
  intros [Hlt Hc] Hq Hkeep. split; [done|]. simpl. intros o1 Ho1.
  apply lookup_insert_Some in Ho1 as [[<- <-]|[_ Ho1]]; eauto.
Qed.

Lemma Tok_update_object p q f :
  (∀ o, cancellable o = true → cancellable (f o) = true) →
  preserves (TokenCancelled p) (update_object q f).
Proof.
  intros Hf s [] s' HP Hrun. unfold update_object in Hrun. unfold_monad.
  destruct (objects s !! q) as [o|] eqn:Hq; [|done].
  injection Hrun as <-. eapply Tok_write; eauto.
Qed.

Lemma Tok_pop_head p q : preserves (TokenCancelled p) (g_queue_pop_head q).
Proof.
  intros s a s' HP Hrun. unfold g_queue_pop_head in Hrun. unfold_monad.
  destruct (objects s !! q) as [o|] eqn:Hq; [|done].
  destruct (pending_operations o).
  - by injection Hrun as _ <-.
  - injection Hrun as _ <-.
    apply (Tok_write p s q o (with_pending_operations l o) HP Hq). done.
Qed.

Lemma Tok_decrement p q : preserves (TokenCancelled p) (decrement_num_active_operations q).
Proof.
  intros s a s' HP Hrun. unfold decrement_num_active_operations in Hrun.
  unfold_monad. destruct (objects s !! q) as [o|] eqn:Hq; [|done].
  injection Hrun as _ <-.
  apply (Tok_write p s q o
           (with_num_active_operations (guint_wrap (num_active_operations o - 1)) o)
           HP Hq). done.
Qed.

Lemma Tok_delete p q :
  preserves (TokenCancelled p) (modify (λ s, set_objects (delete q (objects s)) s)).
Proof.
  apply preserves_modify. intros s [Hlt Hc]. split; [done|]. simpl.
  intros o Ho. apply lookup_delete_Some in Ho as [_ Ho]. eauto.
Qed.

#[local] Hint Resolve preserves_deref_object preserves_deref_operation
  preserves_deref_module_operation preserves_hash_table preserves_g_assert
  Tok_update_operation Tok_alloc Tok_pop_head Tok_decrement Tok_delete : tokens.

#[local] Hint Extern 2 (preserves (TokenCancelled _) (modify _)) =>
  apply Tok_modify; intros ?; split; reflexivity : tokens.
#[local] Hint Extern 1 (preserves (TokenCancelled _) (update_object _ _)) =>
  apply Tok_update_object; intros ? ?; assumption || reflexivity : tokens.

Lemma Tok_manager_add p h : preserves (TokenCancelled p) (_gum_v8_object_manager_add h).
Proof.
  intros s a s' HP Hrun. unfold _gum_v8_object_manager_add in Hrun.
  apply bind_inv in Hrun as (q & s1 & Halloc & Hrun).
  injection Halloc as <- <-.
  apply bind_inv in Hrun as ([] & s2 & Hstore & Hrun).
  unfold store_object, modify in Hstore. injection Hstore as <-.
  apply bind_inv in Hrun as ([] & s3 & Hins & Hret).
  injection Hret as _ <-.
  assert (HP2 : TokenCancelled p
                  (set_objects
                     (<[next_ptr s := {| handle := h; cancellable := false;
                                         num_active_operations := 0;
                                         pending_operations := [] |}]> (objects s))
                     (set_next_ptr (Pos.succ (next_ptr s)) s))).
  { destruct HP as [Hlt Hc]. split; [simpl; lia|]. simpl. intros o Ho.
    apply lookup_insert_Some in Ho as [[E _]|[_ Ho]]; [lia | eauto]. }
  revert HP2 Hins. generalize (set_objects
    (<[next_ptr s := {| handle := h; cancellable := false;
                        num_active_operations := 0;
                        pending_operations := [] |}]> (objects s))
    (set_next_ptr (Pos.succ (next_ptr s)) s)).
  intros s2 HP2 Hins.
  assert (Hpres : preserves (TokenCancelled p) (g_hash_table_insert h (next_ptr s))).
  { unfold g_hash_table_insert, gum_v8_object_free, set_hash_table, emit.
    preserves_auto tokens. }
  eapply Hpres; eauto.
Qed.

#[local] Hint Resolve Tok_manager_add : tokens.

Lemma Tok_schedule_when_idle p depth : ∀ self deps,
  preserves (TokenCancelled p) (schedule_when_idle depth self deps).
Proof.
  induction depth as [|depth IH]; intros self deps; simpl;
    [apply preserves_fail|].
  unfold gum_v8_object_operation_try_schedule_when_idle,
    _gum_v8_object_operation_schedule, gum_script_job_start_on_js_thread,
    g_queue_push_tail, _gum_v8_object_operation_new, _gum_v8_core_pin,
    store_operation, emit.
  preserves_auto tokens.
Qed.

#[local] Hint Resolve Tok_schedule_when_idle : tokens.

Lemma Tok_exec p e : preserves (TokenCancelled p) (exec e).
Proof.
  destruct e; unfold exec.
  all: unfold _gum_v8_object_operation_schedule_when_idle,
         gum_v8_try_schedule_if_idle_operation_perform,
         gum_v8_object_operation_finish, gum_v8_object_operation_free,
         gum_v8_object_operation_try_schedule_when_idle,
         _gum_v8_object_operation_schedule, gum_script_job_start_on_js_thread,
         g_queue_push_tail, _gum_v8_object_operation_new,
         _gum_v8_module_operation_new, gum_v8_module_operation_schedule,
         gum_v8_module_operation_finish, gum_v8_module_operation_free,
         gum_v8_object_on_weak_notify, g_hash_table_remove,
         gum_v8_object_manager_cancel, gum_v8_object_manager_flush,
         gum_v8_object_manager_free, gum_v8_object_free,
         g_cancellable_cancel_object, g_cancellable_cancel_manager,
         _gum_v8_core_pin, _gum_v8_core_unpin,
         store_operation, store_module_operation, set_hash_table, emit.
  all: preserves_auto tokens.
Qed.

Lemma Mgr_exec e : preserves ManagerCancelled (exec e).
Proof.
  assert (Hmod : ∀ f, (∀ s, manager_cancellable s = true →
                            manager_cancellable (f s) = true) →
                      preserves ManagerCancelled (modify f))
    by (intros f Hf; by apply preserves_modify).
  assert (Halloc : preserves ManagerCancelled g_slice_alloc)
    by (by intros s a s' HP [= _ <-]).
  assert (Hswi : ∀ depth self deps,
            preserves ManagerCancelled (schedule_when_idle depth self deps)).
  { induction depth as [|depth IH]; intros self deps; simpl;
      [apply preserves_fail|].
    unfold gum_v8_object_operation_try_schedule_when_idle,
      _gum_v8_object_operation_schedule, gum_script_job_start_on_js_thread,
      g_queue_push_tail, _gum_v8_object_operation_new, _gum_v8_core_pin,
      update_object, update_operation, store_object, store_operation, emit.
    repeat first
      [ solve [eauto using preserves_deref_object, preserves_deref_operation]
      | apply preserves_ret | apply preserves_fail
      | apply Hmod; intros ? ?; assumption
      | apply preserves_for_each; intros ?
      | match goal with
        | |- preserves _ (match ?x with _ => _ end) => destruct x
        end
      | apply preserves_bind; [|intros ?] ]. }
  destruct e; unfold exec.
  all: unfold _gum_v8_object_manager_add, g_hash_table_insert,
         _gum_v8_object_operation_schedule_when_idle,
         gum_v8_try_schedule_if_idle_operation_perform,
         gum_v8_object_operation_finish, gum_v8_object_operation_free,
         decrement_num_active_operations, g_queue_pop_head,
         gum_v8_object_operation_try_schedule_when_idle,
         _gum_v8_object_operation_schedule, gum_script_job_start_on_js_thread,
         g_queue_push_tail, _gum_v8_object_operation_new,
         _gum_v8_module_operation_new, gum_v8_module_operation_schedule,
         gum_v8_module_operation_finish, gum_v8_module_operation_free,
         gum_v8_object_on_weak_notify, g_hash_table_remove,
         gum_v8_object_manager_cancel, gum_v8_object_manager_flush,
         gum_v8_object_manager_free, gum_v8_object_free,
         g_cancellable_cancel_object, g_cancellable_cancel_manager,
         _gum_v8_core_pin, _gum_v8_core_unpin,
         update_object, update_operation, store_object,
         store_operation, store_module_operation, set_hash_table, emit.
  all: repeat first
      [ solve [eauto using preserves_deref_object, preserves_deref_operation,
                 preserves_deref_module_operation, preserves_hash_table,
                 preserves_g_assert]
      | apply preserves_ret | apply preserves_fail
      | apply Hmod; intros ? ?; (assumption || reflexivity)
      | apply preserves_for_each; intros ?
      | match goal with
        | |- preserves _ (match ?x with _ => _ end) => destruct x
        end
      | apply preserves_bind; [|intros ?] ].
Qed.

Lemma run_preserves G (P : State → Prop) :
  (∀ e, preserves P (exec e)) →
  ∀ evs s s', P s → run G evs s = Some (Ok s') → P s'.
Proof.
  intros HP evs. induction evs as [|e evs IH]; intros s s' Hs Hrun;
    simpl in Hrun.
  - by injection Hrun as <-.
  - destruct (G e s); [|done].
    destruct (exec e s) as [[[] s1]|f] eqn:Hexec; [|done].
    eapply IH; [|exact Hrun]. eapply HP; eauto.
Qed.

(** X8. No event resets a cancellation token.  Along every schedule, once
    the manager's token is cancelled it stays cancelled, and once the
    token of an object is cancelled it stays cancelled for as long as the
    object is in the store. *)
Theorem cancellation_is_permanent G pins evs : ∀ s s' p o,
  reachable G pins s →
  run G evs s = Some (Ok s') →
  (manager_cancellable s = true → manager_cancellable s' = true) ∧
  (objects s !! p = Some o → cancellable o = true →
   ∀ o', objects s' !! p = Some o' → cancellable o' = true).
Proof.
  intros s s' p o Hs Hrun. split.
  - intros Hm. apply (run_preserves G ManagerCancelled Mgr_exec evs s s' Hm Hrun).
  - intros Hp Hc.
    assert (HT : TokenCancelled p s).
    { split; [|intros o1 Ho1; congruence].
      destruct (reachable_Fifo _ _ _ Hs) as [_ Hfresh]. apply Hfresh. eauto. }
    apply (run_preserves G (TokenCancelled p) (Tok_exec p) evs s s' HT Hrun).
Qed.

Lemma cancellation_is_permanent_witness :
  ∃ o', objects (state_after [EvRegister 7; EvCancel 7; EvSchedule 1 false;
                              EvComplete 2; EvRegister 9]) !! 1%positive
        = Some o' ∧ cancellable o' = true.
Proof.
  eexists. split; [vm_compute; reflexivity|].
  destruct (cancellation_is_permanent valid 0
              [EvSchedule 1 false; EvComplete 2; EvRegister 9]
              (state_after [EvRegister 7; EvCancel 7])
              (state_after [EvRegister 7; EvCancel 7; EvSchedule 1 false;
                            EvComplete 2; EvRegister 9])
              1%positive
              {| handle := 7; cancellable := true;
                 num_active_operations := 0; pending_operations := [] |})
    as [_ H].
  - apply (state_after_reachable [EvRegister 7; EvCancel 7]).
    vm_compute. reflexivity.
  - vm_compute. reflexivity.
  - eapply H; vm_compute; reflexivity.
Defined.

(** ** No operation is lost *)

Lemma hoare_bind {A B} (P : State → Prop) (Q : A → State → Prop)
    (R : B → State → Prop) (m : M A) (k : A → M B) :
  hoare P m Q → (∀ a, hoare (Q a) (k a) R) → hoare P (bind m k) R.
Proof.
  intros Hm Hk s b s' HP Hrun.
  apply bind_inv in Hrun as (a & s1 & Hm1 & Hk1).
  eapply Hk; [|exact Hk1]. eapply Hm; eauto.
Qed.

Lemma hoare_conseq {A} (P P' : State → Prop) (Q Q' : A → State → Prop) (m : M A) :
  hoare P' m Q' → (∀ s, P s → P' s) → (∀ a s, Q' a s → Q a s) → hoare P m Q.
Proof. intros Hm HP HQ s a s' Hs Hrun. apply HQ. eapply Hm; eauto. Qed.

Lemma hoare_ret {A} (P : State → Prop) (Q : A → State → Prop) (a : A) :
  (∀ s, P s → Q a s) → hoare P (ret a) Q.
Proof. intros H s a' s' HP [= <- <-]. by apply H. Qed.

Lemma hoare_deref_operation (P : State → Prop) p :
  hoare P (deref_operation p) (λ o s, P s ∧ operations s !! p = Some o).
Proof.
  intros s o s' HP Hrun. unfold deref_operation in Hrun.
  destruct (operations s !! p) as [o'|] eqn:Hp; [|done].
  by injection Hrun as <- <-.
Qed.

Lemma hoare_deref_object (P : State → Prop) p :
  hoare P (deref_object p) (λ o s, P s ∧ objects s !! p = Some o).
Proof.
  intros s o s' HP Hrun. unfold deref_object in Hrun.
  destruct (objects s !! p) as [o'|] eqn:Hp; [|done].
  by injection Hrun as <- <-.
Qed.

Lemma NL_weaken X Y s : (∀ q, q ∈ X → q ∈ Y) → NoneLost X s → NoneLost Y s.
Proof.
  intros HXY [Hf Hs]. split; [done|]. intros q op Hq.
  destruct (Hs q op Hq) as [?|?]; auto.
Qed.

Lemma NL_frame X s s' :
  objects s' = objects s → operations s' = operations s →
  next_ptr s' = next_ptr s →
  NoneLost X s → NoneLost X s'.
Proof.
  intros Ho Hp Hn [Hf Hs]. split.
  - intros p. rewrite Ho, Hn. apply Hf.
  - intros q op. rewrite Hp. intros Hq.
    destruct (Hs q op Hq) as [?|Hset]; [by left|right].
    unfold settled in *. by rewrite Ho.
Qed.

(** Writing back an object: what was in its queue is still there, or is
    taken in hand. *)
Lemma NL_write_object X Y s p o o' :
  NoneLost X s →
  objects s !! p = Some o →
  (∀ q, q ∈ X → q ∈ Y) →
  (∀ q, q ∈ pending_operations o → q ∈ Y ∨ q ∈ pending_operations o') →
  NoneLost Y (set_objects (<[p := o']> (objects s)) s).
Proof.
  intros [Hf Hs] Hp HXY Hq. split; simpl.
  - intros r Hr. apply lookup_insert_is_Some in Hr as [<-|[_ Hr]]; eauto.
  - intros q op Hop.
    destruct (Hs q op Hop) as [HX|[Hj|[Hd|(o1 & Ho1 & Hin)]]].
    + left; auto.
    + right; by left.
    + right; right; by left.
    + destruct (decide (object op = p)) as [E|E].
      * rewrite E, Hp in Ho1. injection Ho1 as <-.
        destruct (Hq q Hin) as [?|?]; [by left|].
        right. right. right. exists o'. split; [|done].
        simpl. rewrite E. apply lookup_insert_eq.
      * right. right. right. exists o1. split; [|done].
        simpl. by rewrite lookup_insert_ne.
Qed.

Lemma NL_write_operation X s q op' :
  NoneLost X s →
  NoneLost (q :: X) (set_operations (<[q := op']> (operations s)) s).
Proof.
  intros [Hf Hs]. split; [done|]. simpl. intros r op Hr.
  apply lookup_insert_Some in Hr as [[<- _]|[Hne Hr]].
  - left. apply list_elem_of_here.
  - destruct (Hs r op Hr) as [?|?]; [left; by apply list_elem_of_further | by right].
Qed.

Lemma NL_settle X s q :
  NoneLost (q :: X) s →
  (∀ op, operations s !! q = Some op → settled s q op) →
  NoneLost X s.
Proof.
  intros [Hf Hs] Hq. split; [done|]. intros r op Hr.
  destruct (Hs r op Hr) as [Hin|?]; [|by right].
  apply elem_of_cons in Hin as [->|?]; [right; by apply Hq | by left].
Qed.

Lemma NL_delete_operation X s q :
  NoneLost X s → NoneLost X (set_operations (delete q (operations s)) s).
Proof.
  intros [Hf Hs]. split; [done|]. simpl. intros r op Hr.
  apply lookup_delete_Some in Hr as [_ Hr]. exact (Hs r op Hr).
Qed.

Lemma NL_delete_object X s p o :
  NoneLost X s →
  objects s !! p = Some o →
  pending_operations o = [] →
  NoneLost X (set_objects (delete p (objects s)) s).
Proof.
  intros [Hf Hs] Hp Hq. split; simpl.
  - intros r [v Hr]. apply lookup_delete_Some in Hr as [_ Hr]. eauto.
  - intros q op Hop.
    destruct (Hs q op Hop) as [HX|[Hj|[Hd|(o1 & Ho1 & Hin)]]].
    + by left.
    + right; by left.
    + right; right; by left.
    + right. right. right. exists o1. split; [|done]. simpl.
      rewrite lookup_delete_ne; [done|]. intros E.
      rewrite <- E, Hp in Ho1. injection Ho1 as <-.
      rewrite Hq in Hin. by apply elem_of_nil in Hin.
Qed.

Lemma NL_new_object X s o :
  NoneLost X s →
  NoneLost X (set_objects (<[next_ptr s := o]> (objects s))
                (set_next_ptr (Pos.succ (next_ptr s)) s)).
Proof.
  intros [Hf Hs]. split; simpl.
  - intros r Hr. apply lookup_insert_is_Some in Hr as [<-|[_ Hr]]; [lia|].
    specialize (Hf r Hr). lia.
  - intros q op Hop.
    destruct (Hs q op Hop) as [HX|[Hj|[Hd|(o1 & Ho1 & Hin)]]].
    + by left.
    + right; by left.
    + right; right; by left.
    + right. right. right. exists o1. split; [|done]. simpl.
      rewrite lookup_insert_ne; [done|]. intros E.
      assert (object op < next_ptr s)%positive by (apply Hf; eauto). lia.
Qed.

Create HintDb lost discriminated.

Lemma NL_modify X (f : State → State) :
  (∀ s, objects (f s) = objects s ∧ operations (f s) = operations s ∧
        next_ptr (f s) = next_ptr s) →
  preserves (NoneLost X) (modify f).
Proof.
  intros Hf. apply preserves_modify. intros s HP.
  destruct (Hf s) as (Ho & Hp & Hn). by apply (NL_frame X s).
Qed.

Lemma NL_alloc X : preserves (NoneLost X) g_slice_alloc.
Proof.
  intros s a s' [Hf Hs] [= _ <-]. split; [|done]. simpl.
  intros p Hp. specialize (Hf p Hp). lia.
Qed.

Lemma NL_store_operation X q o :
  hoare (NoneLost X) (store_operation q o) (λ _, NoneLost (q :: X)).
Proof. intros s [] s' HP [= <-]. by apply NL_write_operation. Qed.

(** An update of an operation that is in hand. *)
Lemma NL_update_operation X q f :
  preserves (NoneLost (q :: X)) (update_operation q f).
Proof.
  intros s [] s' HP Hrun. unfold update_operation in Hrun.
  apply bind_inv in Hrun as (o & s1 & Hd & Hrun).
  unfold deref_operation in Hd. destruct (operations s !! q); [|done].
  injection Hd as <- <-.
  apply (NL_weaken (q :: q :: X)).
  { intros r Hr. apply elem_of_cons in Hr as [->|?]; [apply list_elem_of_here|done]. }
  eapply NL_store_operation; [exact HP | exact Hrun].
Qed.

Lemma preserves_hoare {A} (P : State → Prop) (m : M A) :
  preserves P m → hoare P m (λ _, P).
Proof. done. Qed.

Lemma hoare_preserves {A} (P : State → Prop) (m : M A) :
  hoare P m (λ _, P) → preserves P m.
Proof. done. Qed.

(** An update of an operation takes it in hand. *)
Lemma NL_update_operation_take X q f :
  hoare (NoneLost X) (update_operation q f) (λ _, NoneLost (q :: X)).
Proof.
  apply (hoare_bind _ (λ _, NoneLost X)).
  - apply preserves_hoare, preserves_deref_operation.
  - intros o. apply NL_store_operation.
Qed.

Lemma NL_update_operation_held Y q f :
  q ∈ Y → preserves (NoneLost Y) (update_operation q f).
Proof.
  intros Hq s a s' HP Hrun. apply (NL_weaken (q :: Y)).
  { intros r Hr. by apply elem_of_cons in Hr as [->|?]. }
  eapply NL_update_operation_take; eauto.
Qed.

(** An update that leaves the operation started or waiting settles it. *)
Lemma NL_update_operation_settles X q f :
  (∀ o, job (f o) = JobStarted ∨ pending_dependencies (f o) ≠ []) →
  hoare (NoneLost (q :: X)) (update_operation q f) (λ _, NoneLost X).
Proof.
  intros Hf s [] s' HP Hrun.
  apply (NL_settle X s' q).
  - eapply NL_update_operation; eauto.
  - intros op Hop. unfold update_operation in Hrun. unfold_monad.
    destruct (operations s !! q) as [o|]; [|done]. injection Hrun as <-.
    simpl in Hop. rewrite lookup_insert_eq in Hop. injection Hop as <-.
    destruct (Hf o) as [?|?]; [by left | right; by left].
Qed.

Lemma NL_update_object X p f :
  (∀ o q, q ∈ pending_operations o → q ∈ pending_operations (f o)) →
  preserves (NoneLost X) (update_object p f).
Proof.
  intros Hf s [] s' HP Hrun. unfold update_object in Hrun. unfold_monad.
  destruct (objects s !! p) as [o|] eqn:Hp; [|done]. injection Hrun as <-.
  apply (NL_write_object X X s p o (f o)); auto.
Qed.

Lemma NL_decrement X p : preserves (NoneLost X) (decrement_num_active_operations p).
Proof.
  intros s n s' HP Hrun. unfold decrement_num_active_operations in Hrun.
  unfold_monad. destruct (objects s !! p) as [o|] eqn:Hp; [|done].
  injection Hrun as _ <-.
  apply (NL_frame _
           (set_objects
              (<[p := with_num_active_operations
                        (guint_wrap (num_active_operations o - 1)) o]> (objects s))
              s)); try done.
  apply (NL_write_object X X s p o); auto.
Qed.

Lemma NL_object_free X p : preserves (NoneLost X) (gum_v8_object_free p).
Proof.
  intros s [] s' HP Hrun. unfold gum_v8_object_free in Hrun.
  unfold_monad. destruct (objects s !! p) as [o|] eqn:Hp; [|done].
  destruct (bool_decide (num_active_operations o = 0)); [|done].
  destruct (pending_operations o) eqn:Hpq; [|done].
  injection Hrun as <-.
  apply (NL_frame _ (set_objects (delete p (objects s)) s)); try done.
  by apply (NL_delete_object X s p o).
Qed.

Lemma NL_delete X q :
  preserves (NoneLost X) (modify (λ s, set_operations (delete q (operations s)) s)).
Proof. apply preserves_modify. intros s. apply NL_delete_operation. Qed.

#[local] Hint Resolve preserves_deref_object preserves_deref_operation
  preserves_deref_module_operation preserves_hash_table preserves_g_assert
  NL_alloc NL_decrement NL_object_free NL_delete : lost.

#[local] Hint Extern 2 (preserves (NoneLost _) (modify _)) =>
  apply NL_modify; intros ?; repeat split; reflexivity : lost.
#[local] Hint Extern 1 (preserves (NoneLost _) (update_object _ _)) =>
  apply NL_update_object; intros ? ? ?; assumption : lost.

Lemma NL_manager_add X h : preserves (NoneLost X) (_gum_v8_object_manager_add h).
Proof.
  intros s a s' HP Hrun. unfold _gum_v8_object_manager_add in Hrun.
  apply bind_inv in Hrun as (q & s1 & Halloc & Hrun).
  injection Halloc as <- <-.
  apply bind_inv in Hrun as ([] & s2 & Hstore & Hrun).
  unfold store_object, modify in Hstore. injection Hstore as <-.
  apply bind_inv in Hrun as ([] & s3 & Hins & Hret).
  injection Hret as _ <-.
  assert (Hpres : preserves (NoneLost X) (g_hash_table_insert h (next_ptr s))).
  { unfold g_hash_table_insert, set_hash_table. preserves_auto lost. }
  eapply Hpres; [|exact Hins].
  apply (NL_new_object X s _ HP).
Qed.

Lemma NL_schedule X self :
  hoare (NoneLost (self :: X)) (_gum_v8_object_operation_schedule self)
    (λ _, NoneLost X).
Proof.
  unfold _gum_v8_object_operation_schedule, gum_script_job_start_on_js_thread.
  eapply hoare_bind; [apply preserves_hoare, preserves_deref_operation|].
  intros o.
  eapply hoare_bind; [apply preserves_hoare; by apply NL_update_object|].
  intros ?; cbv beta.
  eapply hoare_bind; [apply preserves_hoare; unfold emit; by apply NL_modify|].
  intros ?; cbv beta.
  eapply hoare_bind; [apply NL_update_operation_settles; by left|].
  intros ?; cbv beta. apply preserves_hoare. unfold emit. by apply NL_modify.
Qed.

Lemma NL_try_schedule X self :
  hoare (NoneLost (self :: X))
    (gum_v8_object_operation_try_schedule_when_idle self) (λ _, NoneLost X).
Proof.
  unfold gum_v8_object_operation_try_schedule_when_idle.
  eapply hoare_bind; [apply hoare_deref_operation|]. intros o.
  destruct (pending_dependencies o) eqn:Hdeps.
  - eapply hoare_bind; [apply hoare_deref_object|]. intros obj. simpl.
    destruct (bool_decide _).
    + eapply hoare_conseq; [apply NL_schedule | by intros s [[? _] _] | done].
    + intros s [] s' [[HP Ho] Hobj] Hrun.
      rewrite (push_tail_eq _ _ _ _ Hobj) in Hrun. injection Hrun as <-.
      apply (NL_settle X _ self).
      * apply (NL_frame _
                 (set_objects
                    (<[object o := with_pending_operations
                                     (pending_operations obj ++ [self]) obj]>
                       (objects s)) s)); try done.
        apply (NL_write_object (self :: X) (self :: X) s (object o) obj); auto.
        intros q Hq. right. simpl. apply elem_of_app. by left.
      * simpl. intros op Hop. rewrite Ho in Hop. injection Hop as <-.
        right. right. eexists. split; [apply lookup_insert_eq|].
        simpl. apply elem_of_app. right. apply list_elem_of_here.
  - apply hoare_ret. intros s [HP Ho]. apply (NL_settle X s self HP).
    intros op Hop. rewrite Ho in Hop. injection Hop as <-.
    right. left. by rewrite Hdeps.
Qed.

Lemma NL_pop_head X p :
  hoare (NoneLost X) (g_queue_pop_head p)
    (λ r, NoneLost (match r with Some n => n :: X | None => X end)).
Proof.
  intros s r s' HP Hrun. unfold g_queue_pop_head in Hrun. unfold_monad.
  destruct (objects s !! p) as [o|] eqn:Hp; [|done].
  destruct (pending_operations o) as [|n rest] eqn:Hq.
  - by injection Hrun as <- <-.
  - injection Hrun as <- <-.
    apply (NL_frame _
             (set_objects (<[p := with_pending_operations rest o]> (objects s)) s));
      try done.
    apply (NL_write_object X (n :: X) s p o); auto.
    + intros q ?. by apply list_elem_of_further.
    + intros q Hin. rewrite Hq in Hin.
      apply elem_of_cons in Hin as [->|?]; [left; apply list_elem_of_here | by right].
Qed.

(** The pop and the start that follows it, taken together. *)
Lemma NL_pop_and_schedule X obj :
  preserves (NoneLost X)
    (let! next := g_queue_pop_head obj in
     match next with
     | Some next => _gum_v8_object_operation_schedule next
     | None => ret tt
     end).
Proof.
  apply hoare_preserves.
  eapply hoare_bind; [apply NL_pop_head|].
  intros [next|]; [apply NL_schedule | by apply hoare_ret].
Qed.

#[local] Hint Resolve NL_manager_add NL_pop_and_schedule : lost.

Lemma NL_operation_free X op :
  preserves (NoneLost X) (gum_v8_object_operation_free op).
Proof.
  unfold gum_v8_object_operation_free, _gum_v8_core_unpin, emit.
  preserves_auto lost.
Qed.

Lemma NL_operation_new X obj c :
  hoare (NoneLost X) (_gum_v8_object_operation_new obj c) (λ q, NoneLost (q :: X)).
Proof.
  unfold _gum_v8_object_operation_new, _gum_v8_core_pin, emit.
  eapply hoare_bind; [apply preserves_hoare, NL_alloc|]. intros op.
  eapply hoare_bind; [apply preserves_hoare, preserves_deref_object|]. intros ?; cbv beta.
  eapply hoare_bind; [apply NL_store_operation|]. intros ?; cbv beta.
  eapply hoare_bind; [apply preserves_hoare; preserves_auto lost|]. intros ?; cbv beta.
  by apply hoare_ret.
Qed.

Lemma NL_schedule_when_idle depth : ∀ X self deps,
  hoare (NoneLost (self :: X)) (schedule_when_idle depth self deps)
    (λ _, NoneLost X).
Proof.
  induction depth as [|depth IH]; intros X self deps; simpl.
  { by intros s a s' _ H. }
  eapply hoare_bind; [|intros ?; cbv beta; apply NL_try_schedule].
  apply preserves_hoare.
  destruct deps as [deps|]; [|apply preserves_ret].
  apply preserves_for_each. intros dep.
  apply preserves_bind; [apply preserves_deref_object|]. intros d.
  destruct (bool_decide _); [|apply preserves_ret].
  apply hoare_preserves.
  eapply hoare_bind; [apply NL_operation_new|]. intros op.
  eapply hoare_bind.
  { apply preserves_hoare, NL_update_operation_held, list_elem_of_here. }
  intros ?; cbv beta.
  eapply hoare_bind.
  { apply preserves_hoare, NL_update_operation_held.
    apply list_elem_of_further, list_elem_of_here. }
  intros ?; cbv beta. apply IH.
Qed.

Lemma NL_perform X self :
  preserves (NoneLost X) (gum_v8_try_schedule_if_idle_operation_perform self).
Proof.
  unfold gum_v8_try_schedule_if_idle_operation_perform,
    gum_v8_object_operation_finish.
  apply preserves_bind; [apply preserves_deref_operation|]. intros p.
  destruct (blocked_operation p) as [op|]; [|apply preserves_fail].
  apply hoare_preserves.
  eapply hoare_bind; [apply NL_update_operation_take|]. intros ?; cbv beta.
  eapply hoare_bind; [apply NL_try_schedule|]. intros ?; cbv beta.
  apply preserves_hoare, NL_operation_free.
Qed.

#[local] Hint Resolve NL_operation_free NL_perform : lost.

Lemma NL_exec e : preserves (NoneLost []) (exec e).
Proof.
  destruct e; unfold exec.
  - preserves_auto lost.
  - apply hoare_preserves.
    eapply hoare_bind; [apply NL_operation_new|]. intros op. apply NL_schedule.
  - apply hoare_preserves.
    eapply hoare_bind; [apply NL_operation_new|]. intros op.
    apply NL_schedule_when_idle.
  - unfold gum_v8_object_operation_finish. preserves_auto lost.
  - unfold _gum_v8_module_operation_new, gum_v8_module_operation_schedule,
      _gum_v8_core_pin, store_module_operation, emit.
    preserves_auto lost.
  - unfold gum_v8_module_operation_finish, gum_v8_module_operation_free,
      _gum_v8_core_unpin, emit.
    preserves_auto lost.
  - unfold gum_v8_object_on_weak_notify, g_hash_table_remove, set_hash_table.
    preserves_auto lost.
  - unfold gum_v8_object_manager_cancel, g_cancellable_cancel_object.
    preserves_auto lost.
  - unfold gum_v8_object_manager_flush, g_cancellable_cancel_object,
      g_cancellable_cancel_manager.
    preserves_auto lost.
  - unfold gum_v8_object_manager_free, set_hash_table.
    preserves_auto lost.
Qed.

Lemma NL_initial pins : NoneLost [] (initial_state pins).
Proof.
  split.
  - intros p [v Hp]. unfold initial_state in Hp; simpl in Hp.
    by rewrite lookup_empty in Hp.
  - intros q op Hq. unfold initial_state in Hq; simpl in Hq.
    by rewrite lookup_empty in Hq.
Qed.

Lemma reachable_NoneLost G pins s : reachable G pins s → NoneLost [] s.
Proof.
  induction 1 as [|s e s' _ IH _ Hexec]; [apply NL_initial|].
  by eapply NL_exec.
Qed.



(** ** A queue is always behind a running operation *)

Create HintDb served discriminated.

Lemma Served_frame s s' :
  objects s' = objects s → operations s' = operations s →
  next_ptr s' = next_ptr s →
  Served s → Served s'.
Proof.
  intros Ho Hp Hn [Hf HS]. split.
  - intros q. rewrite Hp, Hn. apply Hf.
  - intros p o. rewrite Ho, Hp. apply HS.
Qed.

Lemma Served_modify (f : State → State) :
  (∀ s, objects (f s) = objects s ∧ operations (f s) = operations s ∧
        next_ptr (f s) = next_ptr s) →
  preserves Served (modify f).
Proof.
  intros Hf. apply preserves_modify. intros s HP.
  destruct (Hf s) as (Ho & Hp & Hn). by apply (Served_frame s).
Qed.

Lemma Served_alloc : preserves Served g_slice_alloc.
Proof.
  intros s a s' [Hf HS] [= _ <-]. split; [|done]. simpl.
  intros q Hq. specialize (Hf q Hq). lia.
Qed.

(** An update of an operation that keeps its object, and keeps it started
    if it was. *)
Lemma Served_update_operation q f :
  (∀ o, object (f o) = object o ∧ (job o = JobStarted → job (f o) = JobStarted)) →
  preserves Served (update_operation q f).
Proof.
  intros Hf s [] s' [Hfr HS] Hrun. unfold update_operation in Hrun. unfold_monad.
  destruct (operations s !! q) as [o|] eqn:Hq; [|done]. injection Hrun as <-.
  split; simpl.
  - intros r Hr. apply lookup_insert_is_Some in Hr as [<-|[_ Hr]]; eauto.
  - intros p ob Hp Hne.
    destruct (HS p ob Hp Hne) as [?|(r & op & Hr & Hobj & Hj)]; [by left|].
    right. destruct (decide (r = q)) as [->|Hrq].
    + rewrite Hq in Hr. injection Hr as <-. destruct (Hf o) as [Hfo Hfj].
      exists q, (f o). rewrite lookup_insert_eq. split; [done|].
      split; [congruence | auto].
    + exists r, op. by rewrite lookup_insert_ne.
Qed.

(** An update of an object that keeps its counter and its queue. *)
Lemma Served_update_object p f :
  (∀ o, num_active_operations (f o) = num_active_operations o ∧
        pending_operations (f o) = pending_operations o) →
  preserves Served (update_object p f).
Proof.
  intros Hf s [] s' [Hfr HS] Hrun. unfold update_object in Hrun. unfold_monad.
  destruct (objects s !! p) as [o|] eqn:Hp; [|done]. injection Hrun as <-.
  split; [done|]. simpl. intros p' o' Hp' Hne.
  apply lookup_insert_Some in Hp' as [[<- <-]|[_ Hp']]; [|eauto].
  destruct (Hf o) as [Hn Hq]. rewrite Hn. rewrite Hq in Hne. eauto.
Qed.

Lemma Served_delete_object p :
  preserves Served (modify (λ s, set_objects (delete p (objects s)) s)).
Proof.
  apply preserves_modify. intros s [Hfr HS]. split; [done|]. simpl.
  intros p' o' Hp' Hne. apply lookup_delete_Some in Hp' as [_ Hp']. eauto.
Qed.

Lemma Served_operation_new obj c :
  preserves Served (_gum_v8_object_operation_new obj c).
Proof.
  intros s q s' [Hfr HS] Hrun.
  destruct (objects s !! obj) as [o|] eqn:Ho.
  - rewrite operation_new_eq in Hrun by eauto. injection Hrun as _ <-.
    pose proof (fresh_not_live _ _ Hfr) as Hnone.
    split; simpl.
    + intros r Hr. apply lookup_insert_is_Some in Hr as [<-|[_ Hr]]; [lia|].
      specialize (Hfr r Hr). lia.
    + intros p ob Hp Hne.
      destruct (HS p ob Hp Hne) as [?|(r & op & Hr & Hobj & Hj)]; [by left|].
      right. exists r, op. split; [|done].
      rewrite lookup_insert_ne; [done|]. intros <-. congruence.
  - unfold _gum_v8_object_operation_new in Hrun. unfold_monad. simpl in Hrun.
    by rewrite Ho in Hrun.
Qed.

Lemma Served_schedule self :
  preserves Served (_gum_v8_object_operation_schedule self).
Proof.
  intros s [] s' [Hfr HS] Hrun.
  destruct (operations s !! self) as [o|] eqn:Ho; last first.
  { unfold _gum_v8_object_operation_schedule in Hrun. unfold_monad.
    by rewrite Ho in Hrun. }
  destruct (objects s !! object o) as [obj|] eqn:Hobj; last first.
  { unfold _gum_v8_object_operation_schedule in Hrun. unfold_monad.
    rewrite Ho in Hrun. simpl in Hrun. by rewrite Hobj in Hrun. }
  rewrite (schedule_eq _ _ _ _ Ho Hobj) in Hrun. injection Hrun as <-.
  split; simpl.
  - intros r Hr. apply lookup_insert_is_Some in Hr as [<-|[_ Hr]]; eauto.
  - intros p ob Hp Hne.
    destruct (decide (p = object o)) as [->|Hpo].
    + right. exists self, (with_job JobStarted o).
      by rewrite lookup_insert_eq.
    + rewrite lookup_insert_ne in Hp by done.
      destruct (HS p ob Hp Hne) as [?|(r & op & Hr & Hro & Hj)]; [by left|].
      right. exists r, op. split; [|done].
      rewrite lookup_insert_ne; [done|]. intros <-. congruence.
Qed.

Lemma Served_try_schedule self :
  preserves Served (gum_v8_object_operation_try_schedule_when_idle self).
Proof.
  unfold gum_v8_object_operation_try_schedule_when_idle.
  apply preserves_bind; [apply preserves_deref_operation|]. intros o.
  destruct (pending_dependencies o); [|apply preserves_ret].
  apply hoare_preserves.
  eapply hoare_bind; [apply hoare_deref_object|]. intros obj. simpl.
  destruct (bool_decide (num_active_operations obj = 0)) eqn:Hn.
  - eapply hoare_conseq; [apply preserves_hoare, Served_schedule | | done].
    by intros s [? _].
  - apply bool_decide_eq_false in Hn.
    intros s [] s' [[Hfr HS] Hobj] Hrun.
    rewrite (push_tail_eq _ _ _ _ Hobj) in Hrun. injection Hrun as <-.
    split; [done|]. simpl. intros p ob Hp Hne.
    apply lookup_insert_Some in Hp as [[<- <-]|[_ Hp]]; [by left | eauto].
Qed.

#[local] Hint Resolve preserves_deref_object preserves_deref_operation
  preserves_deref_module_operation preserves_hash_table preserves_g_assert
  Served_alloc Served_delete_object Served_operation_new Served_schedule
  Served_try_schedule : served.

#[local] Hint Extern 2 (preserves Served (modify _)) =>
  apply Served_modify; intros ?; repeat split; reflexivity : served.
#[local] Hint Extern 1 (preserves Served (update_object _ _)) =>
  apply Served_update_object; intros ?; split; reflexivity : served.
#[local] Hint Extern 1 (preserves Served (update_operation _ _)) =>
  apply Served_update_operation; intros ?; split; [reflexivity | intros ?; assumption]
  : served.

Lemma Served_schedule_when_idle depth : ∀ self deps,
  preserves Served (schedule_when_idle depth self deps).
Proof.
  induction depth as [|depth IH]; intros self deps; simpl;
    [apply preserves_fail|].
  preserves_auto served.
Qed.

Lemma Served_manager_add h : preserves Served (_gum_v8_object_manager_add h).
Proof.
  intros s a s' HP Hrun. unfold _gum_v8_object_manager_add in Hrun.
  apply bind_inv in Hrun as (q & s1 & Halloc & Hrun).
  injection Halloc as <- <-.
  apply bind_inv in Hrun as ([] & s2 & Hstore & Hrun).
  unfold store_object, modify in Hstore. injection Hstore as <-.
  apply bind_inv in Hrun as ([] & s3 & Hins & Hret).
  injection Hret as _ <-.
  assert (Hpres : preserves Served (g_hash_table_insert h (next_ptr s))).
  { unfold g_hash_table_insert, gum_v8_object_free, set_hash_table, emit.
    preserves_auto served. }
  eapply Hpres; [|exact Hins].
  destruct HP as [Hfr HS]. split; simpl.
  - intros r Hr. specialize (Hfr r Hr). lia.
  - intros p ob Hp Hne.
    apply lookup_insert_Some in Hp as [[_ <-]|[_ Hp]]; [done | eauto].
Qed.

#[local] Hint Resolve Served_schedule_when_idle Served_manager_add : served.

(** The completion of a started operation, in a state that satisfies the
    invariant of valid schedules. *)
Lemma Served_free pins x s q op s' :
  Inv pins x s →
  Served s →
  operations s !! q = Some op →
  job op = JobStarted →
  gum_v8_object_operation_free q s = Ok (tt, s') →
  Served s'.
Proof.
  intros HI [Hfr HS] Hq Hjob Hrun.
  pose proof (started_no_dependencies _ _ _ _ _ HI Hq Hjob) as Hdeps.
  destruct (inv_op_obj _ _ _ HI q op Hq) as [o Ho].
  assert (Hother : ∀ p' o',
            p' ≠ object op → objects s !! p' = Some o' →
            pending_operations o' ≠ [] →
            num_active_operations o' ≠ 0 ∨
            ∃ q' op', q' ≠ q ∧ operations s !! q' = Some op' ∧
                      object op' = p' ∧ job op' = JobStarted).
  { intros p' o' Hne Hp' Hne'.
    destruct (HS p' o' Hp' Hne') as [?|(q' & op' & Hq' & Hobj & Hj)]; [by left|].
    right. exists q', op'. split; [|done]. intros ->.
    rewrite Hq in Hq'. injection Hq' as <-. done. }
  destruct (decide (guint_wrap (num_active_operations o - 1) = 0)) as [Hn|Hn];
    [destruct (pending_operations o) as [|next rest] eqn:Hpq|].
  - rewrite (operation_free_no_pop _ _ _ _ Hq Ho Hdeps) in Hrun by (by right).
    injection Hrun as <-. split; simpl.
    + intros r [v Hr]. apply lookup_delete_Some in Hr as [_ Hr]. eauto.
    + intros p' o' Hp' Hne.
      apply lookup_insert_Some in Hp' as [[<- <-]|[Hnp Hp']].
      * simpl in Hne. by rewrite Hpq in Hne.
      * destruct (Hother p' o') as [?|(q' & op' & Hqq & Hq' & ? & ?)];
          [done.. | by left |].
        right. exists q', op'. by rewrite lookup_delete_ne.
  - destruct (inv_queue _ _ _ HI (object op) o next Ho)
      as (nop & Hnext & Hown & Hnj & Hnd).
    { rewrite Hpq. apply list_elem_of_here. }
    rewrite (operation_free_pop _ _ _ _ _ _ _ Hq Ho Hdeps Hn Hpq Hnext Hown) in Hrun.
    injection Hrun as <-. split; simpl.
    + intros r [v Hr]. apply lookup_delete_Some in Hr as [_ Hr].
      apply lookup_insert_Some in Hr as [[<- _]|[_ Hr]]; eauto.
    + intros p' o' Hp' Hne.
      apply lookup_insert_Some in Hp' as [[<- <-]|[Hnp Hp']].
      * left. simpl. done.
      * destruct (Hother p' o') as [?|(q' & op' & Hqq & Hq' & Hobj' & ?)];
          [done.. | by left |].
        right. exists q', op'. split; [|done].
        rewrite lookup_delete_ne by done.
        rewrite lookup_insert_ne; [done|]. intros <-.
        rewrite Hnext in Hq'. injection Hq' as <-. congruence.
  - rewrite (operation_free_no_pop _ _ _ _ Hq Ho Hdeps) in Hrun by (by left).
    injection Hrun as <-. split; simpl.
    + intros r [v Hr]. apply lookup_delete_Some in Hr as [_ Hr]. eauto.
    + intros p' o' Hp' Hne.
      apply lookup_insert_Some in Hp' as [[<- <-]|[Hnp Hp']].
      * left. simpl. done.
      * destruct (Hother p' o') as [?|(q' & op' & Hqq & Hq' & ? & ?)];
          [done.. | by left |].
        right. exists q', op'. by rewrite lookup_delete_ne.
Qed.

(** The completion of a started operation [q], probe or not.  A probe
    unlinks itself from the operation it blocks, tries to schedule that
    operation, and is freed; any other operation is freed at once. *)
Lemma complete_turns (P P1 Q : State → Prop) pins q :
  (∀ s pr b s1,
     P s → operations s !! q = Some pr → blocked_operation pr = Some b →
     update_operation b (λ o,
       with_pending_dependencies
         (g_slist_remove (pending_dependencies o) q) o) s = Ok (tt, s1) →
     P1 s1) →
  (∀ b bop s s',
     P1 s → operations s !! b = Some bop → job bop = JobCreated →
     gum_v8_object_operation_try_schedule_when_idle b s = Ok (tt, s') → P1 s') →
  (∀ x s op s',
     Inv pins x s → P1 s → operations s !! q = Some op → job op = JobStarted →
     gum_v8_object_operation_free q s = Ok (tt, s') → Q s') →
  (∀ s op s',
     Inv pins None s → P s → operations s !! q = Some op → job op = JobStarted →
     blocked_operation op = None →
     gum_v8_object_operation_free q s = Ok (tt, s') → Q s') →
  ∀ s s',
    Inv pins None s →
    P s →
    valid (EvComplete q) s = true →
    exec (EvComplete q) s = Ok (tt, s') →
    Q s'.
Proof.
  intros Hunlink Htry_keeps Hfree1 Hfree0 s s' HI HS Hvalid Hrun.
  unfold valid in Hvalid. apply andb_true_iff in Hvalid as [Hen _].
  simpl in Hen. apply has_job_started in Hen as (op & Hq & Hjob).
  unfold exec in Hrun.
  rewrite (bind_Ok _ _ _ _ _ (deref_operation_Some _ _ _ Hq)) in Hrun.
  destruct (blocked_operation op) as [b|] eqn:Hblocked.
  - destruct (inv_probe _ _ _ HI q op b Hq Hblocked) as [Hnil Hl].
    destruct Hl as (bop & Hb & Hin); [done|].
    assert (Hbq : b ≠ q).
    { intros ->. rewrite Hq in Hb. injection Hb as <-. rewrite Hnil in Hin.
      by apply elem_of_nil in Hin. }
    assert (Hbdeps : pending_dependencies bop ≠ []).
    { intros E. rewrite E in Hin. by apply elem_of_nil in Hin. }
    pose proof (inv_blocked _ _ _ HI b bop Hb Hbdeps) as Hbjob.
    assert (Hbnq : b ∉ queue_of s (object bop)).
    { unfold queue_of. destruct (objects s !! object bop) as [o|] eqn:Ho;
        [|apply not_elem_of_nil].
      intros Hbin.
      destruct (inv_queue _ _ _ HI _ o b Ho Hbin) as (bop' & Hb' & _ & _ & E).
      rewrite Hb in Hb'. injection Hb' as <-. done. }
    pose proof (Inv_after_unlink _ _ _ _ _ _ HI Hb Hq Hblocked) as HI1.
    set (f := λ o : GumV8ObjectOperation,
           with_pending_dependencies (g_slist_remove (pending_dependencies o) q) o).
    set (s1 := after_unlink b bop q s) in *.
    assert (Hupd : update_operation b f s = Ok (tt, s1)).
    { unfold update_operation.
      by rewrite (bind_Ok _ _ _ _ _ (deref_operation_Some _ _ _ Hb)). }
    assert (HS1 : P1 s1) by exact (Hunlink s op b s1 HS Hq Hblocked Hupd).
    assert (Hb1 : operations s1 !! b = Some (f bop)) by apply lookup_insert_eq.
    destruct (try_ok _ _ s1 b (f bop) HI1 Hb1 Hbjob Hbnq)
      as (s2 & Htry & HI2 & _ & Hfr & _).
    assert (Hq2 : operations s2 !! q = Some op).
    { rewrite Hfr by done. unfold s1, after_unlink; simpl.
      by rewrite lookup_insert_ne. }
    pose proof (Htry_keeps b _ _ _ HS1 Hb1 Hbjob Htry) as HS2.
    unfold gum_v8_try_schedule_if_idle_operation_perform in Hrun.
    rewrite (bind_Ok _ _ _ _ _ (deref_operation_Some _ _ _ Hq)), Hblocked in Hrun.
    fold f in Hrun.
    rewrite (bind_Ok _ _ _ _ _ Hupd), (bind_Ok _ _ _ _ _ Htry) in Hrun.
    exact (Hfree1 _ _ _ _ HI2 HS2 Hq2 Hjob Hrun).
  - exact (Hfree0 _ _ _ HI HS Hq Hjob Hblocked Hrun).
Qed.

(** What the unlink and the new attempt to schedule keep, and the free
    turns into [Q], the completion turns into [Q]. *)
Lemma complete_keeps (P Q : State → Prop) pins :
  (∀ b q, preserves P
            (update_operation b (λ o,
               with_pending_dependencies
                 (g_slist_remove (pending_dependencies o) q) o))) →
  (∀ b bop s s',
     P s → operations s !! b = Some bop → job bop = JobCreated →
     gum_v8_object_operation_try_schedule_when_idle b s = Ok (tt, s') → P s') →
  (∀ x s q op s',
     Inv pins x s → P s → operations s !! q = Some op → job op = JobStarted →
     gum_v8_object_operation_free q s = Ok (tt, s') → Q s') →
  ∀ s q s',
    Inv pins None s →
    P s →
    valid (EvComplete q) s = true →
    exec (EvComplete q) s = Ok (tt, s') →
    Q s'.
Proof.
  intros Hunlink Htry_keeps Hfree_keeps s q s'.
  apply (complete_turns P P Q pins q).
  - intros s0 pr b s1 HS _ _ Hrun. exact (Hunlink b q _ _ _ HS Hrun).
  - exact Htry_keeps.
  - intros x s0 op s0'. apply Hfree_keeps.
  - intros s0 op s0' HI HS Hq Hj _. by apply (Hfree_keeps None s0 q op).
Qed.

Lemma Served_complete pins s q s' :
  Inv pins None s →
  Served s →
  valid (EvComplete q) s = true →
  exec (EvComplete q) s = Ok (tt, s') →
  Served s'.
Proof.
  apply (complete_keeps Served Served pins).
  - intros b q0. by apply Served_update_operation.
  - intros b bop s0 s0' HS _ _. by apply Served_try_schedule.
  - intros x s0 q0 op s0'. apply Served_free.
Qed.

Lemma Served_exec pins s e s' :
  Inv pins None s →
  Served s →
  valid e s = true →
  exec e s = Ok (tt, s') →
  Served s'.
Proof.
  intros HI HS Hvalid Hrun.
  destruct e as [h|obj c|obj c deps|q|c|q|obj|h| |];
    [| | |by eapply Served_complete|..].
  all: revert Hrun; clear HI Hvalid; revert s s' HS.
  all: match goal with
       | |- ∀ s s', Served s → exec ?e s = Ok (tt, s') → Served s' =>
           cut (preserves Served (exec e));
             [intros Hp s s' HS Hrun; exact (Hp s tt s' HS Hrun)|]
       end.
  all: unfold exec, _gum_v8_object_operation_schedule_when_idle,
         _gum_v8_module_operation_new, gum_v8_module_operation_schedule,
         gum_v8_module_operation_finish, gum_v8_module_operation_free,
         gum_v8_object_on_weak_notify, g_hash_table_remove,
         gum_v8_object_manager_cancel, gum_v8_object_manager_flush,
         gum_v8_object_manager_free, gum_v8_object_free,
         g_cancellable_cancel_object, g_cancellable_cancel_manager,
         _gum_v8_core_pin, _gum_v8_core_unpin,
         store_module_operation, set_hash_table, emit.
  all: preserves_auto served.
Qed.

Lemma Served_initial pins : Served (initial_state pins).
Proof.
  split.
  - intros p [v Hp]. unfold initial_state in Hp; simpl in Hp.
    by rewrite lookup_empty in Hp.
  - intros p o Hp. unfold initial_state in Hp; simpl in Hp.
    by rewrite lookup_empty in Hp.
Qed.

Lemma reachable_Served pins s : reachable valid pins s → Served s.
Proof.
  induction 1 as [|s e s' Hs IH Hvalid Hexec]; [apply Served_initial|].
  eapply Served_exec; eauto using reachable_Inv.
Qed.

(** With the counter equal to the number of running operations, a queue
    that is served has a running operation before it. *)
Lemma served_by_running pins x s p o :
  Inv pins x s →
  Served s →
  objects s !! p = Some o →
  pending_operations o ≠ [] →
  ∃ q op, operations s !! q = Some op ∧ object op = p ∧ job op = JobStarted.
Proof.
  intros HI [_ HS] Hp Hne.
  destruct (HS p o Hp Hne) as [Hn|?]; [|done].
  pose proof (inv_count _ _ _ HI p o Hp) as Hc.
  assert (Hr : running (operations s) p ≠ 0%nat).
  { intros E. rewrite E in Hc. by rewrite Hc in Hn. }
  unfold running in Hr. apply map_size_ne_0_lookup_1 in Hr as [q [op Hq]].
  apply map_lookup_filter_Some in Hq as [Hq Hrun]. simpl in Hrun.
  unfold is_running in Hrun. apply andb_true_iff in Hrun as [Ho Hj].
  apply bool_decide_eq_true in Ho, Hj. by exists q, op.
Qed.

(** X10. A queue is always behind a running operation.  In every state of
    every valid schedule, an object whose queue of pending operations is
    not empty has an operation whose job is started: the completion of
    that operation is what will serve the queue. *)
Theorem queue_is_behind_running pins s p o :
  reachable valid pins s →
  objects s !! p = Some o →
  pending_operations o ≠ [] →
  ∃ q op, operations s !! q = Some op ∧ object op = p ∧ job op = JobStarted.
Proof.
  intros Hs Hp Hne.
  exact (served_by_running _ _ _ _ _ (reachable_Inv _ _ Hs)
           (reachable_Served _ _ Hs) Hp Hne).
Qed.

Lemma queue_is_behind_running_witness :
  ∃ q op, operations barrier_example !! q = Some op ∧
          object op = 1%positive ∧ job op = JobStarted.
Proof.
  apply (queue_is_behind_running 0 barrier_example 1%positive
           {| handle := 7; cancellable := false;
              num_active_operations := 1;
              pending_operations := [5%positive] |}).
  - apply (state_after_reachable
             [EvRegister 7; EvRegister 8; EvSchedule 1 false;
              EvScheduleWhenIdle 2 true (Some [1%positive])]).
    vm_compute. reflexivity.
  - vm_compute. reflexivity.
  - done.
Defined.

(** ** Operations on one object run one at a time *)

Create HintDb serial discriminated.

Lemma Serial_frame s s' :
  objects s' = objects s → operations s' = operations s →
  next_ptr s' = next_ptr s →
  Serial s → Serial s'.
Proof.
  intros Ho Hp Hn [Hf HS]. split.
  - intros q. rewrite Hp, Hn. apply Hf.
  - intros p o. rewrite Ho, Hp. apply HS.
Qed.

Lemma Serial_modify (f : State → State) :
  (∀ s, objects (f s) = objects s ∧ operations (f s) = operations s ∧
        next_ptr (f s) = next_ptr s) →
  preserves Serial (modify f).
Proof.
  intros Hf. apply preserves_modify. intros s HP.
  destruct (Hf s) as (Ho & Hp & Hn). by apply (Serial_frame s).
Qed.

Lemma Serial_alloc : preserves Serial g_slice_alloc.
Proof.
  intros s a s' [Hf HS] [= _ <-]. split; [|done]. simpl.
  intros q Hq. specialize (Hf q Hq). lia.
Qed.

(** An update of an operation that neither starts it nor moves it. *)
Lemma Serial_update_operation q f :
  (∀ o p, is_running p (f o) = is_running p o) →
  preserves Serial (update_operation q f).
Proof.
  intros Hf s [] s' [Hfr HS] Hrun. unfold update_operation in Hrun. unfold_monad.
  destruct (operations s !! q) as [o|] eqn:Hq; [|done]. injection Hrun as <-.
  split; simpl.
  - intros r Hr. apply lookup_insert_is_Some in Hr as [<-|[_ Hr]]; eauto.
  - intros p ob Hp. rewrite (running_insert_same _ _ o) by auto. by apply HS.
Qed.

(** An update of an object that keeps its counter. *)
Lemma Serial_update_object p f :
  (∀ o, num_active_operations (f o) = num_active_operations o) →
  preserves Serial (update_object p f).
Proof.
  intros Hf s [] s' [Hfr HS] Hrun. unfold update_object in Hrun. unfold_monad.
  destruct (objects s !! p) as [o|] eqn:Hp; [|done]. injection Hrun as <-.
  split; [done|]. simpl. intros p' o' Hp'.
  apply lookup_insert_Some in Hp' as [[<- <-]|[_ Hp']]; [|eauto].
  rewrite Hf. eauto.
Qed.

Lemma Serial_delete_object p :
  preserves Serial (modify (λ s, set_objects (delete p (objects s)) s)).
Proof.
  apply preserves_modify. intros s [Hfr HS]. split; [done|]. simpl.
  intros p' o' Hp'. apply lookup_delete_Some in Hp' as [_ Hp']. eauto.
Qed.

Lemma Serial_operation_new obj c :
  preserves Serial (_gum_v8_object_operation_new obj c).
Proof.
  intros s q s' [Hfr HS] Hrun.
  destruct (objects s !! obj) as [o|] eqn:Ho.
  - rewrite operation_new_eq in Hrun by eauto. injection Hrun as _ <-.
    pose proof (fresh_not_live _ _ Hfr) as Hnone.
    split; simpl.
    + intros r Hr. apply lookup_insert_is_Some in Hr as [<-|[_ Hr]]; [lia|].
      specialize (Hfr r Hr). lia.
    + intros p ob Hp. rewrite running_insert_fresh by done.
      rewrite is_running_created by done. rewrite Nat.add_0_r. by apply HS.
  - unfold _gum_v8_object_operation_new in Hrun. unfold_monad. simpl in Hrun.
    by rewrite Ho in Hrun.
Qed.

#[local] Hint Resolve preserves_deref_object preserves_deref_operation
  preserves_deref_module_operation preserves_hash_table preserves_g_assert
  Serial_alloc Serial_delete_object Serial_operation_new : serial.

#[local] Hint Extern 2 (preserves Serial (modify _)) =>
  apply Serial_modify; intros ?; repeat split; reflexivity : serial.
#[local] Hint Extern 1 (preserves Serial (update_object _ _)) =>
  apply Serial_update_object; intros ?; reflexivity : serial.
#[local] Hint Extern 1 (preserves Serial (update_operation _ _)) =>
  apply Serial_update_operation; intros ? ?; reflexivity : serial.

Lemma Serial_push_tail p q : preserves Serial (g_queue_push_tail p q).
Proof. unfold g_queue_push_tail, emit. preserves_auto serial. Qed.

(** The job of an operation is started only where the counter of its
    object is zero. *)
Lemma Serial_try_schedule self :
  preserves Serial (gum_v8_object_operation_try_schedule_when_idle self).
Proof.
  unfold gum_v8_object_operation_try_schedule_when_idle.
  apply hoare_preserves.
  eapply hoare_bind; [apply hoare_deref_operation|]. intros o; cbv beta.
  destruct (pending_dependencies o); [|apply hoare_ret; by intros s [? _]].
  eapply hoare_bind; [apply hoare_deref_object|]. intros obj. simpl.
  destruct (bool_decide (num_active_operations obj = 0)) eqn:Hn.
  - apply bool_decide_eq_true in Hn.
    intros s [] s' [[[Hfr HS] Ho] Hobj] Hrun.
    rewrite (schedule_eq _ _ _ _ Ho Hobj) in Hrun. injection Hrun as <-.
    split; simpl.
    + intros r Hr. apply lookup_insert_is_Some in Hr as [<-|[_ Hr]]; eauto.
    + intros p ob Hp. rewrite running_insert.
      pose proof (running_delete _ _ _ p Ho) as Hdel.
      apply lookup_insert_Some in Hp as [[<- <-]|[Hne Hp]].
      * simpl. rewrite Hn. change (guint_wrap (0 + 1)) with 1.
        destruct (HS _ _ Hobj) as [Hle _]. rewrite Hn in Hle.
        destruct (is_running (object o) (with_job JobStarted o)); lia.
      * rewrite (is_running_other p (with_job JobStarted o)) by (simpl; congruence).
        destruct (HS p ob Hp). lia.
  - eapply hoare_conseq; [apply preserves_hoare, Serial_push_tail| |done].
    by intros s [[? _] _].
Qed.

#[local] Hint Resolve Serial_try_schedule : serial.

Lemma Serial_schedule_when_idle depth : ∀ self deps,
  preserves Serial (schedule_when_idle depth self deps).
Proof.
  induction depth as [|depth IH]; intros self deps; simpl;
    [apply preserves_fail|].
  preserves_auto serial.
Qed.

#[local] Hint Resolve Serial_schedule_when_idle : serial.

(** The completion of a started operation, in a state that satisfies the
    invariant of valid schedules. *)
Lemma Serial_free pins x s q op s' :
  Inv pins x s →
  Serial s →
  operations s !! q = Some op →
  job op = JobStarted →
  gum_v8_object_operation_free q s = Ok (tt, s') →
  Serial s'.
Proof.
  intros HI [Hfr HS] Hq Hjob Hrun.
  pose proof (started_no_dependencies _ _ _ _ _ HI Hq Hjob) as Hdeps.
  destruct (inv_op_obj _ _ _ HI q op Hq) as [o Ho].
  assert (Hrq : is_running (object op) op = true).
  { unfold is_running. by rewrite !bool_decide_eq_true_2. }
  pose proof (running_delete _ _ _ (object op) Hq) as Hdel. rewrite Hrq in Hdel.
  destruct (HS _ _ Ho) as [Hlo Hhi].
  assert (Hc : num_active_operations o = 1) by lia.
  assert (Hw : guint_wrap (num_active_operations o - 1) = 0)
    by (by rewrite Hc).
  assert (Hother : ∀ p', p' ≠ object op →
            running (delete q (operations s)) p' = running (operations s) p').
  { intros p' Hne. rewrite (running_delete _ _ _ p' Hq).
    rewrite is_running_other by done. lia. }
  destruct (pending_operations o) as [|next rest] eqn:Hpq.
  - rewrite (operation_free_no_pop _ _ _ _ Hq Ho Hdeps) in Hrun by (by right).
    injection Hrun as <-. split; simpl.
    + intros r [v Hr]. apply lookup_delete_Some in Hr as [_ Hr]. eauto.
    + intros p' o' Hp'.
      apply lookup_insert_Some in Hp' as [[<- <-]|[Hnp Hp']].
      * simpl. rewrite Hw. lia.
      * rewrite Hother by done. by apply HS.
  - destruct (inv_queue _ _ _ HI (object op) o next Ho)
      as (nop & Hnext & Hown & Hnj & Hnd).
    { rewrite Hpq. apply list_elem_of_here. }
    assert (Hne : q ≠ next) by (intros ->; congruence).
    rewrite (operation_free_pop _ _ _ _ _ _ _ Hq Ho Hdeps Hw Hpq Hnext Hown) in Hrun.
    injection Hrun as <-. split; simpl.
    + intros r [v Hr]. apply lookup_delete_Some in Hr as [_ Hr].
      apply lookup_insert_Some in Hr as [[<- _]|[_ Hr]]; eauto.
    + intros p' o' Hp'.
      rewrite delete_insert_ne by done. rewrite running_insert.
      assert (Hnq : delete q (operations s) !! next = Some nop)
        by (by rewrite lookup_delete_ne).
      pose proof (running_delete _ _ _ p' Hnq) as Hdn.
      rewrite is_running_created in Hdn by done.
      apply lookup_insert_Some in Hp' as [[<- <-]|[Hnp Hp']].
      * simpl.
        destruct (is_running (object op) (with_job JobStarted nop)); lia.
      * rewrite is_running_other by (simpl; congruence).
        rewrite Hother in Hdn by done. destruct (HS p' o' Hp'). lia.
Qed.

Lemma Serial_complete pins s q s' :
  Inv pins None s →
  Serial s →
  valid (EvComplete q) s = true →
  exec (EvComplete q) s = Ok (tt, s') →
  Serial s'.
Proof.
  apply (complete_keeps Serial Serial pins).
  - intros b q0. by apply Serial_update_operation.
  - intros b bop s0 s0' HS _ _. by apply Serial_try_schedule.
  - intros x s0 q0 op s0'. apply Serial_free.
Qed.

Lemma Serial_register pins s h s' :
  Inv pins None s →
  Serial s →
  valid (EvRegister h) s = true →
  exec (EvRegister h) s = Ok (tt, s') →
  Serial s'.
Proof.
  intros HI [Hfr HS] Hvalid Hrun.
  unfold valid in Hvalid. apply andb_true_iff in Hvalid as [_ Hdis].
  simpl in Hdis. destruct (object_by_handle s) as [t|] eqn:Ht; [|done].
  apply bool_decide_eq_true in Hdis.
  destruct (exec_register _ _ _ _ HI Ht Hdis) as (Hrun' & _ & _).
  rewrite Hrun' in Hrun. injection Hrun as <-.
  split; simpl.
  - intros r Hr. specialize (Hfr r Hr). lia.
  - intros p o Hp.
    apply lookup_insert_Some in Hp as [[<- <-]|[_ Hp]]; [|eauto].
    simpl. rewrite running_none; [lia|].
    intros q op Hq E.
    assert (object op < next_ptr s)%positive; [|lia].
    apply (inv_fresh_obj _ _ _ HI). by eapply inv_op_obj.
Qed.

Lemma Serial_exec pins s e s' :
  Inv pins None s →
  Serial s →
  serialising e s = true →
  exec e s = Ok (tt, s') →
  Serial s'.
Proof.
  intros HI HS Hser Hrun.
  unfold serialising in Hser. apply andb_true_iff in Hser as [Hvalid Hdirect].
  destruct e as [h|obj c|obj c deps|q|c|q|obj|h| |];
    [by eapply Serial_register|done| |by eapply Serial_complete|..].
  all: revert Hrun; clear HI Hvalid Hdirect; revert s s' HS.
  all: match goal with
       | |- ∀ s s', Serial s → exec ?e s = Ok (tt, s') → Serial s' =>
           cut (preserves Serial (exec e));
             [intros Hp s s' HS Hrun; exact (Hp s tt s' HS Hrun)|]
       end.
  all: unfold exec, _gum_v8_object_operation_schedule_when_idle,
         _gum_v8_module_operation_new, gum_v8_module_operation_schedule,
         gum_v8_module_operation_finish, gum_v8_module_operation_free,
         gum_v8_object_on_weak_notify, g_hash_table_remove,
         gum_v8_object_manager_cancel, gum_v8_object_manager_flush,
         gum_v8_object_manager_free, gum_v8_object_free,
         g_cancellable_cancel_object, g_cancellable_cancel_manager,
         _gum_v8_core_pin, _gum_v8_core_unpin,
         store_module_operation, set_hash_table, emit.
  all: preserves_auto serial.
Qed.

Lemma Serial_initial pins : Serial (initial_state pins).
Proof.
  split.
  - intros p [v Hp]. unfold initial_state in Hp; simpl in Hp.
    by rewrite lookup_empty in Hp.
  - intros p o Hp. unfold initial_state in Hp; simpl in Hp.
    by rewrite lookup_empty in Hp.
Qed.

Lemma reachable_mono (G G' : Event → State → bool) pins s :
  (∀ e s, G e s = true → G' e s = true) →
  reachable G pins s → reachable G' pins s.
Proof.
  intros HG. induction 1 as [|s e s' _ IH Hg Hexec]; [apply reachable_init|].
  eapply reachable_step; eauto.
Qed.

Lemma serialising_valid e s : serialising e s = true → valid e s = true.
Proof. unfold serialising. intros H. by apply andb_true_iff in H as [? _]. Qed.

Lemma reachable_Serial pins s : reachable serialising pins s → Serial s.
Proof.
  induction 1 as [|s e s' Hs IH Hser Hexec]; [apply Serial_initial|].
  eapply Serial_exec; eauto.
  apply reachable_Inv. eapply reachable_mono; [apply serialising_valid | exact Hs].
Qed.

(** X11. Operations on one object run one at a time.  When the client
    keeps to the discipline and schedules every operation with
    [_gum_v8_object_operation_schedule_when_idle], then in every state the
    counter of every object is 0 or 1, and two operations whose jobs are
    started never belong to the same object. *)
Theorem operations_run_one_at_a_time pins s :
  reachable serialising pins s →
  (∀ p o, objects s !! p = Some o →
     num_active_operations o = 0 ∨ num_active_operations o = 1) ∧
  (∀ q1 op1 q2 op2,
     operations s !! q1 = Some op1 → operations s !! q2 = Some op2 →
     job op1 = JobStarted → job op2 = JobStarted →
     object op1 = object op2 → q1 = q2).
Proof.
  intros Hs. destruct (reachable_Serial _ _ Hs) as [_ HS].
  assert (HI : Inv pins None s).
  { apply reachable_Inv. eapply reachable_mono; [apply serialising_valid | exact Hs]. }
  split.
  - intros p o Hp. destruct (HS p o Hp). lia.
  - intros q1 op1 q2 op2 Hq1 Hq2 Hj1 Hj2 Hobj.
    destruct (decide (q1 = q2)) as [|Hne]; [done|exfalso].
    destruct (inv_op_obj _ _ _ HI q1 op1 Hq1) as [o Ho].
    destruct (HS _ _ Ho) as [Hle Hhi].
    pose proof (running_delete _ _ _ (object op1) Hq1) as H1.
    assert (Hq2' : delete q1 (operations s) !! q2 = Some op2)
      by (by rewrite lookup_delete_ne).
    pose proof (running_delete _ _ _ (object op1) Hq2') as H2.
    assert (Hr1 : is_running (object op1) op1 = true).
    { unfold is_running. by rewrite !bool_decide_eq_true_2. }
    assert (Hr2 : is_running (object op1) op2 = true).
    { unfold is_running. by rewrite !bool_decide_eq_true_2. }
    rewrite Hr1 in H1. rewrite Hr2 in H2. lia.
Qed.

Lemma operations_run_one_at_a_time_witness :
  (∀ p o,
     objects (state_after [EvRegister 7; EvScheduleWhenIdle 1 false None;
                           EvScheduleWhenIdle 1 true None]) !! p = Some o →
     num_active_operations o = 0 ∨ num_active_operations o = 1) ∧
  ∃ o, objects (state_after [EvRegister 7; EvScheduleWhenIdle 1 false None;
                             EvScheduleWhenIdle 1 true None]) !! 1%positive
       = Some o ∧ pending_operations o = [3%positive].
Proof.
  split; [|eexists; split; vm_compute; reflexivity].
  apply (operations_run_one_at_a_time 0).
  apply (run_reachable serialising 0
           [EvRegister 7; EvScheduleWhenIdle 1 false None;
            EvScheduleWhenIdle 1 true None] (initial_state 0));
    [apply reachable_init | vm_compute; reflexivity].
Defined.

(** ** Round trips *)

(** X12. A module operation leaves the scheduler as it found it.  From
    any state of a valid schedule, creating a module operation never
    fails and takes one pin; freeing it runs the cleanup function if
    there is one, then deletes the callback, then gives the pin back,
    then frees the memory.  Afterwards the registry, the objects, the
    object operations, the module operations and the pin count are what
    they were. *)
Theorem module_operation_round_trip pins s c :
  reachable valid pins s →
  ∃ s1 s2,
    _gum_v8_module_operation_new c s = Ok (next_ptr s, s1) ∧
    usage_count s1 = usage_count s + 1 ∧
    gum_v8_module_operation_free (next_ptr s) s1 = Ok (tt, s2) ∧
    object_by_handle s2 = object_by_handle s ∧
    manager_cancellable s2 = manager_cancellable s ∧
    objects s2 = objects s ∧
    operations s2 = operations s ∧
    module_operations s2 = module_operations s ∧
    usage_count s2 = usage_count s ∧
    trace s2 = trace s ++ [EPin] ++
               (if c then [ECleanup (next_ptr s)] else []) ++
               [EDeleteCallback (next_ptr s); EUnpin; ESliceFree (next_ptr s)].
Proof.
  intros Hs. pose proof (reachable_Inv _ _ Hs) as HI.
  pose proof (fresh_not_live _ _ (inv_fresh_mop _ _ _ HI)) as Hfresh.
  exists (set_trace (trace s ++ [EPin])
            (set_usage_count (usage_count s + 1)
               (set_module_operations
                  (<[next_ptr s := {| mjob := JobCreated; mcleanup := c |}]>
                     (module_operations s))
                  (set_next_ptr (Pos.succ (next_ptr s)) s)))).
  exists (set_trace (trace s ++ [EPin] ++
                       (if c then [ECleanup (next_ptr s)] else []) ++
                       [EDeleteCallback (next_ptr s); EUnpin;
                        ESliceFree (next_ptr s)])
            (set_next_ptr (Pos.succ (next_ptr s)) s)).
  split; [reflexivity|]. split; [reflexivity|]. split; [|done].
  unfold gum_v8_module_operation_free, _gum_v8_core_unpin.
  unfold_monad. simpl. rewrite lookup_insert_eq. simpl.
  destruct c; simpl; f_equal; f_equal; apply State_eq; simpl; try done; try lia.
  all: try (by rewrite delete_insert_eq, delete_id).
  all: by rewrite <- ?app_assoc.
Qed.

Lemma module_operation_round_trip_witness :
  ∃ s1 s2,
    _gum_v8_module_operation_new true idle_example = Ok (3%positive, s1) ∧
    gum_v8_module_operation_free 3 s1 = Ok (tt, s2) ∧
    usage_count s2 = usage_count idle_example.
Proof.
  destruct (module_operation_round_trip 0 idle_example true)
    as (s1 & s2 & H1 & _ & H2 & _ & _ & _ & _ & _ & Hu & _).
  { apply (state_after_reachable [EvRegister 7; EvSchedule 1 true; EvComplete 2]).
    vm_compute. reflexivity. }
  exists s1, s2. split; [exact H1|]. split; [exact H2 | exact Hu].
Defined.

(** X13. Scheduling an operation and completing it leaves the scheduler
    as it found it.  From any state of a valid schedule, on an object
    that has other active operations or an empty queue, scheduling an
    operation directly and then completing it never fails, and the
    registry, the tokens, the objects with their counters and queues,
    the operations and the pin count are afterwards what they were. *)
Theorem schedule_then_complete_restores pins s obj c o :
  reachable valid pins s →
  objects s !! obj = Some o →
  pending_operations o = [] ∨ num_active_operations o ≠ 0 →
  ∃ s1 s2,
    exec (EvSchedule obj c) s = Ok (tt, s1) ∧
    exec (EvComplete (next_ptr s)) s1 = Ok (tt, s2) ∧
    object_by_handle s2 = object_by_handle s ∧
    manager_cancellable s2 = manager_cancellable s ∧
    objects s2 = objects s ∧
    operations s2 = operations s ∧
    module_operations s2 = module_operations s ∧
    usage_count s2 = usage_count s.
Proof.
  intros Hs Ho Hcase. pose proof (reachable_Inv _ _ Hs) as HI.
  destruct (exec_schedule _ _ _ c _ HI Ho) as (Hrun1 & _ & _).
  pose proof (fresh_not_live _ _ (inv_fresh_op _ _ _ HI)) as Hfresh.
  assert (Hk : guint_wrap (num_active_operations o) = num_active_operations o).
  { rewrite (inv_count _ _ _ HI obj o Ho). unfold guint_wrap.
    apply Z.mod_mod. unfold guint_modulus. lia. }
  set (q := next_ptr s) in *.
  set (op1 := with_job JobStarted (new_operation obj c)).
  set (o1 := with_num_active_operations
               (guint_wrap (num_active_operations o + 1)) o).
  set (s1 := set_trace (trace s ++ [EPin; EIncrement obj; EJobStart q])
               (after_start q (new_operation obj c) o (after_new obj c s))) in *.
  assert (Hq1 : operations s1 !! q = Some op1) by apply lookup_insert_eq.
  assert (Ho1 : objects s1 !! object op1 = Some o1) by apply lookup_insert_eq.
  assert (Hback : guint_wrap (num_active_operations o1 - 1)
                  = num_active_operations o).
  { unfold o1. simpl. rewrite guint_wrap_pred.
    replace (num_active_operations o + 1 - 1) with (num_active_operations o) by lia.
    exact Hk. }
  exists s1. eexists. split; [exact Hrun1|]. split.
  { unfold exec.
    rewrite (bind_Ok _ _ _ _ _ (deref_operation_Some _ _ _ Hq1)). simpl.
    unfold gum_v8_object_operation_finish.
    apply (operation_free_no_pop _ _ _ _ Hq1 Ho1); [done|].
    rewrite Hback. destruct Hcase; [by right | by left]. }
  unfold o1 in Hback. simpl in Hback. subst q o1. simpl. repeat split.
  - rewrite Hback, insert_insert_eq. apply insert_id.
    rewrite Ho. f_equal. by destruct o.
  - rewrite insert_insert_eq, delete_insert_eq. by apply delete_id.
  - lia.
Qed.

Lemma schedule_then_complete_restores_witness :
  ∃ s1 s2,
    exec (EvSchedule 1 true) two_objects_example = Ok (tt, s1) ∧
    exec (EvComplete 4) s1 = Ok (tt, s2) ∧
    objects s2 = objects two_objects_example ∧
    operations s2 = operations two_objects_example.
Proof.
  destruct (schedule_then_complete_restores 0 two_objects_example 1%positive true
              {| handle := 7; cancellable := false;
                 num_active_operations := 1; pending_operations := [] |})
    as (s1 & s2 & H1 & H2 & _ & _ & Ho & Hp & _).
  - apply (state_after_reachable [EvRegister 7; EvRegister 8; EvSchedule 1 false]).
    vm_compute. reflexivity.
  - vm_compute. reflexivity.
  - by left.
  - exists s1, s2. split; [exact H1|]. split; [exact H2|]. split; [exact Ho | exact Hp].
Defined.

(** ** Teardown *)

Lemma for_each_free_trace l s :
  NoDup l.*2 →
  (∀ h q, (h, q) ∈ l →
     ∃ o, objects s !! q = Some o ∧ handle o = h ∧
          num_active_operations o = 0 ∧ pending_operations o = []) →
  for_each l (λ '(_, obj), gum_v8_object_free obj) s
  = Ok (tt, set_trace
              (trace s ++ flat_map (λ '(h, q), [EHandleUnref h; EObjectFree q]) l)
              (set_objects (delete_each l (objects s)) s)).
Proof.
  revert s. induction l as [|[h q] l IH]; intros s Hnd Hidle.
  - simpl. unfold ret. f_equal. f_equal. apply State_eq; simpl; try done.
    by rewrite app_nil_r.
  - rewrite fmap_cons in Hnd. apply NoDup_cons in Hnd as [Hq Hnd].
    destruct (Hidle h q) as (o & Ho & Hh & Hn & Hpq); [apply list_elem_of_here|].
    change (for_each ((h, q) :: l) (λ '(_, obj), gum_v8_object_free obj))
      with (gum_v8_object_free q ;;;
            for_each l (λ '(_, obj), gum_v8_object_free obj)).
    rewrite (bind_Ok _ _ _ _ _ (object_free_eq _ _ _ Ho Hn Hpq)).
    rewrite IH; [|done|].
    + f_equal. f_equal. apply State_eq; simpl; try done.
      by rewrite Hh, <- app_assoc.
    + intros h' q' Hx. simpl.
      destruct (Hidle h' q') as (o' & Ho' & ?); [by apply list_elem_of_further|].
      exists o'. split; [|done]. rewrite lookup_delete_ne; [done|].
      intros <-. apply Hq. apply list_elem_of_fmap. by exists (h', q).
Qed.

(** X14. Teardown releases everything.  In a state of a valid schedule
    with no operation outstanding, [gum_v8_object_manager_free] never
    fails: it destroys every registered object, releasing the native
    handle of each exactly once, in the order in which the table is
    traversed.  Afterwards there is no registry and no object, and the
    pin count is what it was before the manager was used. *)
Theorem teardown_releases_everything pins s t :
  reachable valid pins s →
  object_by_handle s = Some t →
  operations s = ∅ →
  module_operations s = ∅ →
  ∃ s',
    gum_v8_object_manager_free s = Ok (tt, s') ∧
    object_by_handle s' = None ∧
    objects s' = ∅ ∧
    usage_count s' = pins ∧
    trace s' = trace s ++
               flat_map (λ '(h, q), [EHandleUnref h; EObjectFree q]) (map_to_list t).
Proof.
  intros Hs Ht Hops Hmops. pose proof (reachable_Inv _ _ Hs) as HI.
  destruct (exec_teardown _ _ HI) as (tr & Hrun & _ & _); [eauto | done | done |].
  assert (Hidle : ∀ p o, objects s !! p = Some o →
                    num_active_operations o = 0 ∧ pending_operations o = []).
  { intros p o Hp. apply (unreferenced_idle _ _ _ _ _ HI Hp).
    intros q op Hq. by rewrite Hops, lookup_empty in Hq. }
  assert (Hloop :
            for_each (map_to_list t) (λ '(_, obj), gum_v8_object_free obj)
              (set_object_by_handle (Some ∅) s)
            = Ok (tt, set_trace
                        (trace s ++ flat_map (λ '(h, q), [EHandleUnref h; EObjectFree q])
                                      (map_to_list t))
                        (set_objects (delete_each (map_to_list t) (objects s))
                           (set_object_by_handle (Some ∅) s)))).
  { apply (for_each_free_trace (map_to_list t) (set_object_by_handle (Some ∅) s)).
    - apply NoDup_fmap_2_strong; [|apply NoDup_map_to_list].
      intros [h1 p1] [h2 p2] H1 H2 E. simpl in E. subst p2.
      apply elem_of_map_to_list in H1, H2.
      destruct (inv_table_obj _ _ _ HI t h1 p1 Ht H1) as (o1 & Ho1 & E1).
      destruct (inv_table_obj _ _ _ HI t h2 p1 Ht H2) as (o2 & Ho2 & E2).
      rewrite Ho1 in Ho2. injection Ho2 as <-. congruence.
    - intros h p Hx. apply elem_of_map_to_list in Hx. simpl.
      destruct (inv_table_obj _ _ _ HI t h p Ht Hx) as (o & Ho & Hh).
      exists o. split; [done|]. split; [done|]. eauto. }
  assert (Hfree : gum_v8_object_manager_free s
                  = Ok (tt, set_object_by_handle None
                              (set_trace
                                 (trace s ++
                                  flat_map (λ '(h, q), [EHandleUnref h; EObjectFree q])
                                    (map_to_list t))
                                 (set_objects (delete_each (map_to_list t) (objects s))
                                    (set_object_by_handle (Some ∅) s))))).
  { unfold gum_v8_object_manager_free.
    rewrite (bind_Ok _ _ _ _ _ (hash_table_Some _ _ Ht)).
    unfold set_hash_table, modify, bind at 1.
    by rewrite (bind_Ok _ _ _ _ _ Hloop). }
  unfold exec in Hrun. rewrite Hfree in Hrun. injection Hrun as Hrun _.
  eexists. split; [exact Hfree|]. simpl.
  split; [done|]. split; [|split; [|done]].
  - exact Hrun.
  - pose proof (inv_pins _ _ _ HI) as Hpins.
    rewrite Hops, Hmops, !map_size_empty in Hpins. lia.
Qed.

Lemma teardown_releases_everything_witness :
  ∃ s',
    gum_v8_object_manager_free idle_example = Ok (tt, s') ∧
    objects s' = ∅ ∧
    trace s' = trace idle_example ++ [EHandleUnref 7; EObjectFree 1].
Proof.
  destruct (teardown_releases_everything 0 idle_example
              {[ 7%positive := 1%positive ]})
    as (s' & Hrun & _ & Ho & _ & Htr).
  - apply (state_after_reachable [EvRegister 7; EvSchedule 1 true; EvComplete 2]).
    vm_compute. reflexivity.
  - vm_compute. reflexivity.
  - vm_compute. reflexivity.
  - vm_compute. reflexivity.
  - exists s'. split; [exact Hrun|]. split; [exact Ho | exact Htr].
Defined.

(** ** Every job is started once *)

Create HintDb once discriminated.

Lemma starts_app tr1 tr2 : starts (tr1 ++ tr2) = starts tr1 ++ starts tr2.
Proof. unfold starts. apply omap_app. Qed.

Lemma starts_other e : is_start e = false → starts [e] = [].
Proof. by destruct e. Qed.

Lemma InHand_nil s : StartedOnce s → InHand [] s.
Proof. intros H. split; [done|]. intros r Hr. by apply elem_of_nil in Hr. Qed.

Lemma InHand_weaken C C' s : (∀ r, r ∈ C' → r ∈ C) → InHand C s → InHand C' s.
Proof. intros HC [HS Hc]. split; [done|]. auto. Qed.

Lemma InHand_frame C s s' :
  starts (trace s') = starts (trace s) →
  operations s' = operations s →
  next_ptr s' = next_ptr s →
  InHand C s → InHand C s'.
Proof.
  intros Ht Ho Hn [[H1 H2 H3 H4 H5] Hc]. split.
  - constructor; rewrite ?Ht, ?Ho, ?Hn; done.
  - intros r Hr. unfold created. rewrite Ho. by apply Hc.
Qed.

Lemma IH_modify C (f : State → State) :
  (∀ s, trace (f s) = trace s ∧ operations (f s) = operations s ∧
        next_ptr (f s) = next_ptr s) →
  preserves (InHand C) (modify f).
Proof.
  intros Hf. apply preserves_modify. intros s HP.
  destruct (Hf s) as (Ht & Ho & Hn). apply (InHand_frame C s); try done.
  by rewrite Ht.
Qed.

Lemma IH_emit C e : is_start e = false → preserves (InHand C) (emit e).
Proof.
  intros He. apply preserves_modify. intros s HP.
  apply (InHand_frame C s); try done. simpl.
  by rewrite starts_app, starts_other, app_nil_r.
Qed.

Lemma IH_alloc C : preserves (InHand C) g_slice_alloc.
Proof.
  intros s a s' [[H1 H2 H3 H4 H5] Hc] [= _ <-]. split; [|done].
  constructor; simpl; try done.
  - intros q Hq. specialize (H2 q Hq). lia.
  - intros q Hq. specialize (H5 q Hq). lia.
Qed.

Lemma IH_update_object C p f : preserves (InHand C) (update_object p f).
Proof.
  apply preserves_bind; [apply preserves_deref_object|]. intros o.
  by apply IH_modify.
Qed.

(** An update of an operation that leaves its job as it is. *)
Lemma IH_update_operation C q f :
  (∀ o, job (f o) = job o) →
  preserves (InHand C) (update_operation q f).
Proof.
  intros Hf s [] s' [[H1 H2 H3 H4 H5] Hc] Hrun.
  unfold update_operation in Hrun. unfold_monad.
  destruct (operations s !! q) as [o|] eqn:Hq; [|done]. injection Hrun as <-.
  split; [constructor; simpl; try done|].
  - intros r op Hr Hj. apply lookup_insert_Some in Hr as [[<- <-]|[_ Hr]]; [|eauto].
    rewrite Hf in Hj. eauto.
  - intros r op Hr Hj. apply lookup_insert_Some in Hr as [[<- <-]|[_ Hr]]; [|eauto].
    rewrite Hf in Hj. eauto.
  - intros r Hr. apply lookup_insert_is_Some in Hr as [<-|[_ Hr]]; eauto.
  - intros r Hr. destruct (Hc r Hr) as (op & Hop & Hj). unfold created. simpl.
    destruct (decide (r = q)) as [->|Hne].
    + rewrite Hq in Hop. injection Hop as <-. exists (f o).
      rewrite lookup_insert_eq. split; [done|]. by rewrite Hf.
    + exists op. by rewrite lookup_insert_ne.
Qed.

Lemma IH_operation_new C obj c :
  hoare (InHand C) (_gum_v8_object_operation_new obj c)
    (λ q s, InHand (q :: C) s ∧ q ∉ C).
Proof.
  intros s q s' [[H1 H2 H3 H4 H5] Hc] Hrun.
  destruct (objects s !! obj) as [o|] eqn:Ho; last first.
  { unfold _gum_v8_object_operation_new in Hrun. unfold_monad. simpl in Hrun.
    by rewrite Ho in Hrun. }
  rewrite operation_new_eq in Hrun by eauto. injection Hrun as <- <-.
  pose proof (fresh_not_live _ _ H5) as Hnone.
  assert (Hnew : next_ptr s ∉ starts (trace s)).
  { intros Hin. specialize (H2 _ Hin). lia. }
  assert (HnC : next_ptr s ∉ C).
  { intros Hin. destruct (Hc _ Hin) as (op & Hop & _). congruence. }
  split; [|done]. split; [constructor; simpl|].
  - by rewrite starts_app, app_nil_r.
  - rewrite starts_app, app_nil_r. intros q Hq. specialize (H2 q Hq). lia.
  - rewrite starts_app, app_nil_r. intros q op Hq Hj.
    apply lookup_insert_Some in Hq as [[<- _]|[_ Hq]]; eauto.
  - rewrite starts_app, app_nil_r. intros q op Hq Hj.
    apply lookup_insert_Some in Hq as [[_ <-]|[_ Hq]]; [done | eauto].
  - intros q Hq. apply lookup_insert_is_Some in Hq as [<-|[_ Hq]]; [lia|].
    specialize (H5 q Hq). lia.
  - intros r Hr. unfold created. simpl.
    apply elem_of_cons in Hr as [->|Hr].
    + eexists. by rewrite lookup_insert_eq.
    + destruct (Hc r Hr) as (op & Hop & Hj). exists op.
      rewrite lookup_insert_ne; [done|]. intros <-. congruence.
Qed.

(** Starting the job of an operation that is in hand. *)
Lemma IH_schedule C self :
  self ∉ C →
  hoare (InHand (self :: C)) (_gum_v8_object_operation_schedule self)
    (λ _, InHand C).
Proof.
  intros HnC s [] s' [[H1 H2 H3 H4 H5] Hc] Hrun.
  destruct (Hc self) as (o & Ho & Hj); [apply list_elem_of_here|].
  destruct (objects s !! object o) as [obj|] eqn:Hobj; last first.
  { unfold _gum_v8_object_operation_schedule in Hrun. unfold_monad.
    rewrite Ho in Hrun. simpl in Hrun. by rewrite Hobj in Hrun. }
  rewrite (schedule_eq _ _ _ _ Ho Hobj) in Hrun. injection Hrun as <-.
  assert (Hst : starts (trace s ++ [EIncrement (object o); EJobStart self])
                = starts (trace s) ++ [self]) by (by rewrite starts_app).
  split; [constructor; simpl; rewrite ?Hst|].
  - apply NoDup_app. split; [done|]. split; [|apply NoDup_singleton].
    intros q Hq Hq'. apply list_elem_of_singleton in Hq' as ->. by eapply H3.
  - intros q Hq. apply elem_of_app in Hq as [Hq|Hq]; [eauto|].
    apply list_elem_of_singleton in Hq as ->. apply H5. eauto.
  - intros q op Hq Hjq. apply lookup_insert_Some in Hq as [[<- <-]|[Hne Hq]];
      [done|].
    intros Hin. apply elem_of_app in Hin as [Hin|Hin]; [by eapply H3|].
    by apply list_elem_of_singleton in Hin.
  - intros q op Hq Hjq. apply elem_of_app.
    apply lookup_insert_Some in Hq as [[<- _]|[_ Hq]];
      [right; apply list_elem_of_here | left; eauto].
  - intros q Hq. apply lookup_insert_is_Some in Hq as [<-|[_ Hq]]; eauto.
  - intros r Hr. unfold created. simpl.
    destruct (Hc r) as (op & Hop & Hjr); [by apply list_elem_of_further|].
    exists op. rewrite lookup_insert_ne; [done|]. by intros <-.
Qed.

Lemma IH_try_schedule C self :
  self ∉ C →
  hoare (InHand (self :: C))
    (gum_v8_object_operation_try_schedule_when_idle self) (λ _, InHand C).
Proof.
  intros HnC. unfold gum_v8_object_operation_try_schedule_when_idle, g_queue_push_tail.
  assert (Hweak : ∀ s, InHand (self :: C) s → InHand C s).
  { intros s. apply InHand_weaken. intros r ?. by apply list_elem_of_further. }
  eapply hoare_bind; [apply preserves_hoare, preserves_deref_operation|].
  intros o; cbv beta.
  destruct (pending_dependencies o); [|by apply hoare_ret].
  eapply hoare_bind; [apply preserves_hoare, preserves_deref_object|].
  intros obj; cbv beta.
  destruct (bool_decide _); [by apply IH_schedule|].
  apply (hoare_conseq _ (InHand (self :: C)) _ (λ _, InHand (self :: C)));
    [|done|intros _; exact Hweak].
  apply preserves_hoare.
  apply preserves_bind; [apply IH_update_object|]. intros _. by apply IH_emit.
Qed.

Lemma IH_schedule_when_idle depth : ∀ C self deps,
  self ∉ C →
  hoare (InHand (self :: C)) (schedule_when_idle depth self deps)
    (λ _, InHand C).
Proof.
  induction depth as [|depth IH]; intros C self deps HnC; simpl.
  { by intros s a s' _ H. }
  eapply hoare_bind; [|intros ?; cbv beta; by apply IH_try_schedule].
  apply preserves_hoare.
  destruct deps as [deps|]; [|apply preserves_ret].
  apply preserves_for_each. intros dep.
  apply preserves_bind; [apply preserves_deref_object|]. intros d.
  destruct (bool_decide _); [|apply preserves_ret].
  apply hoare_preserves.
  eapply hoare_bind; [apply IH_operation_new|]. intros op; cbv beta.
  intros s a s' [HP Hop] Hrun. revert s a s' HP Hrun.
  change (hoare (InHand (op :: self :: C))
            (update_operation op (with_blocked_operation (Some self)) ;;;
             update_operation self (λ o,
               with_pending_dependencies
                 (g_slist_prepend (pending_dependencies o) op) o) ;;;
             schedule_when_idle depth op None)
            (λ _, InHand (self :: C))).
  eapply hoare_bind; [apply preserves_hoare; by apply IH_update_operation|].
  intros ?; cbv beta.
  eapply hoare_bind; [apply preserves_hoare; by apply IH_update_operation|].
  intros ?; cbv beta. by apply IH.
Qed.

Lemma starts_completion_prefix q op : starts (completion_prefix q op) = [].
Proof. unfold completion_prefix. by destruct (cleanup op). Qed.

Lemma SO_of_InHand {A} (m : M A) :
  preserves (InHand []) m → preserves StartedOnce m.
Proof.
  intros Hm s a s' HS Hrun.
  by destruct (Hm s a s' (InHand_nil s HS) Hrun).
Qed.

#[local] Hint Resolve preserves_deref_object preserves_deref_operation
  preserves_deref_module_operation preserves_hash_table preserves_g_assert
  IH_alloc IH_update_object : once.

#[local] Hint Extern 2 (preserves (InHand _) (modify _)) =>
  apply IH_modify; intros ?; repeat split; reflexivity : once.
#[local] Hint Extern 1 (preserves (InHand _) (emit _)) =>
  apply IH_emit; reflexivity : once.

(** The completion of a started operation, in a state that satisfies the
    invariant of valid schedules. *)
Lemma SO_free pins x s q op s' :
  Inv pins x s →
  StartedOnce s →
  operations s !! q = Some op →
  job op = JobStarted →
  gum_v8_object_operation_free q s = Ok (tt, s') →
  StartedOnce s'.
Proof.
  intros HI [H1 H2 H3 H4 H5] Hq Hjob Hrun.
  pose proof (started_no_dependencies _ _ _ _ _ HI Hq Hjob) as Hdeps.
  destruct (inv_op_obj _ _ _ HI q op Hq) as [o Ho].
  assert (Hplain : ∀ tr,
            starts tr = [] →
            StartedOnce
              {| object_by_handle := object_by_handle s;
                 manager_cancellable := manager_cancellable s;
                 objects :=
                   <[object op := with_num_active_operations
                                    (guint_wrap (num_active_operations o - 1)) o]>
                     (objects s);
                 operations := delete q (operations s);
                 module_operations := module_operations s;
                 usage_count := usage_count s - 1;
                 next_ptr := next_ptr s;
                 trace := trace s ++ tr |}).
  { intros tr Htr. constructor; simpl; rewrite ?starts_app, ?Htr, ?app_nil_r; try done.
    - intros r rop Hr. apply lookup_delete_Some in Hr as [_ Hr]. eauto.
    - intros r rop Hr. apply lookup_delete_Some in Hr as [_ Hr]. eauto.
    - intros r [v Hr]. apply lookup_delete_Some in Hr as [_ Hr]. eauto. }
  destruct (decide (guint_wrap (num_active_operations o - 1) = 0)) as [Hn|Hn];
    [destruct (pending_operations o) as [|next rest] eqn:Hpq|].
  - rewrite (operation_free_no_pop _ _ _ _ Hq Ho Hdeps) in Hrun by (by right).
    injection Hrun as <-. apply Hplain.
    by rewrite starts_app, starts_completion_prefix.
  - destruct (inv_queue _ _ _ HI (object op) o next Ho)
      as (nop & Hnext & Hown & Hnj & Hnd).
    { rewrite Hpq. apply list_elem_of_here. }
    rewrite (operation_free_pop _ _ _ _ _ _ _ Hq Ho Hdeps Hn Hpq Hnext Hown) in Hrun.
    injection Hrun as <-.
    assert (Hst : starts (trace s ++ completion_prefix q op ++
                          [EPopHead (object op) next; EIncrement (object op);
                           EJobStart next; EUnpin; ESliceFree q])
                  = starts (trace s) ++ [next]).
    { by rewrite !starts_app, starts_completion_prefix. }
    constructor; simpl; rewrite ?Hst.
    + apply NoDup_app. split; [done|]. split; [|apply NoDup_singleton].
      intros r Hr Hr'. apply list_elem_of_singleton in Hr' as ->. by eapply H3.
    + intros r Hr. apply elem_of_app in Hr as [Hr|Hr]; [eauto|].
      apply list_elem_of_singleton in Hr as ->. apply H5. eauto.
    + intros r rop Hr Hjr. apply lookup_delete_Some in Hr as [_ Hr].
      apply lookup_insert_Some in Hr as [[<- <-]|[Hne Hr]]; [done|].
      intros Hin. apply elem_of_app in Hin as [Hin|Hin]; [by eapply H3|].
      by apply list_elem_of_singleton in Hin.
    + intros r rop Hr Hjr. apply lookup_delete_Some in Hr as [_ Hr].
      apply elem_of_app.
      apply lookup_insert_Some in Hr as [[<- _]|[_ Hr]];
        [right; apply list_elem_of_here | left; eauto].
    + intros r [v Hr]. apply lookup_delete_Some in Hr as [_ Hr].
      apply lookup_insert_Some in Hr as [[<- _]|[_ Hr]]; eauto.
  - rewrite (operation_free_no_pop _ _ _ _ Hq Ho Hdeps) in Hrun by (by left).
    injection Hrun as <-. apply Hplain.
    by rewrite starts_app, starts_completion_prefix.
Qed.

Lemma SO_complete pins s q s' :
  Inv pins None s →
  StartedOnce s →
  valid (EvComplete q) s = true →
  exec (EvComplete q) s = Ok (tt, s') →
  StartedOnce s'.
Proof.
  apply (complete_keeps StartedOnce StartedOnce pins).
  - intros b q0. apply SO_of_InHand. by apply IH_update_operation.
  - intros b bop s0 s0' HS Hb Hj Hrun.
    refine (proj1 (IH_try_schedule [] b _ s0 tt s0' _ Hrun)).
    + apply not_elem_of_nil.
    + split; [done|]. intros r Hr. apply list_elem_of_singleton in Hr as ->.
      by exists bop.
  - intros x s0 q0 op s0'. apply SO_free.
Qed.

Lemma SO_module_schedule pins s c s' :
  Inv pins None s →
  StartedOnce s →
  valid (EvModuleSchedule c) s = true →
  exec (EvModuleSchedule c) s = Ok (tt, s') →
  StartedOnce s'.
Proof.
  intros HI [H1 H2 H3 H4 H5] Hvalid Hrun.
  unfold valid in Hvalid. apply andb_true_iff in Hvalid as [Hen _].
  simpl in Hen. apply bool_decide_eq_true in Hen.
  destruct (exec_module_schedule _ _ c HI Hen) as (Hrun' & _ & _).
  rewrite Hrun' in Hrun. injection Hrun as <-.
  assert (Hst : starts (trace s ++ [EPin; EJobStart (next_ptr s)])
                = starts (trace s) ++ [next_ptr s]) by (by rewrite starts_app).
  assert (Hnew : next_ptr s ∉ starts (trace s)).
  { intros Hin. specialize (H2 _ Hin). lia. }
  constructor; simpl; rewrite ?Hst.
  - apply NoDup_app. split; [done|]. split; [|apply NoDup_singleton].
    intros r Hr Hr'. by apply list_elem_of_singleton in Hr' as ->.
  - intros r Hr. apply elem_of_app in Hr as [Hr|Hr]; [specialize (H2 r Hr); lia|].
    apply list_elem_of_singleton in Hr as ->. lia.
  - intros r rop Hr Hjr Hin. apply elem_of_app in Hin as [Hin|Hin]; [by eapply H3|].
    apply list_elem_of_singleton in Hin as ->.
    assert (next_ptr s < next_ptr s)%positive by (apply H5; eauto). lia.
  - intros r rop Hr Hjr. apply elem_of_app. left. eauto.
  - intros r Hr. specialize (H5 r Hr). lia.
Qed.

Lemma SO_exec pins s e s' :
  Inv pins None s →
  StartedOnce s →
  valid e s = true →
  exec e s = Ok (tt, s') →
  StartedOnce s'.
Proof.
  intros HI HS Hvalid Hrun.
  destruct e as [h|obj c|obj c deps|q|c|q|obj|h| |];
    [| | |by eapply SO_complete|by eapply SO_module_schedule|..].
  all: revert Hrun; clear HI Hvalid; revert s s' HS.
  all: match goal with
       | |- ∀ s s', StartedOnce s → exec ?e s = Ok (tt, s') → StartedOnce s' =>
           cut (preserves (InHand []) (exec e));
             [intros Hp s s' HS Hrun;
              exact (SO_of_InHand _ Hp s tt s' HS Hrun)|]
       end.
  all: unfold exec.
  2: { apply hoare_preserves.
       eapply hoare_bind; [apply IH_operation_new|]. intros op; cbv beta.
       eapply hoare_conseq; [apply (IH_schedule [] op), not_elem_of_nil| |done].
       by intros s [? _]. }
  2: { apply hoare_preserves.
       eapply hoare_bind; [apply IH_operation_new|]. intros op; cbv beta.
       eapply hoare_conseq;
         [apply (IH_schedule_when_idle 2 [] op), not_elem_of_nil| |done].
       by intros s [? _]. }
  all: unfold _gum_v8_object_manager_add, g_hash_table_insert, store_object,
         gum_v8_module_operation_finish, gum_v8_module_operation_free,
         gum_v8_object_on_weak_notify, g_hash_table_remove,
         gum_v8_object_manager_cancel, gum_v8_object_manager_flush,
         gum_v8_object_manager_free, gum_v8_object_free,
         g_cancellable_cancel_object, g_cancellable_cancel_manager,
         _gum_v8_core_unpin, set_hash_table.
  all: preserves_auto once.
Qed.

Lemma SO_initial pins : StartedOnce (initial_state pins).
Proof.
  constructor; unfold initial_state; simpl.
  - apply NoDup_nil_2.
  - intros q Hq. by apply elem_of_nil in Hq.
  - intros q op Hq. by rewrite lookup_empty in Hq.
  - intros q op Hq. by rewrite lookup_empty in Hq.
  - intros q [v Hq]. by rewrite lookup_empty in Hq.
Qed.

Lemma reachable_StartedOnce pins s : reachable valid pins s → StartedOnce s.
Proof.
  induction 1 as [|s e s' Hs IH Hvalid Hexec]; [apply SO_initial|].
  eapply SO_exec; eauto using reachable_Inv.
Qed.

(** X15. Every job is started at most once.  In every state of every
    valid schedule the sequence of jobs started so far has no
    duplicates, and for an operation in the store the record and the
    history agree: its job is marked started exactly when a start of it
    is in the trace. *)
Theorem every_job_starts_once pins s :
  reachable valid pins s →
  NoDup (starts (trace s)) ∧
  ∀ q op, operations s !! q = Some op →
    (job op = JobStarted ↔ q ∈ starts (trace s)).
Proof.
  intros Hs. destruct (reachable_StartedOnce _ _ Hs) as [H1 H2 H3 H4 H5].
  split; [done|]. intros q op Hq. split; [by eapply H4|].
  intros Hin. destruct (job op) eqn:Hj; [|done].
  exfalso. by eapply H3.
Qed.

Lemma every_job_starts_once_witness :
  NoDup (starts (trace fifo_example)) ∧
  starts (trace fifo_example) = [2%positive; 3%positive; 4%positive].
Proof.
  split; [|vm_compute; reflexivity].
  apply (every_job_starts_once 0 fifo_example).
  apply (state_after_reachable
           [EvRegister 7; EvSchedule 1 true;
            EvScheduleWhenIdle 1 false None; EvScheduleWhenIdle 1 false None;
            EvComplete 2; EvComplete 3]).
  vm_compute. reflexivity.
Defined.

(** ** Progress *)

(** Where the invariants of valid schedules hold and an operation is in
    the store, the job of some operation is started. *)
Lemma running_exists pins s :
  Inv pins None s →
  Served s →
  NoneLost [] s →
  operations s ≠ ∅ →
  ∃ q op, operations s !! q = Some op ∧ job op = JobStarted.
Proof.
  intros HI HS [_ HNL] Hne.
  assert (Hqueued : ∀ o r,
            is_Some (objects s !! r) → objects s !! r = Some o →
            pending_operations o ≠ [] →
            ∃ q op, operations s !! q = Some op ∧ job op = JobStarted).
  { intros o r _ Ho Hq.
    destruct (served_by_running _ _ _ _ _ HI HS Ho Hq) as (q & op & Hq' & _ & Hj).
    eauto. }
  assert (Hin_ne : ∀ (r : ptr) l, r ∈ l → l ≠ []).
  { intros r l Hin ->. by apply elem_of_nil in Hin. }
  apply map_choose in Hne as (r & rop & Hr).
  destruct (HNL r rop Hr) as [Hin|[Hj|[Hd|(o & Ho & Hin)]]].
  - by apply elem_of_nil in Hin.
  - eauto.
  - destruct (pending_dependencies rop) as [|d l] eqn:Hdeps; [done|].
    destruct (inv_deps _ _ _ HI r rop d Hr) as (pr & Hpr & Hb).
    { rewrite Hdeps. apply list_elem_of_here. }
    destruct (inv_probe _ _ _ HI d pr r Hpr Hb) as [Hnil _].
    destruct (HNL d pr Hpr) as [Hin|[Hj|[Hd'|(o & Ho & Hin)]]].
    + by apply elem_of_nil in Hin.
    + eauto.
    + done.
    + eapply Hqueued; eauto.
  - eapply Hqueued; eauto.
Qed.

(** X16. The scheduler never deadlocks.  In every state of every valid
    schedule in which an operation is outstanding, the job of some
    operation is started: whatever waits in a queue or for a dependency,
    there is a job whose completion the job facility can deliver. *)
Theorem some_job_is_running pins s :
  reachable valid pins s →
  operations s ≠ ∅ →
  ∃ q op, operations s !! q = Some op ∧ job op = JobStarted ∧
          valid (EvComplete q) s = true.
Proof.
  intros Hs Hne.
  destruct (running_exists pins s) as (q & op & Hq & Hj).
  - by apply reachable_Inv.
  - by apply (reachable_Served pins).
  - by apply (reachable_NoneLost valid pins).
  - exact Hne.
  - exists q, op. split; [done|]. split; [done|].
    unfold valid, enabled, disciplined, has_job. by rewrite Hq, Hj.
Qed.

Lemma some_job_is_running_witness :
  ∃ q op, operations barrier_example !! q = Some op ∧ job op = JobStarted ∧
          valid (EvComplete q) barrier_example = true.
Proof.
  apply (some_job_is_running 0 barrier_example).
  - apply (state_after_reachable
             [EvRegister 7; EvRegister 8; EvSchedule 1 false;
              EvScheduleWhenIdle 2 true (Some [1%positive])]).
    vm_compute. reflexivity.
  - intros E. apply (f_equal size) in E. vm_compute in E. discriminate E.
Defined.

Lemma size_update_operation n q f :
  preserves (λ s, size (operations s) = n) (update_operation q f).
Proof.
  intros s [] s' HP Hrun. unfold update_operation in Hrun. unfold_monad.
  destruct (operations s !! q) as [o|] eqn:Hq; [|done]. injection Hrun as <-.
  simpl. by rewrite map_size_insert_Some.
Qed.

Lemma size_try_schedule n self :
  preserves (λ s, size (operations s) = n)
    (gum_v8_object_operation_try_schedule_when_idle self).
Proof.
  assert (Hmod : ∀ f, (∀ s, operations (f s) = operations s) →
                      preserves (λ s, size (operations s) = n) (modify f)).
  { intros f Hf. apply preserves_modify. intros s. by rewrite Hf. }
  unfold gum_v8_object_operation_try_schedule_when_idle,
    _gum_v8_object_operation_schedule, gum_script_job_start_on_js_thread,
    g_queue_push_tail, update_object, store_object, emit.
  repeat first
    [ solve [eauto using preserves_deref_object, preserves_deref_operation,
               size_update_operation]
    | apply preserves_ret
    | apply Hmod; intros ?; reflexivity
    | match goal with
      | |- preserves _ (match ?x with _ => _ end) => destruct x
      end
    | apply preserves_bind; [|intros ?] ].
Qed.

Lemma size_delete_live {A} (m : gmap positive A) q x :
  m !! q = Some x → S (size (delete q m)) = size m.
Proof.
  intros Hq. rewrite map_size_delete_Some by eauto.
  assert (size m ≠ 0%nat) by (by eapply map_size_ne_0_lookup_2). lia.
Qed.

(** The completion of a started operation takes one operation out of the
    store. *)
Lemma size_free pins x s q op s' :
  Inv pins x s →
  operations s !! q = Some op →
  job op = JobStarted →
  gum_v8_object_operation_free q s = Ok (tt, s') →
  S (size (operations s')) = size (operations s).
Proof.
  intros HI Hq Hjob Hrun.
  pose proof (started_no_dependencies _ _ _ _ _ HI Hq Hjob) as Hdeps.
  destruct (inv_op_obj _ _ _ HI q op Hq) as [o Ho].
  destruct (decide (guint_wrap (num_active_operations o - 1) = 0)) as [Hn|Hn];
    [destruct (pending_operations o) as [|next rest] eqn:Hpq|].
  - rewrite (operation_free_no_pop _ _ _ _ Hq Ho Hdeps) in Hrun by (by right).
    injection Hrun as <-. simpl. by apply (size_delete_live _ _ op).
  - destruct (inv_queue _ _ _ HI (object op) o next Ho)
      as (nop & Hnext & Hown & Hnj & Hnd).
    { rewrite Hpq. apply list_elem_of_here. }
    assert (Hne : next ≠ q) by (intros ->; congruence).
    rewrite (operation_free_pop _ _ _ _ _ _ _ Hq Ho Hdeps Hn Hpq Hnext Hown) in Hrun.
    injection Hrun as <-. simpl.
    rewrite (size_delete_live _ _ op) by (by rewrite lookup_insert_ne).
    by rewrite map_size_insert_Some.
  - rewrite (operation_free_no_pop _ _ _ _ Hq Ho Hdeps) in Hrun by (by left).
    injection Hrun as <-. simpl. by apply (size_delete_live _ _ op).
Qed.

Lemma size_complete pins s q s' :
  Inv pins None s →
  valid (EvComplete q) s = true →
  exec (EvComplete q) s = Ok (tt, s') →
  S (size (operations s')) = size (operations s).
Proof.
  intros HI Hvalid Hrun.
  apply (complete_keeps (λ s0, size (operations s0) = size (operations s))
           (λ s0, S (size (operations s0)) = size (operations s)) pins)
    with (s := s) (q := q); try done.
  - intros b q0. apply size_update_operation.
  - intros b bop s0 s0' HS _ _. by apply size_try_schedule.
  - intros x s0 q0 op s0' HI0 <- Hq0 Hj0. by eapply size_free.
Qed.

Lemma run_cons G e evs s s1 :
  G e s = true → exec e s = Ok (tt, s1) → run G (e :: evs) s = run G evs s1.
Proof. intros HG He. cbn [run]. by rewrite HG, He. Qed.

Lemma drain pins : ∀ n s,
  reachable valid pins s →
  size (operations s) = n →
  ∃ evs s',
    forallb is_complete evs = true ∧ length evs = n ∧
    run valid evs s = Some (Ok s') ∧ operations s' = ∅.
Proof.
  induction n as [|n IH]; intros s Hs Hn.
  - exists [], s. repeat split; try done. by apply map_size_empty_inv.
  - pose proof (reachable_Inv _ _ Hs) as HI.
    destruct (running_exists pins s) as (q & op & Hq & Hj); [done|..].
    { by apply (reachable_Served pins). }
    { by apply (reachable_NoneLost valid pins). }
    { intros E. by rewrite E, map_size_empty in Hn. }
    assert (Hvalid : valid (EvComplete q) s = true).
    { unfold valid, enabled, disciplined, has_job. by rewrite Hq, Hj. }
    destruct (step_ok _ _ _ HI Hvalid) as (s1 & Hrun & HI1 & _).
    assert (Hs1 : reachable valid pins s1) by (by eapply reachable_step).
    pose proof (size_complete _ _ _ _ HI Hvalid Hrun) as Hsize.
    destruct (IH s1 Hs1) as (evs & s' & Hall & Hlen & Hrun' & Hemp); [lia|].
    exists (EvComplete q :: evs), s'.
    rewrite (run_cons valid _ _ _ _ Hvalid Hrun). simpl.
    repeat split; auto.
Qed.

(** X17. Every schedule can be brought to completion.  From every state
    of every valid schedule, delivering completions of started jobs, and
    nothing else, empties the scheduler: there is a sequence of exactly
    as many completions as there are operations in the store, each one
    valid where it is delivered and none failing, after which no
    operation is left. *)
Theorem scheduler_drains pins s :
  reachable valid pins s →
  ∃ evs s',
    forallb is_complete evs = true ∧
    length evs = size (operations s) ∧
    run valid evs s = Some (Ok s') ∧
    operations s' = ∅.
Proof.
  intros Hs. by apply (drain pins (size (operations s))).
Qed.

Lemma scheduler_drains_witness :
  ∃ evs s',
    forallb is_complete evs = true ∧
    length evs = 3%nat ∧
    run valid evs barrier_example = Some (Ok s') ∧
    operations s' = ∅.
Proof.
  apply (scheduler_drains 0 barrier_example).
  apply (state_after_reachable
           [EvRegister 7; EvRegister 8; EvSchedule 1 false;
            EvScheduleWhenIdle 2 true (Some [1%positive])]).
  vm_compute. reflexivity.
Defined.

(** ** What a completion does to the other operations *)

Lemma deps_update_operation r L b f :
  (∀ o, pending_dependencies (f o) = pending_dependencies o) →
  preserves (λ s, ∃ o, operations s !! r = Some o ∧ pending_dependencies o = L)
    (update_operation b f).
Proof.
  intros Hf s [] s' (o & Ho & HL) Hrun. unfold update_operation in Hrun.
  unfold_monad. destruct (operations s !! b) as [ob|] eqn:Hb; [|done].
  injection Hrun as <-. simpl.
  destruct (decide (r = b)) as [->|Hne].
  - rewrite Hb in Ho. injection Ho as ->. exists (f o).
    rewrite lookup_insert_eq. split; [done|]. by rewrite Hf.
  - exists o. by rewrite lookup_insert_ne.
Qed.

Lemma deps_try_schedule r L b :
  preserves (λ s, ∃ o, operations s !! r = Some o ∧ pending_dependencies o = L)
    (gum_v8_object_operation_try_schedule_when_idle b).
Proof.
  assert (Hmod : ∀ f, (∀ s, operations (f s) = operations s) →
            preserves (λ s, ∃ o, operations s !! r = Some o ∧
                                 pending_dependencies o = L) (modify f)).
  { intros f Hf. apply preserves_modify. intros s. by rewrite Hf. }
  unfold gum_v8_object_operation_try_schedule_when_idle,
    _gum_v8_object_operation_schedule, gum_script_job_start_on_js_thread,
    g_queue_push_tail, update_object, store_object, emit.
  repeat first
    [ solve [eauto using preserves_deref_object, preserves_deref_operation]
    | apply preserves_ret
    | apply Hmod; intros ?; reflexivity
    | apply deps_update_operation; intros ?; reflexivity
    | match goal with
      | |- preserves _ (match ?x with _ => _ end) => destruct x
      end
    | apply preserves_bind; [|intros ?] ].
Qed.

(** The completion of a started operation frees it and leaves the
    dependencies of every other operation as they are. *)
Lemma deps_free pins x s q op s' r L :
  Inv pins x s →
  operations s !! q = Some op →
  job op = JobStarted →
  r ≠ q →
  (∃ o, operations s !! r = Some o ∧ pending_dependencies o = L) →
  gum_v8_object_operation_free q s = Ok (tt, s') →
  operations s' !! q = None ∧
  ∃ o, operations s' !! r = Some o ∧ pending_dependencies o = L.
Proof.
  intros HI Hq Hjob Hne (ro & Hr & HL) Hrun.
  pose proof (started_no_dependencies _ _ _ _ _ HI Hq Hjob) as Hdeps.
  destruct (inv_op_obj _ _ _ HI q op Hq) as [o Ho].
  destruct (decide (guint_wrap (num_active_operations o - 1) = 0)) as [Hn|Hn];
    [destruct (pending_operations o) as [|next rest] eqn:Hpq|].
  - rewrite (operation_free_no_pop _ _ _ _ Hq Ho Hdeps) in Hrun by (by right).
    injection Hrun as <-. simpl. split; [apply lookup_delete_eq|].
    exists ro. by rewrite lookup_delete_ne.
  - destruct (inv_queue _ _ _ HI (object op) o next Ho)
      as (nop & Hnext & Hown & Hnj & Hnd).
    { rewrite Hpq. apply list_elem_of_here. }
    rewrite (operation_free_pop _ _ _ _ _ _ _ Hq Ho Hdeps Hn Hpq Hnext Hown) in Hrun.
    injection Hrun as <-. simpl. split; [apply lookup_delete_eq|].
    rewrite lookup_delete_ne by done.
    destruct (decide (r = next)) as [->|Hrn].
    + rewrite Hnext in Hr. injection Hr as ->.
      exists (with_job JobStarted ro). by rewrite lookup_insert_eq.
    + exists ro. by rewrite lookup_insert_ne.
  - rewrite (operation_free_no_pop _ _ _ _ Hq Ho Hdeps) in Hrun by (by left).
    injection Hrun as <-. simpl. split; [apply lookup_delete_eq|].
    exists ro. by rewrite lookup_delete_ne.
Qed.

(** X18. What a completion does to the other operations.  In every state
    of every valid schedule the completion of a started operation [q]
    never fails and frees [q].  Every other operation stays in the store
    with the pending dependencies it had, except the operation that [q]
    blocks when [q] is a probe: that one loses [q], and only [q], from
    its list.  No list mentions [q] afterwards, and an operation whose
    list is then empty is started or queued on its object at once. *)
Theorem completion_releases pins s q op r rop :
  reachable valid pins s →
  operations s !! q = Some op →
  job op = JobStarted →
  operations s !! r = Some rop →
  r ≠ q →
  ∃ s' rop',
    exec (EvComplete q) s = Ok (tt, s') ∧
    operations s' !! q = None ∧
    operations s' !! r = Some rop' ∧
    pending_dependencies rop' =
      (if decide (blocked_operation op = Some r)
       then g_slist_remove (pending_dependencies rop) q
       else pending_dependencies rop) ∧
    (q ∉ pending_dependencies rop') ∧
    (pending_dependencies rop' = [] →
     job rop' = JobStarted ∨
     ∃ o, objects s' !! object rop' = Some o ∧ r ∈ pending_operations o).
Proof.
  intros Hs Hq Hj Hr Hne. pose proof (reachable_Inv _ _ Hs) as HI.
  assert (Hvalid : valid (EvComplete q) s = true).
  { unfold valid, enabled, disciplined, has_job. by rewrite Hq, Hj. }
  destruct (step_ok _ _ _ HI Hvalid) as (s' & Hrun & HI' & _).
  set (L := if decide (blocked_operation op = Some r)
            then g_slist_remove (pending_dependencies rop) q
            else pending_dependencies rop).
  assert (HQ : operations s' !! q = None ∧
               ∃ o, operations s' !! r = Some o ∧ pending_dependencies o = L).
  { apply (complete_turns
             (λ s0, operations s0 !! r = Some rop ∧ operations s0 !! q = Some op)
             (λ s0, ∃ o, operations s0 !! r = Some o ∧ pending_dependencies o = L)
             (λ s0, operations s0 !! q = None ∧
                    ∃ o, operations s0 !! r = Some o ∧ pending_dependencies o = L)
             pins q) with (s := s); try done.
    - intros s0 pr b s1 [Hr0 Hq0] Hq0' Hb Hupd.
      rewrite Hq0 in Hq0'. injection Hq0' as <-.
      unfold update_operation in Hupd. unfold_monad.
      destruct (operations s0 !! b) as [ob|] eqn:Hb0; [|done].
      injection Hupd as <-. simpl. unfold L.
      destruct (decide (blocked_operation op = Some r)) as [E|E].
      + rewrite Hb in E. injection E as ->.
        rewrite Hr0 in Hb0. injection Hb0 as <-.
        eexists. by rewrite lookup_insert_eq.
      + exists rop. rewrite lookup_insert_ne; [done|]. intros ->. by rewrite Hb in E.
    - intros b bop s0 s0' HP _ _. by apply deps_try_schedule.
    - intros x s0 op0 s0' HI0 HP Hq0 Hj0 Hrun0. by eapply deps_free.
    - intros s0 op0 s0' HI0 [Hr0 Hq0] Hq0' Hj0 Hb0 Hrun0.
      rewrite Hq0 in Hq0'. injection Hq0' as <-.
      eapply deps_free; eauto. exists rop. split; [done|]. unfold L.
      rewrite decide_False; [done|]. by rewrite Hb0. }
  destruct HQ as (Hgone & rop' & Hr' & HL).
  exists s', rop'. split; [done|]. split; [done|]. split; [done|].
  split; [done|]. split.
  - intros Hin. destruct (inv_deps _ _ _ HI' r rop' q Hr' Hin) as (pr & Hpr & _).
    by rewrite Hgone in Hpr.
  - intros Hnil.
    assert (Hs' : reachable valid pins s') by (by eapply reachable_step).
    destruct (reachable_NoneLost _ _ _ Hs') as [_ HNL].
    destruct (HNL r rop' Hr') as [Hin|[Hst|[Hd|Hqu]]].
    + by apply elem_of_nil in Hin.
    + by left.
    + done.
    + by right.
Qed.

Lemma completion_releases_witness :
  ∃ s' rop',
    exec (EvComplete 5)
      (state_after [EvRegister 7; EvRegister 8; EvSchedule 1 false;
                    EvScheduleWhenIdle 2 true (Some [1%positive]);
                    EvComplete 3]) = Ok (tt, s') ∧
    operations s' !! 4%positive = Some rop' ∧
    pending_dependencies rop' = [] ∧
    job rop' = JobStarted.
Proof.
  destruct (completion_releases 0
              (state_after [EvRegister 7; EvRegister 8; EvSchedule 1 false;
                            EvScheduleWhenIdle 2 true (Some [1%positive]);
                            EvComplete 3])
              5%positive (with_job JobStarted (probe_operation 1 4))
              4%positive
              (with_pending_dependencies [5%positive] (new_operation 2 true)))
    as (s' & rop' & Hrun & _ & Hr' & HL & _ & Hsched).
  - apply (state_after_reachable
             [EvRegister 7; EvRegister 8; EvSchedule 1 false;
              EvScheduleWhenIdle 2 true (Some [1%positive]); EvComplete 3]).
    vm_compute. reflexivity.
  - vm_compute. reflexivity.
  - reflexivity.
  - vm_compute. reflexivity.
  - done.
  - exists s', rop'. split; [exact Hrun|]. split; [exact Hr'|].
    split; [exact HL|].
    vm_compute in Hrun. injection Hrun as <-.
    vm_compute in Hr'. injection Hr' as <-. reflexivity.
Defined.
